(** * Contentful rich text to render plan: a shallow embedding of renderer.ts

    The walker ([processBlock], [collectSegmentsFromBlock],
    [collectSegmentsFromInline]), the merger ([mergeAdjacentSegments]), the
    table extractor ([processTableToRows]) and the two entry points
    ([documentToRenderPlan], [richTextToPlainString]) are embedded as Rocq
    functions.  A call that would raise an uncaught [TypeError] in the
    JavaScript returns [None]; every other call returns [Some] result.  The
    limits of the engine are not part of the embedding: the depth of the
    call stack and the number of arguments that a spread [push(...xs)] can
    pass are unbounded here, so a [Some] result stands for what the code
    returns short of a [RangeError] on a document too deep or too wide for
    the engine. *)

From Stdlib Require Import String Ascii Sorted.
From stdpp Require Import base option list strings gmap pretty.

Local Open Scope string_scope.
Local Open Scope list_scope.

#[local] Set Warnings "-register-all".

(** ** Data model (types.ts) *)

(** The types of types.ts, which renderer.ts imports; their declarations
    are the last part of src/src/index.ts.  They are given as declared there
    and as renderer.ts reads and writes their fields. *)

(** A mark on a text leaf, [{ type: string }] ([RichTextText.marks]). *)
Record Mark := { type : string }.

(** The payload [data] of a node, as far as the renderer reads it through its
    casts: [data.uri], [data.target.fields.file], [data.target.fields.title]
    and [data.target.sys.id].  A title is a plain string or a record from
    locale codes to strings; a file is a plain [{ url?: string }] or a record
    from locale codes to such objects.  Locale records are keyed by locale
    codes only, so reading the property [url] off a locale record gives
    [undefined]. *)
Record FileRef := { url : option string }.

Inductive FileField :=
| FilePlain (f : FileRef)
| FileLocalized (m : gmap string FileRef).

Inductive TitleField :=
| TitlePlain (s : string)
| TitleLocalized (m : gmap string string).

Record Fields := { file : option FileField; title : option TitleField }.
Record Sys := { sys_id : option string }.
Record Target := { fields : option Fields; sys : option Sys }.
Record Data := { uri : option string; target : option Target }.

Definition noData : Data := {| uri := None; target := None |}.

(** The node types [RichTextText], [RichTextBlock] and [RichTextInline] of
    types.ts.  A node is a Text leaf (a string value and its marks) or a node
    with a [nodeType] tag, a [data] payload and an ordered [content].
    RichTextBlock and RichTextInline have this same shape at run time and the
    renderer tells them apart by [nodeType] only, so one constructor carries
    both.  The tag ["text"] is the Text leaf's own: the test
    [nodeType === "text"] is the test for the [Text] constructor. *)
Inductive Node :=
| Text (value : string) (marks : list Mark)
| Elem (nodeType : string) (data : Data) (content : list Node).

(** The two readings of [Elem], for writing documents. *)
Definition Block := Elem.
Definition Inline := Elem.

(** [RichTextDocument]: the document, an ordered sequence of top-level
    nodes. *)
Record RichTextDocument := { doc_content : list Node }.

(** ["unordered" | "ordered"]; [null] is [None] of [option ListType]. *)
Inductive ListType := unordered | ordered.

(** The interface [BlockContext] of renderer.ts. *)
Record BlockContext := {
  ctx_headingLevel : nat;
  ctx_listType : option ListType;
  ctx_listIndent : nat;
  ctx_isBlockquote : bool
}.

(** [RichTextSegment], with the nine fields that every segment literal of
    renderer.ts sets; [hyperlink] is a URL or [null]. *)
Record Segment := {
  text : string;
  bold : bool;
  italic : bool;
  underline : bool;
  code : bool;
  headingLevel : nat;
  listType : option ListType;
  listIndent : nat;
  hyperlink : option string
}.

(** [RichTextTableRow], as [processTableToRows] builds it. *)
Record TableRow := { cells : list (list Segment); isHeader : bool }.

(** [RichTextRenderBlock], the four tagged shapes that
    [documentToRenderPlan] pushes, and [RichTextRenderPlan]. *)
Inductive RenderBlock :=
| TextBlock (segments : list Segment)
| ImageBlock (url_ : string) (title_ : string)
| HrBlock
| TableBlock (rows : list TableRow).

Record RenderPlan := { blocks : list RenderBlock }.

#[global] Instance ListType_eq_dec : EqDecision ListType.
Proof. solve_decision. Defined.
#[global] Instance Segment_eq_dec : EqDecision Segment.
Proof. solve_decision. Defined.

Definition DEFAULT_CONTEXT : BlockContext :=
  {| ctx_headingLevel := 0; ctx_listType := None;
     ctx_listIndent := 0; ctx_isBlockquote := false |}.

(** ** JavaScript helpers *)

(** The truthiness of a possibly absent string: the empty string and
    [undefined] are falsy, and [None] stands for both. *)
Definition truthy (s : option string) : option string :=
  match s with
  | Some v => if String.eqb v "" then None else Some v
  | None => None
  end.

(** [s || fallback]. *)
Definition js_or (s : option string) (fallback : string) : string :=
  default fallback (truthy s).

(** [Array.prototype.join]. *)
Fixpoint join (sep : string) (l : list string) : string :=
  match l with
  | [] => ""
  | [s] => s
  | s :: rest => s +:+ sep +:+ join sep rest
  end.

(** [for (const x of l) out.push(...f(x))], where [f] may throw. *)
Definition forEachPush {A B} (f : A → option (list B)) : list A → option (list B) :=
  fix go l :=
    match l with
    | [] => Some []
    | x :: l' => xs ← f x; ys ← go l'; Some (xs ++ ys)
    end.

(** [for (const x of l) { ... }] with the loop's variables as a state [s]
    that the body updates; the body may throw. *)
Fixpoint forEachState {S A} (body : S → A → option S) (l : list A) (s : S)
    : option S :=
  match l with
  | [] => Some s
  | x :: l' => s' ← body s x; forEachState body l' s'
  end.

(** ** Marks and text leaves *)

(** [node.marks?.some((m) => m.type === markType) ?? false]: absent marks
    are the empty list. *)
Definition hasMarks (marks : list Mark) (markType : string) : bool :=
  existsb (λ m, String.eqb (type m) markType) marks.

Definition textNodeToSegment (value : string) (marks : list Mark)
    (ctx : BlockContext) : Segment :=
  {| text := value;
     bold := hasMarks marks "bold";
     italic := hasMarks marks "italic";
     underline := hasMarks marks "underline";
     code := hasMarks marks "code";
     headingLevel := ctx_headingLevel ctx;
     listType := ctx_listType ctx;
     listIndent := ctx_listIndent ctx;
     hyperlink := None |}.

(** ** Title and URL resolution *)

(** [typeof t === "object" ? t["en-US"] : t] on [target?.fields?.title]. *)
Definition localizedTitle (tgt : option Target) : option string :=
  tg ← tgt; f ← fields tg; t ← title f;
  match t with
  | TitlePlain s => Some s
  | TitleLocalized m => m !! "en-US"
  end.

(** [target?.sys?.id]. *)
Definition targetSysId (tgt : option Target) : option string :=
  t ← tgt; s ← sys t; sys_id s.

(** The title of an embedded entry:
    [(... title ...) || target?.sys?.id || "entry"]. *)
Definition entryTitle (tgt : option Target) : string :=
  js_or (localizedTitle tgt) (js_or (targetSysId tgt) "entry").

(** [target?.fields?.file?.url], the file read as [{ url?: string }]. *)
Definition targetFileUrl (tgt : option Target) : option string :=
  tg ← tgt; f ← fields tg; fl ← file f;
  match fl with
  | FilePlain r => url r
  | FileLocalized _ => None
  end.

Definition isHyperlink (nodeType : string) : bool :=
  String.eqb nodeType "hyperlink"
  || String.eqb nodeType "entry-hyperlink"
  || String.eqb nodeType "asset-hyperlink".

(** The [href] of [collectSegmentsFromInline]; [None] is [null]. *)
Definition resolveHref (nodeType : string) (data : Data) : option string :=
  if isHyperlink nodeType then
    match truthy (uri data) with
    | Some u => Some u
    | None => truthy (targetFileUrl (target data))
    end
  else None.

(** ** The walker *)

Definition entryPlaceholder (ctx : BlockContext) (ttl : string) : Segment :=
  {| text := "[" +:+ ttl +:+ "]";
     bold := false; italic := true; underline := false; code := false;
     headingLevel := ctx_headingLevel ctx;
     listType := ctx_listType ctx;
     listIndent := ctx_listIndent ctx;
     hyperlink := None |}.

Definition linkSegment (href : option string) (seg : Segment) : Segment :=
  match href with
  | Some u =>
      {| text := text seg; bold := bold seg; italic := italic seg;
         underline := true; code := code seg;
         headingLevel := headingLevel seg; listType := listType seg;
         listIndent := listIndent seg; hyperlink := Some u |}
  | None => seg
  end.

Definition collectSegmentsFromInline (nodeType : string) (data : Data)
    (content : list Node) (ctx : BlockContext) : list Segment :=
  let href := resolveHref nodeType data in
  flat_map (λ child,
      match child with
      | Text value marks => [linkSegment href (textNodeToSegment value marks ctx)]
      | Elem _ _ _ => []
      end) content
  ++ (if String.eqb nodeType "embedded-entry-inline"
      then [entryPlaceholder ctx (entryTitle (target data))]
      else []).

Definition isBlockNode (nodeType : string) : bool :=
  existsb (String.eqb nodeType)
    ["paragraph"; "heading-1"; "heading-2"; "heading-3"; "heading-4";
     "heading-5"; "heading-6"; "blockquote"; "unordered-list";
     "ordered-list"; "list-item"; "table"; "table-row"; "table-cell";
     "table-header-cell"; "hr"; "embedded-asset-block";
     "embedded-entry-block"].

Definition isDigit (c : ascii) : bool :=
  (48 <=? nat_of_ascii c)%nat && (nat_of_ascii c <=? 57)%nat.

(** [nodeType.match(/^heading-(\d)$/)] and [parseInt] of the digit. *)
Definition headingLevelFromNodeType (nodeType : string) : nat :=
  if String.prefix "heading-" nodeType then
    match String.substring 8 (String.length nodeType - 8) nodeType with
    | String c EmptyString => if isDigit c then nat_of_ascii c - 48 else 0
    | _ => 0
    end
  else 0.

Definition withHeading (ctx : BlockContext) (n : nat) : BlockContext :=
  {| ctx_headingLevel := n; ctx_listType := ctx_listType ctx;
     ctx_listIndent := ctx_listIndent ctx;
     ctx_isBlockquote := ctx_isBlockquote ctx |}.

Definition withBlockquote (ctx : BlockContext) : BlockContext :=
  {| ctx_headingLevel := ctx_headingLevel ctx; ctx_listType := ctx_listType ctx;
     ctx_listIndent := ctx_listIndent ctx; ctx_isBlockquote := true |}.

Definition withList (ctx : BlockContext) (lt : ListType) : BlockContext :=
  {| ctx_headingLevel := ctx_headingLevel ctx; ctx_listType := Some lt;
     ctx_listIndent := ctx_listIndent ctx + 1;
     ctx_isBlockquote := ctx_isBlockquote ctx |}.

Definition rowSegment (cellTexts : list string) : Segment :=
  {| text := join (String (ascii_of_nat 9) "") cellTexts;
     bold := false; italic := false; underline := false; code := false;
     headingLevel := 0; listType := None; listIndent := 0;
     hyperlink := None |}.

Definition segmentsText (segs : list Segment) : string :=
  join "" (map text segs).

(** The loop of [collectSegmentsFromBlock] over [block.content], with the
    walker it calls back into as a parameter.  A child that is not a Text
    leaf has a [content], which is truthy even when empty. *)
Definition collectSegmentsWith
    (walk : Node → BlockContext → option (list Segment))
    (content : list Node) (ctx : BlockContext) : option (list Segment) :=
  forEachPush (λ child,
      match child with
      | Text value marks => Some [textNodeToSegment value marks ctx]
      | Elem ty d c =>
          if negb (isBlockNode ty) then Some (collectSegmentsFromInline ty d c ctx)
          else if isBlockNode ty then walk child ctx
          else Some []
      end) content.

Fixpoint processBlock (block : Node) (parentCtx : BlockContext)
    {struct block} : option (list Segment) :=
  match block with
  | Text _ _ =>
      (* no arm matches the tag "text"; the fallback iterates
         block.content, which is undefined on a Text leaf *)
      None
  | Elem nodeType _ content =>
      if String.prefix "heading-" nodeType then
        collectSegmentsWith processBlock content
          (withHeading parentCtx (headingLevelFromNodeType nodeType))
      else if String.eqb nodeType "paragraph" then
        collectSegmentsWith processBlock content parentCtx
      else if String.eqb nodeType "blockquote" then
        forEachPush (λ child, processBlock child (withBlockquote parentCtx)) content
      else if String.eqb nodeType "unordered-list"
              || String.eqb nodeType "ordered-list" then
        let listType :=
          if String.eqb nodeType "unordered-list" then unordered else ordered in
        forEachPush (λ child,
            match child with
            | Elem ty _ items =>
                if String.eqb ty "list-item" then
                  forEachPush (λ listChild,
                      processBlock listChild (withList parentCtx listType)) items
                else Some []
            | Text _ _ => Some []
            end) content
      else if String.eqb nodeType "table" then
        forEachPush (λ row,
            match row with
            | Elem ty _ rowCells =>
                if String.eqb ty "table-row" then
                  cellTexts ← mapM (λ cell,
                      segmentsText <$> processBlock cell parentCtx) rowCells;
                  Some [rowSegment cellTexts]
                else Some []
            | Text _ _ => Some []
            end) content
      else if String.eqb nodeType "table-cell"
              || String.eqb nodeType "table-header-cell" then
        forEachPush (λ child, processBlock child parentCtx) content
      else
        collectSegmentsWith processBlock content parentCtx
  end.

Definition collectSegmentsFromBlock (block : Node) (ctx : BlockContext)
    : option (list Segment) :=
  match block with
  | Text _ _ => None
  | Elem _ _ content => collectSegmentsWith processBlock content ctx
  end.

(** ** The segment merger *)

(** The comparison of [mergeAdjacentSegments]: the eight formatting fields,
    each with [===]; [text] is not compared. *)
Definition sameFormat (prev curr : Segment) : bool :=
  bool_decide (bold prev = bold curr)
  && bool_decide (italic prev = italic curr)
  && bool_decide (underline prev = underline curr)
  && bool_decide (code prev = code curr)
  && bool_decide (headingLevel prev = headingLevel curr)
  && bool_decide (listType prev = listType curr)
  && bool_decide (listIndent prev = listIndent curr)
  && bool_decide (hyperlink prev = hyperlink curr).

(** [prev.text += curr.text]. *)
Definition appendText (prev : Segment) (more : string) : Segment :=
  {| text := text prev +:+ more; bold := bold prev; italic := italic prev;
     underline := underline prev; code := code prev;
     headingLevel := headingLevel prev; listType := listType prev;
     listIndent := listIndent prev; hyperlink := hyperlink prev |}.

(** One iteration of the loop: [prev] is [merged[merged.length - 1]], which
    is either updated in place or followed by a copy of [curr].  [merged]
    starts with one element and never shrinks, so [prev] exists.  The update
    in place writes to the first object of the input or to a copy made by
    the loop; the segments of an input are distinct objects (the renderer
    builds each from a literal of its own), so the write is seen through
    [merged] only and segments are modelled as values. *)
Definition mergeStep (merged : list Segment) (curr : Segment) : list Segment :=
  match last merged with
  | Some prev =>
      if sameFormat prev curr
      then removelast merged ++ [appendText prev (text curr)]
      else merged ++ [curr]
  | None => merged ++ [curr]
  end.

Definition mergeAdjacentSegments (segments : list Segment) : list Segment :=
  match segments with
  | [] => segments
  | first :: rest => fold_left mergeStep rest [first]
  end.

(** The merger as the spec words it: a linear scan that carries the last
    accumulated segment [acc]; a segment with the formatting of [acc] has its
    text concatenated into [acc], any other segment closes [acc] and becomes
    the new accumulated segment. *)
Fixpoint mergeScan (acc : Segment) (rest : list Segment) : list Segment :=
  match rest with
  | [] => [acc]
  | curr :: rest' =>
      if sameFormat acc curr
      then mergeScan (appendText acc (text curr)) rest'
      else acc :: mergeScan curr rest'
  end.

Definition mergeReference (segments : list Segment) : list Segment :=
  match segments with
  | [] => []
  | first :: rest => mergeScan first rest
  end.

(** ** The table extractor *)

(** The body of the inner loop, over the cells of one row, on its two
    accumulators [cells] and [isHeader].  A cell without [content] (a Text
    leaf) makes [for (const child of cell.content)] throw. *)
Definition cellStep (state : list (list Segment) * bool) (cell : Node)
    : option (list (list Segment) * bool) :=
  let '(cells, isHeader) := state in
  match cell with
  | Text _ _ => None
  | Elem ty _ cellContent =>
      let isHeader' :=
        if String.eqb ty "table-header-cell" then true else isHeader in
      cellSegments ←
        forEachPush (λ child, processBlock child DEFAULT_CONTEXT) cellContent;
      Some (cells ++ [mergeAdjacentSegments cellSegments], isHeader')
  end.

(** The body of the outer loop, over the children of the table, on its
    accumulator [rows]. *)
Definition rowStep (rows : list TableRow) (row : Node) : option (list TableRow) :=
  match row with
  | Text _ _ => Some rows
  | Elem ty _ rowCells =>
      if negb (String.eqb ty "table-row") then Some rows
      else
        '(cells, isHeader) ← forEachState cellStep rowCells ([], false);
        Some (rows ++ [{| cells := cells; isHeader := isHeader |}])
  end.

Definition processTableToRows (tableBlock : Node) : option (list TableRow) :=
  match tableBlock with
  | Text _ _ => None
  | Elem _ _ content => forEachState rowStep content []
  end.

(** ** The plan assembler *)

Definition nodeTypeOf (n : Node) : string :=
  match n with
  | Text _ _ => "text"
  | Elem ty _ _ => ty
  end.

(** [node.data?.target]; a Text leaf's data carries none. *)
Definition targetOf (n : Node) : option Target :=
  match n with
  | Text _ _ => None
  | Elem _ d _ => target d
  end.

(** The [file] of the embedded-asset arm: the ["en-US"] entry of
    [target.fields.file], or else that object itself. *)
Definition assetFile (tgt : option Target) : option FileRef :=
  tg ← tgt; f ← fields tg; fl ← file f;
  match fl with
  | FilePlain r => Some r
  | FileLocalized m => m !! "en-US"
  end.

(** [file?.url ? `https:${file.url}` : null]. *)
Definition assetUrl (tgt : option Target) : option string :=
  match truthy (r ← assetFile tgt; url r) with
  | Some u => Some ("https:" +:+ u)
  | None => None
  end.

Definition embeddedEntrySegment (ttl : string) : Segment :=
  {| text := "[Embedded: " +:+ ttl +:+ "]";
     bold := false; italic := true; underline := false; code := false;
     headingLevel := 0; listType := None; listIndent := 0;
     hyperlink := None |}.

(** The body of the loop of [documentToRenderPlan]: the render blocks pushed
    for one top-level block. *)
Definition renderTopBlock (topBlock : Node) : option (list RenderBlock) :=
  if String.eqb (nodeTypeOf topBlock) "table" then
    rows ← processTableToRows topBlock;
    Some (if (0 <? length rows)%nat then [TableBlock rows] else [])
  else if String.eqb (nodeTypeOf topBlock) "embedded-asset-block" then
    let ttl := js_or (localizedTitle (targetOf topBlock)) "image" in
    match assetUrl (targetOf topBlock) with
    | Some u => Some [ImageBlock u ttl]
    | None => Some []
    end
  else if String.eqb (nodeTypeOf topBlock) "embedded-entry-block" then
    Some [TextBlock [embeddedEntrySegment (entryTitle (targetOf topBlock))]]
  else if String.eqb (nodeTypeOf topBlock) "hr" then
    Some [HrBlock]
  else
    segments ← processBlock topBlock DEFAULT_CONTEXT;
    Some (if (0 <? length segments)%nat
          then [TextBlock (mergeAdjacentSegments segments)]
          else []).

Definition documentToRenderPlan (doc : RichTextDocument) : option RenderPlan :=
  blocks ← forEachPush renderTopBlock (doc_content doc);
  Some {| blocks := blocks |}.

(** ** The plain-text assembler *)

Definition newline : string := String (ascii_of_nat 10) "".

(** The body of the loop of [richTextToPlainString]: the lines pushed for one
    top-level block. *)
Definition plainLines (block : Node) : option (list string) :=
  if String.eqb (nodeTypeOf block) "hr" then
    Some ["---"]
  else if String.eqb (nodeTypeOf block) "embedded-asset-block" then
    let ttl := js_or (localizedTitle (targetOf block)) "[image]" in
    Some ["[" +:+ ttl +:+ "]"]
  else if String.eqb (nodeTypeOf block) "embedded-entry-block" then
    Some ["[Embedded: " +:+ entryTitle (targetOf block) +:+ "]"]
  else
    segments ← processBlock block DEFAULT_CONTEXT;
    let lineText := segmentsText segments in
    Some (if String.eqb lineText "" then [] else [lineText]).

(** [doc] is [None] for a [null] or [undefined] document. *)
Definition richTextToPlainString (doc : option RichTextDocument) : option string :=
  match doc with
  | None => Some ""
  | Some d =>
      lines ← forEachPush plainLines (doc_content d);
      Some (join newline lines)
  end.

(** ** Builders for documents, as in renderer.test.ts *)

Definition makeDoc (content : list Node) : RichTextDocument :=
  {| doc_content := content |}.
Definition textNode (value : string) : Node := Text value [].
Definition markedText (value : string) (types : list string) : Node :=
  Text value (map (λ t, {| type := t |}) types).
Definition paragraph (texts : list Node) : Node := Block "paragraph" noData texts.
Definition plainSegment (s : string) : Segment :=
  textNodeToSegment s [] DEFAULT_CONTEXT.
Definition titledTarget (ttl : string) (fl : option FileField)
    (ident : option string) : Data :=
  {| uri := None;
     target := Some {| fields := Some {| file := fl; title := Some (TitlePlain ttl) |};
                       sys := Some {| sys_id := ident |} |} |}.

Definition sampleTable : Node :=
  Block "table" noData
    [Block "table-row" noData
       [Block "table-header-cell" noData [paragraph [textNode "Name"]];
        Block "table-header-cell" noData [paragraph [textNode "Age"]]];
     Block "table-row" noData
       [Block "table-cell" noData [paragraph [textNode "Alice"]];
        Block "table-cell" noData [paragraph [textNode "30"]]]].


(** ** Vocabulary of the properties *)

(** The formatting of a segment: every field but [text]. *)
Definition Format : Type :=
  bool * bool * bool * bool * nat * option ListType * nat * option string.

Definition format (s : Segment) : Format :=
  (bold s, italic s, underline s, code s,
   headingLevel s, listType s, listIndent s, hyperlink s).

(** A sequence with every run of equal neighbours collapsed to its first
    element. *)
Fixpoint collapse (l : list Format) : list Format :=
  match l with
  | [] => []
  | a :: tl =>
      match tl with
      | [] => [a]
      | b :: _ => if bool_decide (a = b) then collapse tl else a :: collapse tl
      end
  end.

(** No two consecutive segments agree on the eight formatting fields. *)
Fixpoint noAdjacentSame (l : list Segment) : Prop :=
  match l with
  | [] => True
  | a :: tl =>
      match tl with
      | [] => True
      | b :: _ => sameFormat a b = false ∧ noAdjacentSame tl
      end
  end.

(** The in-order concatenation of the texts of a segment sequence. *)
Definition allText (segs : list Segment) : string :=
  foldr (λ s acc, text s +:+ acc) "" segs.

(** Every tagged node of a subtree has a tag that satisfies [A]. *)
Fixpoint allTags (A : string → bool) (n : Node) : bool :=
  match n with
  | Text _ _ => true
  | Elem ty _ content => A ty && forallb (allTags A) content
  end.

(** No node of the subtree is tagged as a heading. *)
Definition headingFree : Node → bool :=
  allTags (λ ty, negb (String.prefix "heading-" ty)).

(** Every segment a render block holds: those of a text block, and those of
    every cell of every row of a table. *)
Definition planSegments (b : RenderBlock) : list Segment :=
  match b with
  | TextBlock segs => segs
  | TableBlock rows => concat (concat (cells <$> rows))
  | ImageBlock _ _ | HrBlock => []
  end.

(** A hyperlinked segment is underlined. *)
Definition linked (s : Segment) : Prop :=
  hyperlink s ≠ None → underline s = true.

Definition contentOf (n : Node) : list Node :=
  match n with
  | Text _ _ => []
  | Elem _ _ content => content
  end.

(** The table extractor as the spec words it: per cell, the walk of the
    cell's content under the root context, merged on its own; per row, its
    cells in order and whether any of them is a header cell; per table, its
    [table-row] children in order. *)
Definition tableCell (cell : Node) : option (list Segment) :=
  match cell with
  | Text _ _ => None
  | Elem _ _ cellContent =>
      segs ← forEachPush (λ child, processBlock child DEFAULT_CONTEXT) cellContent;
      Some (mergeAdjacentSegments segs)
  end.

Definition isHeaderCell (cell : Node) : bool :=
  String.eqb (nodeTypeOf cell) "table-header-cell".

Definition isTableRow (row : Node) : bool :=
  String.eqb (nodeTypeOf row) "table-row".

Definition tableRow (row : Node) : option TableRow :=
  cs ← mapM tableCell (contentOf row);
  Some {| cells := cs; isHeader := existsb isHeaderCell (contentOf row) |}.

Definition tableRows (content : list Node) : option (list TableRow) :=
  mapM tableRow (List.filter isTableRow content).

(** The content blocks of the [list-item] children of a list. *)
Definition listItemBlocks (content : list Node) : list Node :=
  flat_map (λ child,
      if String.eqb (nodeTypeOf child) "list-item" then contentOf child else [])
    content.

Definition listTag (lt : ListType) : string :=
  match lt with
  | unordered => "unordered-list"
  | ordered => "ordered-list"
  end.

(** [body] wrapped in one list per element of [kinds], outermost first, each
    list holding one list item. *)
Fixpoint nestedList (kinds : list ListType) (body : Node) : Node :=
  match kinds with
  | [] => body
  | lt :: inner =>
      Block (listTag lt) noData
        [Block "list-item" noData [nestedList inner body]]
  end.

(** The context [length kinds] list levels below [ctx]. *)
Definition nestedContext (ctx : BlockContext) (kinds : list ListType)
    : BlockContext :=
  fold_left withList kinds ctx.

(** A top-level block that [documentToRenderPlan] hands to the walker. *)
Definition walkedAtTopLevel (b : Node) : bool :=
  negb (String.eqb (nodeTypeOf b) "table")
  && negb (String.eqb (nodeTypeOf b) "embedded-asset-block")
  && negb (String.eqb (nodeTypeOf b) "embedded-entry-block")
  && negb (String.eqb (nodeTypeOf b) "hr").

(** A Text leaf from its value and marks. *)
Definition textLeaf (t : string * list Mark) : Node := Text t.1 t.2.

(** The image block of an asset, if its file URL resolves. *)
Definition assetImage (tgt : option Target) : list RenderBlock :=
  match truthy (r ← assetFile tgt; url r) with
  | Some u => [ImageBlock ("https:" +:+ u) (default "image" (truthy (localizedTitle tgt)))]
  | None => []
  end.

(** The tag of a heading of level [n], for [n] from 1 to 6. *)
Definition headingTag (n : nat) : string :=
  "heading-" +:+ String (ascii_of_nat (48 + n)) "".

Definition isListItem (child : Node) : bool :=
  String.eqb (nodeTypeOf child) "list-item".

(** A heading, then a list whose item holds a heading. *)
Definition headingThenList : RichTextDocument :=
  makeDoc
    [Block "heading-1" noData [textNode "Title"];
     Block "unordered-list" noData
       [Block "list-item" noData
          [Block "heading-2" noData [textNode "Item"]]]].

(** The resolved file URL of an asset: the non-empty [url] of its plain file,
    or of the ["en-US"] entry of its localized file. *)
Definition resolvedFileUrl (tgt : option Target) : option string :=
  truthy (r ← assetFile tgt; url r).

(** The asset of the scenario: file URL [//images.example.net/photo.jpg],
    title [My Photo]. *)
Definition photoAsset : Node :=
  Block "embedded-asset-block"
    (titledTarget "My Photo"
       (Some (FilePlain {| url := Some "//images.example.net/photo.jpg" |}))
       None) [].

(** An asset block with no target, hence no title. *)
Definition untitledAsset : Node := Block "embedded-asset-block" noData [].

(** A paragraph whose one Text leaf is empty. *)
Definition emptyParagraph : Node := paragraph [textNode ""].

(** A blockquote whose child is a Text leaf and not a paragraph. *)
Definition quoteOfText : Node := Block "blockquote" noData [textNode "x"].

(** The children of a text-collecting block that the walker can collect: a
    child with a block tag is walked as a block and has to be walkable. *)
Definition collectable (walkable : Node → bool) (content : list Node) : bool :=
  forallb (λ child,
      match child with
      | Text _ _ => true
      | Elem ty _ _ => if isBlockNode ty then walkable child else true
      end) content.

(** The nodes on which the walker returns: wherever it recurses into a
    node as into a block, that node is not a Text leaf. *)
Fixpoint walks (n : Node) : bool :=
  match n with
  | Text _ _ => false
  | Elem ty _ content =>
      if String.prefix "heading-" ty then collectable walks content
      else if String.eqb ty "paragraph" then collectable walks content
      else if String.eqb ty "blockquote" then forallb walks content
      else if String.eqb ty "unordered-list" || String.eqb ty "ordered-list" then
        forallb (λ child,
            match child with
            | Text _ _ => true
            | Elem cty _ items =>
                if String.eqb cty "list-item" then forallb walks items else true
            end) content
      else if String.eqb ty "table" then
        forallb (λ row,
            match row with
            | Text _ _ => true
            | Elem rty _ rowCells =>
                if String.eqb rty "table-row" then forallb walks rowCells else true
            end) content
      else if String.eqb ty "table-cell" || String.eqb ty "table-header-cell" then
        forallb walks content
      else collectable walks content
  end.

(** The cells on which the table extractor returns. *)
Definition cellWalks (cell : Node) : bool :=
  match cell with
  | Text _ _ => false
  | Elem _ _ cellContent => forallb walks cellContent
  end.

(** The top-level blocks on which [documentToRenderPlan] returns. *)
Definition renders (b : Node) : bool :=
  if String.eqb (nodeTypeOf b) "table" then
    forallb (λ row, if isTableRow row then forallb cellWalks (contentOf row) else true)
      (contentOf b)
  else if String.eqb (nodeTypeOf b) "embedded-asset-block" then true
  else if String.eqb (nodeTypeOf b) "embedded-entry-block" then true
  else if String.eqb (nodeTypeOf b) "hr" then true
  else walks b.

(** The top-level blocks on which [richTextToPlainString] returns. *)
Definition flattens (b : Node) : bool :=
  if String.eqb (nodeTypeOf b) "hr" then true
  else if String.eqb (nodeTypeOf b) "embedded-asset-block" then true
  else if String.eqb (nodeTypeOf b) "embedded-entry-block" then true
  else walks b.

(** The tags other than those of the lists and of the table. *)
Definition outsideListsAndTables (ty : string) : bool :=
  negb (String.eqb ty "unordered-list" || String.eqb ty "ordered-list")
  && negb (String.eqb ty "table").

(** ** Positions of a node and what its subtree holds *)

(** The levels that the heading nodes of a subtree set. *)
Fixpoint headingLevels (n : Node) : list nat :=
  match n with
  | Text _ _ => []
  | Elem ty _ content =>
      (if String.prefix "heading-" ty then [headingLevelFromNodeType ty]
       else [])
      ++ flat_map headingLevels content
  end.

(** The tags that are no heading tag of a level outside [levels]. *)
Definition headingsWithin (levels : list nat) (ty : string) : bool :=
  negb (String.prefix "heading-" ty)
  || bool_decide (headingLevelFromNodeType ty ∈ levels).

(** The tags of the blocks whose content the walker collects with
    [collectSegmentsFromBlock]: the headings, the paragraph, and every tag
    that no arm of [processBlock] names, which the fallback takes. *)
Definition collects (ty : string) : bool :=
  String.prefix "heading-" ty
  || String.eqb ty "paragraph"
  || negb (String.eqb ty "blockquote"
           || String.eqb ty "unordered-list" || String.eqb ty "ordered-list"
           || String.eqb ty "table"
           || String.eqb ty "table-cell" || String.eqb ty "table-header-cell").

(** The context under which a block of tag [ty] collects its content. *)
Definition collectContext (ty : string) (ctx : BlockContext) : BlockContext :=
  if String.prefix "heading-" ty
  then withHeading ctx (headingLevelFromNodeType ty)
  else ctx.

(** The tags of the blocks that walk every child as a block: the blockquote
    and the two cells. *)
Definition walksChildren (ty : string) : bool :=
  String.eqb ty "blockquote"
  || String.eqb ty "table-cell" || String.eqb ty "table-header-cell".

(** The tags other than those of the lists. *)
Definition outsideLists (ty : string) : bool :=
  negb (String.eqb ty "unordered-list" || String.eqb ty "ordered-list").

(** The segment of a Text leaf given as a pair, under a context. *)
Definition leafSegment (ctx : BlockContext) (t : string * list Mark) : Segment :=
  textNodeToSegment t.1 t.2 ctx.

(** A blockquote that holds a resolving hyperlink directly. *)
Definition quotedLink : Node :=
  Block "blockquote" noData
    [Inline "hyperlink"
       {| uri := Some "https://example.com"; target := None |}
       [textNode "this link"]].

(** A blockquote that holds a heading and, beside it, a paragraph. *)
Definition quoteWithHeading : Node :=
  Block "blockquote" noData
    [Block "heading-2" noData [textNode "Head"]; paragraph [textNode "Body"]].

(** A table inside the item of a list inside the item of a list. *)
Definition tableInNestedList : Node :=
  nestedList [unordered; ordered] sampleTable.

(** ** Vocabulary of the further properties *)

(** What a segment takes from its Text leaf and its inline node, and not
    from the formatting context: text, marks and link. *)
Definition sameContent (s s' : Segment) : Prop :=
  text s = text s' ∧ bold s = bold s' ∧ italic s = italic s'
  ∧ underline s = underline s' ∧ code s = code s'
  ∧ hyperlink s = hyperlink s'.

(** Two contexts that differ in [isBlockquote] at most. *)
Definition sameButBlockquote (c c' : BlockContext) : Prop :=
  ctx_headingLevel c = ctx_headingLevel c'
  ∧ ctx_listType c = ctx_listType c'
  ∧ ctx_listIndent c = ctx_listIndent c'.

(** The formatting of a segment that carries none. *)
Definition noFormat : Format :=
  (false, false, false, false, 0, None, 0, None).

(** The list fields of a segment agree, its heading level is a digit and its
    link, if any, is not the empty string. *)
Definition segmentOK (s : Segment) : Prop :=
  (listType s = None ↔ listIndent s = 0)
  ∧ (headingLevel s ≤ 9)%nat
  ∧ hyperlink s ≠ Some "".

(** A render block as [documentToRenderPlan] makes them: a text block holds
    a merged, non-empty run of segments; a table holds at least one row and
    merged cells; an image has an [https:] URL and a title. *)
Definition renderBlockOK (b : RenderBlock) : Prop :=
  match b with
  | TextBlock segs => segs ≠ [] ∧ noAdjacentSame segs
  | TableBlock rows =>
      rows ≠ [] ∧ Forall (λ r, Forall noAdjacentSame (cells r)) rows
  | ImageBlock u ttl => String.prefix "https:" u = true ∧ ttl ≠ ""
  | HrBlock => True
  end.

(** Two strings as two runs of lines: joined by a newline unless one of them
    is empty. *)
Definition glueLines (a b : string) : string :=
  if String.eqb a "" then b
  else if String.eqb b "" then a
  else a +:+ newline +:+ b.

Definition nonEmpty (s : string) : bool := negb (String.eqb s "").

(** The segment of one row of a table walked as a block: the texts of the
    cells, each the concatenated text of the cell's walk, joined by tabs. *)
Definition flatRow (ctx : BlockContext) (row : Node) : option Segment :=
  cellTexts ← mapM (λ cell, segmentsText <$> processBlock cell ctx)
                 (contentOf row);
  Some (rowSegment cellTexts).

(** The mark types that a segment records. *)
Definition knownMarks : list string := ["bold"; "italic"; "underline"; "code"].

(** A context as the walker makes them from the root context. *)
Definition contextOK (c : BlockContext) : Prop :=
  (ctx_listType c = None ↔ ctx_listIndent c = 0)
  ∧ (ctx_headingLevel c ≤ 9)%nat.

(** Two lists of marks that hold the same known mark types. *)
Definition sameKnownMarks (m1 m2 : list Mark) : Prop :=
  Forall (λ t, t ∈ type <$> m1 ↔ t ∈ type <$> m2) knownMarks.

(** A table with a bold header cell and a linked data cell, inside a list
    item. *)
Definition tableInList : Node :=
  Block "unordered-list" noData
    [Block "list-item" noData
       [Block "table" noData
          [Block "table-row" noData
             [Block "table-header-cell" noData
                [paragraph [markedText "Name" ["bold"]]];
              Block "table-header-cell" noData [paragraph [textNode "Age"]]];
           Block "table-row" noData
             [Block "table-cell" noData
                [paragraph
                   [Inline "hyperlink"
                      {| uri := Some "https://example.com"; target := None |}
                      [textNode "Alice"]]];
              Block "table-cell" noData [paragraph [textNode "30"]]]]]].

(** A cell of a table by its tag. *)
Definition isCell (cell : Node) : bool :=
  String.eqb (nodeTypeOf cell) "table-cell"
  || String.eqb (nodeTypeOf cell) "table-header-cell".

(** The rows of a table hold cells only. *)
Definition cellsOnly (content : list Node) : bool :=
  forallb (λ row, if isTableRow row then forallb isCell (contentOf row) else true)
    content.

(** A list item that holds one paragraph of unmarked Text leaves. *)
Definition plainItem (texts : list string) : Node :=
  Block "list-item" noData [paragraph (textNode <$> texts)].

(** ** The text that applyTextBlocksToNode sets on a node *)

(** [applyTextBlocksToNode] computes three things before and while it calls
    the plugin API: the segments of all text blocks and rules
    ([allSegments]), the characters of the node ([fullText], with the list
    prefixes), and for each segment the range [[segStart, segEnd)] that it
    formats.  These computations are embedded here; the calls of the API are
    not.  A string is a sequence of code units and [length] counts them; the
    bullet U+2022 and the dash U+2500 of the source are one code unit each
    and are parameters. *)
Section FigmaText.
Variable bullet dash : ascii.

(** [s.repeat(n)]. *)
Fixpoint repeatString (s : string) (n : nat) : string :=
  match n with
  | 0 => ""
  | S n' => s +:+ repeatString s n'
  end.

(** A segment with text only, as the two literals of the first loop. *)
Definition unformatted (t : string) : Segment :=
  {| text := t; bold := false; italic := false; underline := false;
     code := false; headingLevel := 0; listType := None; listIndent := 0;
     hyperlink := None |}.

(** The text of a rule: fifteen dashes and a newline. *)
Definition ruleText : string := repeatString (String dash "") 15 +:+ newline.

(** What one block pushes onto [allSegments]. *)
Definition blockSegments (block : RenderBlock) : list Segment :=
  match block with
  | TextBlock segs => segs ++ [unformatted newline]
  | HrBlock => [unformatted ruleText]
  | ImageBlock _ _ | TableBlock _ => []
  end.

(** [allSegments] after the first loop and the [pop] of a trailing
    newline segment. *)
Definition collectAllSegments (textBlocks : list RenderBlock) : list Segment :=
  let allSegments := flat_map blockSegments textBlocks in
  match last allSegments with
  | Some s =>
      if String.eqb (text s) newline then removelast allSegments
      else allSegments
  | None => allSegments
  end.

(** The list prefix of a segment and the ordered counter after it, as in
    the loop that builds [fullText]. *)
Definition listPrefix (seg : Segment) (orderedCounter : nat) : string * nat :=
  match listType seg with
  | Some lt =>
      if negb (String.eqb (text seg) newline) then
        let indent := repeatString "  " (listIndent seg - 1) in
        match lt with
        | unordered => (indent +:+ String bullet " ", 0)
        | ordered =>
            (indent +:+ pretty (S orderedCounter) +:+ ". ", S orderedCounter)
        end
      else ("", orderedCounter)
  | None => ("", 0)
  end.

(** [prefixLen] and the ordered counter after the segment, as in the loop
    that formats the ranges. *)
Definition listPrefixLen (seg : Segment) (orderedCounter : nat) : nat * nat :=
  match listType seg with
  | Some lt =>
      if negb (String.eqb (text seg) newline) then
        let indent := repeatString "  " (listIndent seg - 1) in
        match lt with
        | unordered => (String.length indent + 2, 0)
        | ordered =>
            (String.length indent
             + String.length (pretty (S orderedCounter) +:+ ". "),
             S orderedCounter)
        end
      else (0, orderedCounter)
  | None => (0, 0)
  end.

(** The loop that builds [fullText], from the values of [fullText] and
    [orderedCounter] before it. *)
Fixpoint buildFullText (segs : list Segment) (fullText : string)
    (orderedCounter : nat) : string :=
  match segs with
  | [] => fullText
  | seg :: rest =>
      let '(prefix, counter) := listPrefix seg orderedCounter in
      buildFullText rest ((fullText +:+ prefix) +:+ text seg) counter
  end.

(** The ranges [(segStart, segEnd)] of the loop that formats, from the
    values of [offset] and [orderedCounter] before it. *)
Fixpoint formatRanges (segs : list Segment) (offset orderedCounter : nat)
    : list (nat * nat) :=
  match segs with
  | [] => []
  | seg :: rest =>
      let '(prefixLen, counter) := listPrefixLen seg orderedCounter in
      let segStart := offset + prefixLen in
      let segEnd := segStart + String.length (text seg) in
      (segStart, segEnd) :: formatRanges rest segEnd counter
  end.

(** The characters set on the node for a list of render blocks; [None]
    when there is no segment and the function returns before it touches the
    node. *)
Definition nodeCharacters (textBlocks : list RenderBlock) : option string :=
  match collectAllSegments textBlocks with
  | [] => None
  | allSegments => Some (buildFullText allSegments "" 0)
  end.

(** The line that a block shows on the node: the text of a text block with
    its list prefixes, fifteen dashes for a rule, none for an image or a
    table. *)
Definition blockLine (block : RenderBlock) : option string :=
  match block with
  | TextBlock segs => Some (buildFullText segs "" 0)
  | HrBlock => Some (repeatString (String dash "") 15)
  | ImageBlock _ _ | TableBlock _ => None
  end.

(** The last block that shows a line is a rule. *)
Definition endsWithRule (blocks : list RenderBlock) : bool :=
  foldl (λ acc block,
           match block with
           | TextBlock _ => false
           | HrBlock => true
           | ImageBlock _ _ | TableBlock _ => acc
           end) false blocks.

(** The first prefix of a list of kind [lt] at indent 1. *)
Definition firstMarker (lt : ListType) : string :=
  match lt with
  | unordered => String bullet " "
  | ordered => "1. "
  end.

End FigmaText.

(** The runs of segments of text blocks, a newline segment between two
    runs. *)
Fixpoint joinRuns (runs : list (list Segment)) : list Segment :=
  match runs with
  | [] => []
  | [run] => run
  | run :: rest => run ++ unformatted newline :: joinRuns rest
  end.

(** The one segment of a list of unmarked items at top level. *)
Definition listRun (lt : ListType) (t : string) : Segment :=
  {| text := t; bold := false; italic := false; underline := false;
     code := false; headingLevel := 0; listType := Some lt;
     listIndent := 1; hyperlink := None |}.
(** * The scenarios of renderer.test.ts *)

Example test_simple_paragraph :
  documentToRenderPlan (makeDoc [paragraph [textNode "Hello world"]])
  = Some {| blocks := [TextBlock [plainSegment "Hello world"]] |}.
Proof. reflexivity. Qed.

Example test_merge_adjacent :
  documentToRenderPlan
    (makeDoc [paragraph [textNode "hello"; textNode " "; textNode "world"]])
  = Some {| blocks := [TextBlock [plainSegment "hello world"]] |}.
Proof. reflexivity. Qed.

Example test_headings :
  documentToRenderPlan
    (makeDoc [Block "heading-1" noData [textNode "Title"];
              Block "heading-3" noData [textNode "Subtitle"]])
  = Some {| blocks :=
      [TextBlock [textNodeToSegment "Title" [] (withHeading DEFAULT_CONTEXT 1)];
       TextBlock [textNodeToSegment "Subtitle" [] (withHeading DEFAULT_CONTEXT 3)]] |}.
Proof. reflexivity. Qed.

Example test_hr :
  documentToRenderPlan
    (makeDoc [paragraph [textNode "Before"]; Block "hr" noData [];
              paragraph [textNode "After"]])
  = Some {| blocks := [TextBlock [plainSegment "Before"]; HrBlock;
                       TextBlock [plainSegment "After"]] |}.
Proof. reflexivity. Qed.

Example test_unordered_list :
  documentToRenderPlan
    (makeDoc [Block "unordered-list" noData
                [Block "list-item" noData [paragraph [textNode "Item 1"]];
                 Block "list-item" noData [paragraph [textNode "Item 2"]]]])
  = Some {| blocks :=
      [TextBlock [textNodeToSegment "Item 1Item 2" []
                    (withList DEFAULT_CONTEXT unordered)]] |}.
Proof. reflexivity. Qed.

Example test_hyperlink :
  documentToRenderPlan
    (makeDoc [paragraph
                [textNode "Visit ";
                 Inline "hyperlink"
                   {| uri := Some "https://example.com"; target := None |}
                   [textNode "this link"]]])
  = Some {| blocks :=
      [TextBlock [plainSegment "Visit ";
                  linkSegment (Some "https://example.com")
                    (plainSegment "this link")]] |}.
Proof. reflexivity. Qed.

Example test_embedded_asset :
  documentToRenderPlan
    (makeDoc [Block "embedded-asset-block"
                (titledTarget "My Photo"
                   (Some (FilePlain {| url := Some "//images.ctfassets.net/photo.jpg" |}))
                   None) []])
  = Some {| blocks :=
      [ImageBlock "https://images.ctfassets.net/photo.jpg" "My Photo"] |}.
Proof. reflexivity. Qed.

Example test_embedded_entry :
  documentToRenderPlan
    (makeDoc [Block "embedded-entry-block"
                (titledTarget "My Entry" None (Some "entry-123")) []])
  = Some {| blocks := [TextBlock [embeddedEntrySegment "My Entry"]] |}.
Proof. reflexivity. Qed.

Example test_table :
  documentToRenderPlan (makeDoc [sampleTable])
  = Some {| blocks :=
      [TableBlock
         [{| cells := [[plainSegment "Name"]; [plainSegment "Age"]];
             isHeader := true |};
          {| cells := [[plainSegment "Alice"]; [plainSegment "30"]];
             isHeader := false |}]] |}.
Proof. reflexivity. Qed.

Example test_plain_paragraphs :
  richTextToPlainString
    (Some (makeDoc [paragraph [textNode "Hello"]; paragraph [textNode "World"]]))
  = Some ("Hello" +:+ newline +:+ "World").
Proof. reflexivity. Qed.

Example test_plain_hr :
  richTextToPlainString
    (Some (makeDoc [paragraph [textNode "Before"]; Block "hr" noData [];
                    paragraph [textNode "After"]]))
  = Some ("Before" +:+ newline +:+ "---" +:+ newline +:+ "After").
Proof. reflexivity. Qed.

Example test_plain_asset :
  richTextToPlainString
    (Some (makeDoc [Block "embedded-asset-block"
                      (titledTarget "Photo" None None) []]))
  = Some "[Photo]".
Proof. reflexivity. Qed.

Example test_plain_null : richTextToPlainString None = Some "".
Proof. reflexivity. Qed.

Example test_plain_marks :
  richTextToPlainString
    (Some (makeDoc [paragraph [textNode "normal "; markedText "bold" ["bold"];
                               textNode " text"]]))
  = Some "normal bold text".
Proof. reflexivity. Qed.

Example test_marks :
  documentToRenderPlan
    (makeDoc [paragraph [textNode "normal "; markedText "bold" ["bold"];
                         textNode " "; markedText "italic" ["italic"];
                         textNode " "; markedText "both" ["bold"; "italic"]]])
  = Some {| blocks :=
      [TextBlock
         [plainSegment "normal ";
          textNodeToSegment "bold" [{| type := "bold" |}] DEFAULT_CONTEXT;
          plainSegment " ";
          textNodeToSegment "italic" [{| type := "italic" |}] DEFAULT_CONTEXT;
          plainSegment " ";
          textNodeToSegment "both" [{| type := "bold" |}; {| type := "italic" |}]
            DEFAULT_CONTEXT]] |}.
Proof. reflexivity. Qed.

Example test_ordered_list :
  documentToRenderPlan
    (makeDoc [Block "ordered-list" noData
                [Block "list-item" noData [paragraph [textNode "First"]];
                 Block "list-item" noData [paragraph [textNode "Second"]]]])
  = Some {| blocks :=
      [TextBlock [textNodeToSegment "FirstSecond" []
                    (withList DEFAULT_CONTEXT ordered)]] |}.
Proof. reflexivity. Qed.

Example test_empty_document :
  documentToRenderPlan (makeDoc []) = Some {| blocks := [] |}
  ∧ richTextToPlainString (Some (makeDoc [])) = Some "".
Proof. by split. Qed.

Example test_blockquote :
  documentToRenderPlan
    (makeDoc [Block "blockquote" noData [paragraph [textNode "Quoted text"]]])
  = Some {| blocks := [TextBlock [plainSegment "Quoted text"]] |}.
Proof. reflexivity. Qed.

Example test_code_and_underline_marks :
  documentToRenderPlan
    (makeDoc [paragraph [textNode "Use "; markedText "console.log()" ["code"]];
              paragraph [markedText "underlined" ["underline"]]])
  = Some {| blocks :=
      [TextBlock
         [plainSegment "Use ";
          textNodeToSegment "console.log()" [{| type := "code" |}] DEFAULT_CONTEXT];
       TextBlock
         [textNodeToSegment "underlined" [{| type := "underline" |}]
            DEFAULT_CONTEXT]] |}.
Proof. reflexivity. Qed.

Example test_plain_entry :
  richTextToPlainString
    (Some (makeDoc [Block "embedded-entry-block"
                      (titledTarget "Article" None (Some "abc")) []]))
  = Some "[Embedded: Article]".
Proof. reflexivity. Qed.

(** * Loops and the structure of documents *)

Section ForEachPush.
Context {A B : Type} (f : A → option (list B)).

Lemma forEachPush_cons (x : A) (l : list A) :
  forEachPush f (x :: l) = xs ← f x; ys ← forEachPush f l; Some (xs ++ ys).
Proof. reflexivity. Qed.

Lemma forEachPush_cons_inv (x : A) (l : list A) (out : list B) :
  forEachPush f (x :: l) = Some out →
  ∃ xs ys, f x = Some xs ∧ forEachPush f l = Some ys ∧ out = xs ++ ys.
Proof.
  rewrite forEachPush_cons. intros H.
  destruct (f x) as [xs|]; [|discriminate].
  destruct (forEachPush f l) as [ys|]; [|discriminate].
  injection H as <-. by exists xs, ys.
Qed.

Lemma forEachPush_single (x : A) : forEachPush f [x] = f x.
Proof.
  rewrite forEachPush_cons. destruct (f x) as [xs|]; [|reflexivity].
  cbn. by rewrite app_nil_r.
Qed.

Lemma forEachPush_app (l1 l2 : list A) :
  forEachPush f (l1 ++ l2)
  = xs ← forEachPush f l1; ys ← forEachPush f l2; Some (xs ++ ys).
Proof.
  induction l1 as [|x l1 IH].
  - cbn. by destruct (forEachPush f l2).
  - rewrite <- app_comm_cons, !forEachPush_cons, IH.
    destruct (f x) as [xs|]; [|reflexivity]. cbn.
    destruct (forEachPush f l1) as [ys|]; [|reflexivity]. cbn.
    destruct (forEachPush f l2) as [zs|]; [|reflexivity]. cbn.
    by rewrite app_assoc.
Qed.

Lemma forEachPush_mapM (l : list A) :
  forEachPush f l = @concat B <$> mapM f l.
Proof.
  induction l as [|x l IH]; [reflexivity|].
  rewrite forEachPush_cons, IH. cbn.
  destruct (f x) as [xs|]; [|reflexivity]. cbn.
  by destruct (mapM f l).
Qed.

Lemma forEachPush_Forall (Q : B → Prop) (l : list A) (out : list B) :
  Forall (λ x, ∀ ys, f x = Some ys → Forall Q ys) l →
  forEachPush f l = Some out → Forall Q out.
Proof.
  intros Hl. revert out.
  induction Hl as [|x l Hx Hl IH]; intros out H.
  - injection H as <-. constructor.
  - apply forEachPush_cons_inv in H as (xs & ys & Hxs & Hys & ->).
    apply Forall_app. split; [by apply Hx | by apply IH].
Qed.

Lemma forEachPush_is_Some (l : list A) :
  is_Some (forEachPush f l) ↔ Forall (λ x, is_Some (f x)) l.
Proof.
  rewrite forEachPush_mapM, fmap_is_Some, mapM_is_Some. reflexivity.
Qed.

End ForEachPush.

Lemma forEachPush_ext {A B : Type} (f g : A → option (list B)) (l : list A) :
  Forall (λ x, f x = g x) l → forEachPush f l = forEachPush g l.
Proof.
  induction 1 as [|x l Hx Hl IH]; [reflexivity|].
  by rewrite !forEachPush_cons, Hx, IH.
Qed.

(** A loop whose body is itself a loop over [items x] is one loop over all
    the items. *)
Lemma forEachPush_nested {A B C : Type} (f : B → option (list C))
    (items : A → list B) (l : list A) :
  forEachPush (λ x, forEachPush f (items x)) l
  = forEachPush f (flat_map items l).
Proof.
  induction l as [|x l IH]; [reflexivity|].
  cbn [flat_map]. rewrite forEachPush_app, forEachPush_cons, IH. reflexivity.
Qed.

(** Induction on nodes with the property at hand for the children and for
    the children's children, as the walker recurses one or two levels down. *)
Section NodeInduction.
Variable P : Node → Prop.
Hypothesis P_Text : ∀ v m, P (Text v m).
Hypothesis P_Elem : ∀ ty d content,
  Forall P content →
  Forall (λ child, Forall P (contentOf child)) content →
  P (Elem ty d content).

Lemma Node_deep (n : Node) : P n ∧ Forall P (contentOf n).
Proof.
  revert n. fix IH 1. intros [v m | ty d content].
  - split; [apply P_Text | constructor].
  - assert (Forall (λ c, P c ∧ Forall P (contentOf c)) content) as Hall.
    { induction content as [|c l IHl]; constructor; [apply IH | apply IHl]. }
    assert (Forall P content) as Hhere.
    { eapply Forall_impl; [exact Hall | by intros c [? _]]. }
    split; [|exact Hhere].
    apply P_Elem; [exact Hhere|].
    eapply Forall_impl; [exact Hall | by intros c [_ ?]].
Qed.

Lemma Node_ind2 (n : Node) : P n.
Proof. exact (proj1 (Node_deep n)). Qed.

End NodeInduction.

(** * The segment merger *)

Section Strings.

Lemma string_app_assoc (a b c : string) : (a +:+ b) +:+ c = a +:+ (b +:+ c).
Proof.
  induction a as [|ch a IH]; [reflexivity|].
  change (String ch ((a +:+ b) +:+ c) = String ch (a +:+ (b +:+ c))).
  by rewrite IH.
Qed.

Lemma string_app_nil_r (a : string) : a +:+ "" = a.
Proof.
  induction a as [|ch a IH]; [reflexivity|].
  change (String ch (a +:+ "") = String ch a). by rewrite IH.
Qed.

Lemma join_empty_cons (s : string) (l : list string) :
  join "" (s :: l) = s +:+ join "" l.
Proof. destruct l; [by rewrite string_app_nil_r | reflexivity]. Qed.

Lemma segmentsText_allText (segs : list Segment) :
  segmentsText segs = allText segs.
Proof.
  unfold segmentsText. induction segs as [|s segs IH]; [reflexivity|].
  rewrite map_cons, join_empty_cons, IH. reflexivity.
Qed.

End Strings.

Lemma sameFormat_format (a b : Segment) :
  sameFormat a b = bool_decide (format a = format b).
Proof.
  unfold sameFormat, format.
  destruct (decide (bold a = bold b)) as [->|];
    [|rewrite (bool_decide_eq_false_2 (bold a = bold b)) by done;
      symmetry; apply bool_decide_eq_false; congruence].
  destruct (decide (italic a = italic b)) as [->|];
    [|rewrite (bool_decide_eq_false_2 (italic a = italic b)) by done;
      rewrite andb_false_r;
      symmetry; apply bool_decide_eq_false; congruence].
  destruct (decide (underline a = underline b)) as [->|];
    [|rewrite (bool_decide_eq_false_2 (underline a = underline b)) by done;
      rewrite andb_false_r;
      symmetry; apply bool_decide_eq_false; congruence].
  destruct (decide (code a = code b)) as [->|];
    [|rewrite (bool_decide_eq_false_2 (code a = code b)) by done;
      rewrite andb_false_r;
      symmetry; apply bool_decide_eq_false; congruence].
  destruct (decide (headingLevel a = headingLevel b)) as [->|];
    [|rewrite (bool_decide_eq_false_2 (headingLevel a = headingLevel b)) by done;
      rewrite andb_false_r;
      symmetry; apply bool_decide_eq_false; congruence].
  destruct (decide (listType a = listType b)) as [->|];
    [|rewrite (bool_decide_eq_false_2 (listType a = listType b)) by done;
      rewrite andb_false_r;
      symmetry; apply bool_decide_eq_false; congruence].
  destruct (decide (listIndent a = listIndent b)) as [->|];
    [|rewrite (bool_decide_eq_false_2 (listIndent a = listIndent b)) by done;
      rewrite andb_false_r;
      symmetry; apply bool_decide_eq_false; congruence].
  destruct (decide (hyperlink a = hyperlink b)) as [->|];
    [|rewrite (bool_decide_eq_false_2 (hyperlink a = hyperlink b)) by done;
      rewrite andb_false_r;
      symmetry; apply bool_decide_eq_false; congruence].
  rewrite !bool_decide_eq_true_2 by done. reflexivity.
Qed.

Lemma format_appendText (a : Segment) (t : string) :
  format (appendText a t) = format a.
Proof. reflexivity. Qed.

Lemma sameFormat_appendText_l (a b : Segment) (t : string) :
  sameFormat (appendText a t) b = sameFormat a b.
Proof. by rewrite !sameFormat_format, format_appendText. Qed.

Lemma sameFormat_true (a b : Segment) :
  sameFormat a b = true ↔ format a = format b.
Proof. rewrite sameFormat_format. apply bool_decide_eq_true. Qed.

(** The loop invariant of [mergeAdjacentSegments]: with [merged] equal to
    [done ++ [acc]], the rest of the loop leaves [done] alone and scans on
    from [acc]. *)
Lemma fold_mergeStep_scan (rest done : list Segment) (acc : Segment) :
  fold_left mergeStep rest (done ++ [acc]) = done ++ mergeScan acc rest.
Proof.
  revert done acc.
  induction rest as [|curr rest IH]; intros done acc; [reflexivity|].
  cbn [fold_left mergeScan]. unfold mergeStep at 2.
  rewrite last_snoc, removelast_last.
  destruct (sameFormat acc curr).
  - apply IH.
  - rewrite IH, <- app_assoc. reflexivity.
Qed.

Lemma merge_eq_reference (segs : list Segment) :
  mergeAdjacentSegments segs = mergeReference segs.
Proof.
  destruct segs as [|first rest]; [reflexivity|].
  exact (fold_mergeStep_scan rest [] first).
Qed.

Lemma mergeScan_length (rest : list Segment) (acc : Segment) :
  (length (mergeScan acc rest) ≤ S (length rest))%nat.
Proof.
  revert acc. induction rest as [|curr rest IH]; intros acc; cbn; [lia|].
  destruct (sameFormat acc curr); cbn.
  - specialize (IH (appendText acc (text curr))). lia.
  - specialize (IH curr). lia.
Qed.

Lemma mergeScan_allText (rest : list Segment) (acc : Segment) :
  allText (mergeScan acc rest) = text acc +:+ allText rest.
Proof.
  revert acc. induction rest as [|curr rest IH]; intros acc; cbn [mergeScan].
  - reflexivity.
  - destruct (sameFormat acc curr).
    + rewrite IH. cbn [allText foldr appendText text].
      apply string_app_assoc.
    + cbn [allText foldr]. fold (allText (mergeScan curr rest)).
      by rewrite IH.
Qed.

Lemma mergeScan_formats (rest : list Segment) (acc : Segment) :
  format <$> mergeScan acc rest = collapse (format acc :: (format <$> rest)).
Proof.
  revert acc. induction rest as [|curr rest IH]; intros acc; [reflexivity|].
  cbn [mergeScan]. rewrite sameFormat_format.
  change (collapse (format acc :: (format <$> curr :: rest)))
    with (if bool_decide (format acc = format curr)
          then collapse (format curr :: (format <$> rest))
          else format acc :: collapse (format curr :: (format <$> rest))).
  case_bool_decide as Heq.
  - rewrite IH, format_appendText, Heq. reflexivity.
  - rewrite fmap_cons, IH. reflexivity.
Qed.

Lemma mergeScan_head (rest : list Segment) (acc : Segment) :
  ∃ hd tl, mergeScan acc rest = hd :: tl ∧ format hd = format acc.
Proof.
  revert acc. induction rest as [|curr rest IH]; intros acc; cbn.
  - by exists acc, [].
  - destruct (sameFormat acc curr).
    + destruct (IH (appendText acc (text curr))) as (hd & tl & -> & Hf).
      by exists hd, tl.
    + by eexists _, _.
Qed.

Lemma mergeScan_noAdjacentSame (rest : list Segment) (acc : Segment) :
  noAdjacentSame (mergeScan acc rest).
Proof.
  revert acc. induction rest as [|curr rest IH]; intros acc; cbn [mergeScan].
  - exact I.
  - destruct (sameFormat acc curr) eqn:Hsame; [apply IH|].
    specialize (IH curr).
    destruct (mergeScan_head rest curr) as (hd & tl & Heq & Hf).
    rewrite Heq in IH |- *. cbn [noAdjacentSame]. split; [|exact IH].
    rewrite sameFormat_format, Hf, <- sameFormat_format. exact Hsame.
Qed.

Lemma mergeScan_fixed (rest : list Segment) (acc : Segment) :
  noAdjacentSame (acc :: rest) → mergeScan acc rest = acc :: rest.
Proof.
  revert acc. induction rest as [|curr rest IH]; intros acc H; [reflexivity|].
  destruct H as [Hne H]. cbn [mergeScan]. rewrite Hne, IH; done.
Qed.

(** * The walker *)

Lemma processBlock_Elem (nodeType : string) (d : Data) (content : list Node)
    (parentCtx : BlockContext) :
  processBlock (Elem nodeType d content) parentCtx
  = if String.prefix "heading-" nodeType then
      collectSegmentsWith processBlock content
        (withHeading parentCtx (headingLevelFromNodeType nodeType))
    else if String.eqb nodeType "paragraph" then
      collectSegmentsWith processBlock content parentCtx
    else if String.eqb nodeType "blockquote" then
      forEachPush (λ child, processBlock child (withBlockquote parentCtx)) content
    else if String.eqb nodeType "unordered-list"
            || String.eqb nodeType "ordered-list" then
      forEachPush (λ child,
          if String.eqb (nodeTypeOf child) "list-item" then
            forEachPush (λ listChild,
                processBlock listChild
                  (withList parentCtx
                     (if String.eqb nodeType "unordered-list"
                      then unordered else ordered)))
              (contentOf child)
          else Some []) content
    else if String.eqb nodeType "table" then
      forEachPush (λ row,
          if String.eqb (nodeTypeOf row) "table-row" then
            cellTexts ← mapM (λ cell,
                segmentsText <$> processBlock cell parentCtx) (contentOf row);
            Some [rowSegment cellTexts]
          else Some []) content
    else if String.eqb nodeType "table-cell"
            || String.eqb nodeType "table-header-cell" then
      forEachPush (λ child, processBlock child parentCtx) content
    else
      collectSegmentsWith processBlock content parentCtx.
Proof.
  cbn [processBlock].
  repeat match goal with |- (if ?b then _ else _) = _ => destruct b end;
    try reflexivity.
  all: apply forEachPush_ext, Forall_forall; intros [v m | ty d' c] _; reflexivity.
Qed.

Lemma processBlock_Text (v : string) (m : list Mark) (ctx : BlockContext) :
  processBlock (Text v m) ctx = None.
Proof. reflexivity. Qed.

Lemma allTags_Elem (A : string → bool) ty d content :
  allTags A (Elem ty d content) = true →
  A ty = true ∧ Forall (λ c, allTags A c = true) content.
Proof.
  cbn. intros [? H]%andb_true_iff. split; [done|].
  apply Forall_forall. intros c Hc. rewrite forallb_forall in H.
  by apply H, list_elem_of_In.
Qed.

Lemma allTags_contentOf (A : string → bool) (n : Node) :
  allTags A n = true → Forall (λ c, allTags A c = true) (contentOf n).
Proof.
  destruct n as [v m | ty d content]; [constructor|].
  intros H. by apply allTags_Elem in H as [_ ?].
Qed.

(** A property of segments that holds of every segment the walker makes, and
    that passes from a child context up to its parent, holds of all the
    segments of a walk.  [A] restricts the tags of the subtree, for
    properties that some arm does not pass up. *)
Section WalkerInvariant.
Variable A : string → bool.
Variable I : BlockContext → Segment → Prop.
Hypothesis I_text : ∀ v m ctx, I ctx (textNodeToSegment v m ctx).
Hypothesis I_link : ∀ u v m ctx,
  I ctx (linkSegment (Some u) (textNodeToSegment v m ctx)).
Hypothesis I_placeholder : ∀ ctx t, I ctx (entryPlaceholder ctx t).
Hypothesis I_row : ∀ ctx texts, A "table" = true → I ctx (rowSegment texts).
Hypothesis I_heading : ∀ ty ctx s,
  A ty = true → String.prefix "heading-" ty = true →
  I (withHeading ctx (headingLevelFromNodeType ty)) s → I ctx s.
Hypothesis I_blockquote : ∀ ctx s, I (withBlockquote ctx) s → I ctx s.
Hypothesis I_list : ∀ ty ctx lt s,
  A ty = true →
  String.eqb ty "unordered-list" || String.eqb ty "ordered-list" = true →
  I (withList ctx lt) s → I ctx s.

Lemma collectSegmentsFromInline_invariant ty d content ctx :
  Forall (I ctx) (collectSegmentsFromInline ty d content ctx).
Proof.
  unfold collectSegmentsFromInline. apply Forall_app. split.
  - apply Forall_flat_map, Forall_forall. intros [v m | ty' d' c'] _.
    + constructor; [|constructor].
      destruct (resolveHref ty d) as [u|]; [apply I_link | apply I_text].
    + constructor.
  - destruct (String.eqb ty "embedded-entry-inline"); repeat constructor.
    apply I_placeholder.
Qed.

Lemma collectSegmentsWith_invariant content ctx segs :
  Forall (λ c, ∀ ctx' out, processBlock c ctx' = Some out → Forall (I ctx') out)
    content →
  collectSegmentsWith processBlock content ctx = Some segs →
  Forall (I ctx) segs.
Proof.
  intros Hc. unfold collectSegmentsWith. apply forEachPush_Forall.
  eapply Forall_impl; [exact Hc|]. intros [v m | ty d c] IH ys; cbn beta iota.
  - intros [= <-]. repeat constructor. apply I_text.
  - destruct (isBlockNode ty); cbn [negb].
    + apply IH.
    + intros [= <-]. apply collectSegmentsFromInline_invariant.
Qed.

Lemma processBlock_invariant (n : Node) :
  allTags A n = true →
  ∀ ctx segs, processBlock n ctx = Some segs → Forall (I ctx) segs.
Proof.
  induction n as [v m | ty d content IH IH2] using Node_ind2;
    intros Htags ctx segs; [discriminate|].
  apply allTags_Elem in Htags as [Hty Htags].
  assert (Forall (λ c, ∀ ctx' out,
            processBlock c ctx' = Some out → Forall (I ctx') out) content) as IHc.
  { rewrite Forall_forall in IH, Htags |- *. intros c Hc. by apply IH, Htags. }
  assert (Forall (λ c, Forall (λ g, ∀ ctx' out,
            processBlock g ctx' = Some out → Forall (I ctx') out) (contentOf c))
            content) as IHg.
  { rewrite Forall_forall in IH2, Htags |- *. intros c Hc.
    specialize (IH2 c Hc). specialize (Htags c Hc).
    apply allTags_contentOf in Htags.
    rewrite Forall_forall in IH2, Htags |- *. intros g Hg.
    by apply IH2, Htags. }
  clear IH IH2 Htags.
  rewrite processBlock_Elem.
  destruct (String.prefix "heading-" ty) eqn:Hhead.
  { intros H. eapply Forall_impl.
    - eapply collectSegmentsWith_invariant; [exact IHc | exact H].
    - intros s. by apply I_heading. }
  destruct (String.eqb ty "paragraph").
  { by apply collectSegmentsWith_invariant. }
  destruct (String.eqb ty "blockquote").
  { intros H. eapply Forall_impl; [|exact (I_blockquote ctx)].
    revert H. apply forEachPush_Forall.
    eapply Forall_impl; [exact IHc|]. intros c Hc ys. apply Hc. }
  destruct (String.eqb ty "unordered-list" || String.eqb ty "ordered-list")
    eqn:Hlist.
  { set (lt := if String.eqb ty "unordered-list" then unordered else ordered).
    intros H. eapply Forall_impl; [|intros s; exact (I_list ty ctx lt s Hty Hlist)].
    revert H. apply forEachPush_Forall.
    eapply Forall_impl; [exact IHg|]. intros c Hc ys; cbn beta.
    destruct (String.eqb (nodeTypeOf c) "list-item").
    - apply forEachPush_Forall.
      eapply Forall_impl; [exact Hc|]. intros g Hg zs. apply Hg.
    - intros [= <-]. constructor. }
  destruct (String.eqb ty "table") eqn:Htable.
  { apply String.eqb_eq in Htable as ->.
    apply forEachPush_Forall, Forall_forall. intros row _ ys.
    destruct (String.eqb (nodeTypeOf row) "table-row").
    - destruct (mapM _ _) as [cellTexts|]; [|discriminate].
      intros [= <-]. repeat constructor. by apply I_row.
    - intros [= <-]. constructor. }
  destruct (String.eqb ty "table-cell" || String.eqb ty "table-header-cell").
  { apply forEachPush_Forall.
    eapply Forall_impl; [exact IHc|]. intros c Hc ys. apply Hc. }
  by apply collectSegmentsWith_invariant.
Qed.

End WalkerInvariant.

Lemma allTags_any (n : Node) : allTags (λ _, true) n = true.
Proof.
  induction n as [v m | ty d content IH _] using Node_ind2; [reflexivity|].
  cbn. apply forallb_forall. intros c Hc.
  rewrite Forall_forall in IH. by apply IH, list_elem_of_In.
Qed.

Lemma isHyperlink_cases (ty : string) :
  isHyperlink ty = true →
  ty = "hyperlink" ∨ ty = "entry-hyperlink" ∨ ty = "asset-hyperlink".
Proof.
  unfold isHyperlink.
  intros [[H|H]%orb_true_iff|H]%orb_true_iff; apply String.eqb_eq in H; auto.
Qed.

Lemma resolveHref_isHyperlink ty d u :
  resolveHref ty d = Some u → isHyperlink ty = true.
Proof. unfold resolveHref. by destruct (isHyperlink ty). Qed.

(** The hyperlink tags are not block tags, and are not the tag of an
    embedded inline entry. *)
Lemma isHyperlink_inline (ty : string) :
  isHyperlink ty = true →
  isBlockNode ty = false ∧ String.eqb ty "embedded-entry-inline" = false.
Proof. intros [->|[->| ->]]%isHyperlink_cases; by split. Qed.

Lemma linked_format (a b : Segment) : format a = format b → linked a → linked b.
Proof. unfold format, linked. intros [= _ _ -> _ _ _ _ ->]. done. Qed.

Lemma processBlock_linked (n : Node) (ctx : BlockContext) (segs : list Segment) :
  processBlock n ctx = Some segs → Forall linked segs.
Proof.
  intros H.
  refine (processBlock_invariant (λ _, true) (λ _, linked)
            _ _ _ _ _ _ _ n (allTags_any n) ctx segs H);
    unfold linked; cbn; done.
Qed.

Lemma headingTag_level (n : nat) :
  (1 ≤ n ≤ 6)%nat →
  String.prefix "heading-" (headingTag n) = true
  ∧ headingLevelFromNodeType (headingTag n) = n.
Proof.
  intros [Hlo Hhi].
  do 7 (destruct n as [|n]; [first [lia | by split]|]). lia.
Qed.

(** Outside a heading the walker leaves the heading level of the context
    alone, or sets it to zero (on the flattened rows of a table). *)
Lemma processBlock_headingFree (b : Node) (ctx : BlockContext)
    (segs : list Segment) :
  headingFree b = true → processBlock b ctx = Some segs →
  Forall (λ s, headingLevel s = ctx_headingLevel ctx ∨ headingLevel s = 0) segs.
Proof.
  intros Hfree H.
  refine (processBlock_invariant (λ ty, negb (String.prefix "heading-" ty))
            (λ c s, headingLevel s = ctx_headingLevel c ∨ headingLevel s = 0)
            _ _ _ _ _ _ _ b Hfree ctx segs H); cbn; auto.
  intros ty c s Hno Hyes. rewrite Hyes in Hno. discriminate.
Qed.

Lemma collectSegmentsWith_textLeaves walk (texts : list (string * list Mark))
    (ctx : BlockContext) :
  collectSegmentsWith walk (textLeaf <$> texts) ctx
  = Some ((λ t, textNodeToSegment t.1 t.2 ctx) <$> texts).
Proof.
  unfold collectSegmentsWith.
  induction texts as [|t texts IH]; [reflexivity|].
  rewrite fmap_cons, forEachPush_cons, IH. reflexivity.
Qed.

Lemma listItemBlocks_filter (content : list Node) :
  listItemBlocks (List.filter isListItem content) = listItemBlocks content.
Proof.
  unfold listItemBlocks.
  induction content as [|child content IH]; [reflexivity|].
  cbn [List.filter flat_map]. unfold isListItem at 1.
  destruct (String.eqb (nodeTypeOf child) "list-item") eqn:Hli; [|exact IH].
  cbn [flat_map]. by rewrite Hli, IH.
Qed.

(** The list arm walks the content blocks of the list items, all under the
    one context of the list. *)
Lemma processBlock_list (lt : ListType) (d : Data) (content : list Node)
    (c : BlockContext) :
  processBlock (Elem (listTag lt) d content) c
  = forEachPush (λ b, processBlock b (withList c lt)) (listItemBlocks content).
Proof.
  rewrite processBlock_Elem.
  assert (String.prefix "heading-" (listTag lt) = false) as -> by by destruct lt.
  assert (String.eqb (listTag lt) "paragraph" = false) as -> by by destruct lt.
  assert (String.eqb (listTag lt) "blockquote" = false) as -> by by destruct lt.
  assert (String.eqb (listTag lt) "unordered-list"
          || String.eqb (listTag lt) "ordered-list" = true) as ->
    by by destruct lt.
  assert ((if String.eqb (listTag lt) "unordered-list"
           then unordered else ordered) = lt) as -> by by destruct lt.
  unfold listItemBlocks. rewrite <- forEachPush_nested.
  apply forEachPush_ext, Forall_forall. intros child _.
  by destruct (String.eqb (nodeTypeOf child) "list-item").
Qed.

Lemma nestedContext_fields (kinds : list ListType) (c : BlockContext) :
  ctx_listIndent (nestedContext c kinds) = (ctx_listIndent c + length kinds)%nat
  ∧ ctx_listType (nestedContext c kinds)
    = match last kinds with Some lt => Some lt | None => ctx_listType c end
  ∧ ctx_headingLevel (nestedContext c kinds) = ctx_headingLevel c.
Proof.
  revert c. induction kinds as [|lt kinds IH]; intros c.
  - cbn. split; [lia | done].
  - unfold nestedContext in *. cbn [fold_left].
    destruct (IH (withList c lt)) as (Hi & Ht & Hh).
    rewrite Hi, Ht, Hh. cbn [withList ctx_listIndent ctx_listType ctx_headingLevel length].
    split; [lia|]. split; [|done].
    rewrite last_cons. by destruct (last kinds).
Qed.

Lemma processBlock_nestedList (kinds : list ListType) (body : Node)
    (c : BlockContext) :
  processBlock (nestedList kinds body) c
  = processBlock body (nestedContext c kinds).
Proof.
  revert c. induction kinds as [|lt kinds IH]; intros c; [reflexivity|].
  cbn [nestedList]. unfold Block at 1. rewrite processBlock_list.
  unfold listItemBlocks, Block. cbn [flat_map nodeTypeOf contentOf].
  change (String.eqb "list-item" "list-item") with true. cbn [app].
  rewrite forEachPush_single. apply IH.
Qed.

Lemma processBlock_paragraph (texts : list (string * list Mark))
    (c : BlockContext) :
  processBlock (paragraph (textLeaf <$> texts)) c
  = Some ((λ t, textNodeToSegment t.1 t.2 c) <$> texts).
Proof.
  unfold paragraph, Block. rewrite processBlock_Elem.
  cbn [String.prefix String.eqb Ascii.eqb Bool.eqb].
  apply collectSegmentsWith_textLeaves.
Qed.

(** Outside lists and tables the walker leaves the list fields of the
    context alone. *)
Lemma processBlock_listFree (b : Node) (ctx : BlockContext)
    (segs : list Segment) :
  allTags outsideListsAndTables b = true → processBlock b ctx = Some segs →
  Forall (λ s, listIndent s = ctx_listIndent ctx ∧ listType s = ctx_listType ctx)
    segs.
Proof.
  intros Hfree H.
  refine (processBlock_invariant outsideListsAndTables
            (λ c s, listIndent s = ctx_listIndent c ∧ listType s = ctx_listType c)
            _ _ _ _ _ _ _ b Hfree ctx segs H); cbn; auto.
  - intros _ _ [=].
  - unfold outsideListsAndTables. intros ty c lt s Hno Hyes.
    rewrite Hyes in Hno. discriminate.
Qed.

(** * Where the walker returns *)

Lemma forallb_Forall {A : Type} (f : A → bool) (l : list A) :
  forallb f l = true ↔ Forall (λ x, f x = true) l.
Proof.
  rewrite forallb_forall, Forall_forall.
  split; intros H x Hx; by apply H, list_elem_of_In.
Qed.

Lemma Forall_iff_pointwise {A : Type} (P Q : A → Prop) (l : list A) :
  Forall (λ x, P x ↔ Q x) l → Forall P l ↔ Forall Q l.
Proof.
  induction 1 as [|x l Hx Hl IH]; [done|].
  rewrite !Forall_cons. by rewrite Hx, IH.
Qed.

Lemma walkEach_returns (content : list Node) (ctx : BlockContext) :
  Forall (λ c, ∀ ctx', is_Some (processBlock c ctx') ↔ walks c = true) content →
  is_Some (forEachPush (λ child, processBlock child ctx) content)
  ↔ forallb walks content = true.
Proof.
  intros IH. rewrite forEachPush_is_Some, forallb_Forall.
  apply Forall_iff_pointwise.
  eapply Forall_impl; [exact IH|]. intros c Hc. apply Hc.
Qed.

Lemma collectSegmentsWith_returns (content : list Node) (ctx : BlockContext) :
  Forall (λ c, ∀ ctx', is_Some (processBlock c ctx') ↔ walks c = true) content →
  is_Some (collectSegmentsWith processBlock content ctx)
  ↔ collectable walks content = true.
Proof.
  intros IH. unfold collectSegmentsWith, collectable.
  rewrite forEachPush_is_Some, forallb_Forall.
  apply Forall_iff_pointwise.
  eapply Forall_impl; [exact IH|]. intros [v m | ty d c] Hc; cbn beta iota.
  - split; [done | by eexists].
  - destruct (isBlockNode ty); cbn [negb]; [apply Hc|].
    split; [done | by eexists].
Qed.

(** A loop that walks, under one context, the children of those children of
    [content] that carry the tag [tag], and adds something that cannot fail
    for each. *)
Lemma walkTagged_returns {B : Type} (tag : string)
    (body : Node → option (list B)) (content : list Node) :
  Forall (λ c, String.eqb (nodeTypeOf c) tag = true →
               is_Some (body c) ↔ forallb walks (contentOf c) = true) content →
  is_Some (forEachPush (λ child,
              if String.eqb (nodeTypeOf child) tag then body child else Some [])
            content)
  ↔ forallb (λ child,
        match child with
        | Text _ _ => true
        | Elem cty _ items =>
            if String.eqb cty tag then forallb walks items else true
        end) content = true.
Proof.
  intros IH. rewrite forEachPush_is_Some, forallb_Forall.
  apply Forall_iff_pointwise.
  eapply Forall_impl; [exact IH|]. intros [v m | cty d items] Hc.
  - cbn [nodeTypeOf] in *.
    destruct (String.eqb "text" tag) eqn:Htag.
    + rewrite (Hc eq_refl). done.
    + split; [done | by eexists].
  - cbn [nodeTypeOf contentOf] in *.
    destruct (String.eqb cty tag); [by apply Hc|].
    split; [done | by eexists].
Qed.

Theorem processBlock_returns (n : Node) (ctx : BlockContext) :
  is_Some (processBlock n ctx) ↔ walks n = true.
Proof.
  revert ctx.
  induction n as [v m | ty d content IH IH2] using Node_ind2; intros ctx.
  { cbn. split; [by intros [? ?] | discriminate]. }
  rewrite processBlock_Elem. cbn [walks].
  destruct (String.prefix "heading-" ty).
  { by apply collectSegmentsWith_returns. }
  destruct (String.eqb ty "paragraph").
  { by apply collectSegmentsWith_returns. }
  destruct (String.eqb ty "blockquote").
  { by apply walkEach_returns. }
  destruct (String.eqb ty "unordered-list" || String.eqb ty "ordered-list").
  { apply (walkTagged_returns "list-item").
    eapply Forall_impl; [exact IH2|]. intros c Hc _.
    by apply walkEach_returns. }
  destruct (String.eqb ty "table").
  { apply (walkTagged_returns "table-row"
             (λ row, cellTexts ← mapM (λ cell,
                         segmentsText <$> processBlock cell ctx) (contentOf row);
                     Some [rowSegment cellTexts])).
    eapply Forall_impl; [exact IH2|]. intros row Hrow _.
    rewrite forallb_Forall.
    transitivity (is_Some (mapM (λ cell, segmentsText <$> processBlock cell ctx)
                             (contentOf row))).
    { destruct (mapM _ _) as [cellTexts|]; cbn.
      - split; intros _; by eexists.
      - split; intros [? [=]]. }
    rewrite mapM_is_Some. apply Forall_iff_pointwise.
    eapply Forall_impl; [exact Hrow|]. intros cell Hcell. cbn.
    rewrite fmap_is_Some. apply Hcell. }
  destruct (String.eqb ty "table-cell" || String.eqb ty "table-header-cell").
  { by apply walkEach_returns. }
  by apply collectSegmentsWith_returns.
Qed.

(** * The table extractor *)

Lemma cells_loop (l : list Node) (cs0 : list (list Segment)) (h0 : bool) :
  forEachState cellStep l (cs0, h0)
  = cs ← mapM tableCell l; Some (cs0 ++ cs, h0 || existsb isHeaderCell l).
Proof.
  revert cs0 h0. induction l as [|cell l IH]; intros cs0 h0.
  - cbn. by rewrite app_nil_r, orb_false_r.
  - cbn [forEachState]. destruct cell as [v m | ty d cc]; [reflexivity|].
    unfold isHeaderCell at 1.
    cbn [cellStep mapM tableCell existsb nodeTypeOf].
    destruct (forEachPush _ cc) as [segs|]; [|reflexivity].
    cbn [mbind option_bind]. rewrite IH.
    destruct (mapM tableCell l) as [cs|]; [|reflexivity].
    cbn. rewrite <- app_assoc. cbn.
    by destruct (String.eqb ty "table-header-cell"), h0.
Qed.

Lemma tableRows_cons (row : Node) (content : list Node) :
  tableRows (row :: content)
  = if isTableRow row
    then r ← tableRow row; rs ← tableRows content; Some (r :: rs)
    else tableRows content.
Proof.
  unfold tableRows. cbn [List.filter]. by destruct (isTableRow row).
Qed.

Lemma rows_loop (content : list Node) (rows0 : list TableRow) :
  forEachState rowStep content rows0
  = rs ← tableRows content; Some (rows0 ++ rs).
Proof.
  revert rows0. induction content as [|row content IH]; intros rows0.
  - cbn. by rewrite app_nil_r.
  - cbn [forEachState]. rewrite tableRows_cons.
    destruct row as [v m | ty d rc]; [apply IH|].
    unfold isTableRow. cbn [rowStep nodeTypeOf].
    destruct (String.eqb ty "table-row"); cbn [negb]; [|apply IH].
    rewrite cells_loop. unfold tableRow. cbn [contentOf].
    destruct (mapM tableCell rc) as [cs|]; [|reflexivity].
    cbn. rewrite IH.
    destruct (tableRows content) as [rs|]; [|reflexivity].
    cbn. by rewrite <- app_assoc.
Qed.

Lemma processTableToRows_spec ty d (content : list Node) :
  processTableToRows (Elem ty d content) = tableRows content.
Proof.
  cbn [processTableToRows]. rewrite rows_loop.
  by destruct (tableRows content).
Qed.

(** * Where the entry points return *)

Lemma tableCell_returns (cell : Node) :
  is_Some (tableCell cell) ↔ cellWalks cell = true.
Proof.
  destruct cell as [v m | ty d cc]; cbn [tableCell cellWalks].
  - split; [by intros [? ?] | discriminate].
  - rewrite <- (walkEach_returns cc DEFAULT_CONTEXT).
    + destruct (forEachPush _ cc); cbn.
      * split; intros _; by eexists.
      * split; intros [? [=]].
    + apply Forall_forall. intros c _ ctx. apply processBlock_returns.
Qed.

Lemma tableRow_returns (row : Node) :
  is_Some (tableRow row) ↔ forallb cellWalks (contentOf row) = true.
Proof.
  unfold tableRow. rewrite forallb_Forall.
  transitivity (is_Some (mapM tableCell (contentOf row))).
  { destruct (mapM _ _); cbn.
    - split; intros _; by eexists.
    - split; intros [? [=]]. }
  rewrite mapM_is_Some. apply Forall_iff_pointwise, Forall_forall.
  intros cell _. apply tableCell_returns.
Qed.

Lemma tableRows_returns (content : list Node) :
  is_Some (tableRows content)
  ↔ forallb (λ row,
        if isTableRow row then forallb cellWalks (contentOf row) else true)
      content = true.
Proof.
  induction content as [|row content IH]; [by split; [|eexists]|].
  rewrite tableRows_cons. cbn [forallb].
  destruct (isTableRow row); [|exact IH].
  rewrite andb_true_iff, <- IH, <- tableRow_returns.
  destruct (tableRow row) as [r|]; cbn.
  - destruct (tableRows content) as [rs|]; cbn.
    + split; [intros _; split; by eexists | intros _; by eexists].
    + split; [intros [? [=]] | intros [_ [? [=]]]].
  - split; [intros [? [=]] | intros [[? [=]] _]].
Qed.

Lemma renderTopBlock_returns (b : Node) :
  is_Some (renderTopBlock b) ↔ renders b = true.
Proof.
  unfold renderTopBlock, renders.
  destruct (String.eqb (nodeTypeOf b) "table") eqn:Htable.
  { destruct b as [v m | ty d content]; [discriminate|].
    rewrite processTableToRows_spec. cbn [contentOf].
    rewrite <- tableRows_returns.
    destruct (tableRows content); cbn.
    - split; intros _; by eexists.
    - split; intros [? [=]]. }
  destruct (String.eqb (nodeTypeOf b) "embedded-asset-block").
  { destruct (assetUrl _); split; try done; intros _; by eexists. }
  destruct (String.eqb (nodeTypeOf b) "embedded-entry-block").
  { split; [done | intros _; by eexists]. }
  destruct (String.eqb (nodeTypeOf b) "hr").
  { split; [done | intros _; by eexists]. }
  rewrite <- (processBlock_returns b DEFAULT_CONTEXT).
  destruct (processBlock b DEFAULT_CONTEXT); cbn.
  - split; intros _; by eexists.
  - split; intros [? [=]].
Qed.

Lemma plainLines_returns (b : Node) :
  is_Some (plainLines b) ↔ flattens b = true.
Proof.
  unfold plainLines, flattens.
  destruct (String.eqb (nodeTypeOf b) "hr").
  { split; [done | intros _; by eexists]. }
  destruct (String.eqb (nodeTypeOf b) "embedded-asset-block").
  { split; [done | intros _; by eexists]. }
  destruct (String.eqb (nodeTypeOf b) "embedded-entry-block").
  { split; [done | intros _; by eexists]. }
  rewrite <- (processBlock_returns b DEFAULT_CONTEXT).
  destruct (processBlock b DEFAULT_CONTEXT); cbn.
  - split; intros _; by eexists.
  - split; intros [? [=]].
Qed.

(** [documentToRenderPlan] returns a plan exactly on the documents all of
    whose top-level blocks render. *)
Theorem documentToRenderPlan_returns (doc : RichTextDocument) :
  is_Some (documentToRenderPlan doc) ↔ forallb renders (doc_content doc) = true.
Proof.
  unfold documentToRenderPlan. rewrite forallb_Forall.
  transitivity (is_Some (forEachPush renderTopBlock (doc_content doc))).
  { destruct (forEachPush _ _); cbn.
    - split; intros _; by eexists.
    - split; intros [? [=]]. }
  rewrite forEachPush_is_Some. apply Forall_iff_pointwise, Forall_forall.
  intros b _. apply renderTopBlock_returns.
Qed.

(** [richTextToPlainString] returns a string exactly on the documents all of
    whose top-level blocks flatten. *)
Theorem richTextToPlainString_returns (doc : RichTextDocument) :
  is_Some (richTextToPlainString (Some doc))
  ↔ forallb flattens (doc_content doc) = true.
Proof.
  unfold richTextToPlainString. rewrite forallb_Forall.
  transitivity (is_Some (forEachPush plainLines (doc_content doc))).
  { destruct (forEachPush _ _); cbn.
    - split; intros _; by eexists.
    - split; intros [? [=]]. }
  rewrite forEachPush_is_Some. apply Forall_iff_pointwise, Forall_forall.
  intros b _. apply plainLines_returns.
Qed.

(** * The assemblers *)

(** A property of the formatting alone survives the merge. *)
Section MergeInvariant.
Variable P : Segment → Prop.
Hypothesis P_format : ∀ a b, format a = format b → P a → P b.

Lemma mergeScan_Forall (rest : list Segment) (acc : Segment) :
  P acc → Forall P rest → Forall P (mergeScan acc rest).
Proof.
  revert acc. induction rest as [|curr rest IH]; intros acc Hacc Hrest; cbn.
  - by constructor.
  - apply Forall_cons in Hrest as [Hcurr Hrest].
    destruct (sameFormat acc curr).
    + apply IH; [|done]. by apply (P_format acc).
    + constructor; [done|]. by apply IH.
Qed.

Lemma merge_Forall (segs : list Segment) :
  Forall P segs → Forall P (mergeAdjacentSegments segs).
Proof.
  rewrite merge_eq_reference. destruct segs as [|first rest]; [done|].
  intros [? ?]%Forall_cons. by apply mergeScan_Forall.
Qed.

End MergeInvariant.

(** A property of the formatting that holds of every segment of a walk from
    the root context holds of every segment of the plan. *)
Section PlanInvariant.
Variable A : string → bool.
Variable P : Segment → Prop.
Hypothesis P_format : ∀ a b, format a = format b → P a → P b.
Hypothesis P_walk : ∀ n segs,
  allTags A n = true → processBlock n DEFAULT_CONTEXT = Some segs →
  Forall P segs.
Hypothesis P_entry : ∀ t, P (embeddedEntrySegment t).

Lemma walkEach_invariant (content : list Node) (segs : list Segment) :
  Forall (λ c, allTags A c = true) content →
  forEachPush (λ child, processBlock child DEFAULT_CONTEXT) content = Some segs →
  Forall P segs.
Proof.
  intros Hc. apply forEachPush_Forall.
  eapply Forall_impl; [exact Hc|]. intros c Htag ys. by apply P_walk.
Qed.

Lemma tableCell_invariant (cell : Node) (segs : list Segment) :
  allTags A cell = true → tableCell cell = Some segs → Forall P segs.
Proof.
  destruct cell as [v m | ty d cc]; [discriminate|].
  intros [_ Hcc]%allTags_Elem. cbn [tableCell].
  destruct (forEachPush _ cc) as [raw|] eqn:Hraw; [|discriminate].
  intros [= <-]. apply merge_Forall; [exact P_format|].
  by eapply walkEach_invariant.
Qed.

Lemma tableRow_invariant (row : Node) (r : TableRow) :
  allTags A row = true → tableRow row = Some r →
  Forall (Forall P) (cells r).
Proof.
  intros Hrow%allTags_contentOf. unfold tableRow.
  destruct (mapM tableCell (contentOf row)) as [cs|] eqn:Hcs; [|discriminate].
  intros [= <-]. cbn [cells].
  apply mapM_Some_1 in Hcs.
  eapply Forall2_Forall_r; [exact Hcs|].
  eapply Forall_impl; [exact Hrow|]. intros cell Hcell segs.
  by apply tableCell_invariant.
Qed.

Lemma tableRows_invariant (content : list Node) (rows : list TableRow) :
  Forall (λ c, allTags A c = true) content →
  tableRows content = Some rows →
  Forall (λ r, Forall (Forall P) (cells r)) rows.
Proof.
  intros Hc Hrows. apply mapM_Some_1 in Hrows.
  eapply Forall2_Forall_r; [exact Hrows|].
  apply Forall_forall. intros row Hin%list_elem_of_In%filter_In r.
  apply tableRow_invariant.
  rewrite Forall_forall in Hc. by apply Hc, list_elem_of_In, Hin.
Qed.

Lemma renderTopBlock_invariant (b : Node) (out : list RenderBlock) :
  allTags A b = true → renderTopBlock b = Some out →
  Forall (λ rb, Forall P (planSegments rb)) out.
Proof.
  intros Hb. unfold renderTopBlock.
  destruct (String.eqb (nodeTypeOf b) "table").
  { destruct b as [v m | ty d content]; [discriminate|].
    rewrite processTableToRows_spec.
    destruct (tableRows content) as [rows|] eqn:Hrows; [|discriminate].
    intros [= <-]. destruct (0 <? length rows)%nat; repeat constructor.
    cbn [planSegments]. apply Forall_concat, Forall_concat.
    apply Forall_fmap. apply allTags_Elem in Hb as [_ Hb].
    by apply (tableRows_invariant content). }
  destruct (String.eqb (nodeTypeOf b) "embedded-asset-block").
  { destruct (assetUrl _); intros [= <-]; repeat constructor. }
  destruct (String.eqb (nodeTypeOf b) "embedded-entry-block").
  { intros [= <-]. repeat constructor. apply P_entry. }
  destruct (String.eqb (nodeTypeOf b) "hr").
  { intros [= <-]. repeat constructor. }
  destruct (processBlock b DEFAULT_CONTEXT) as [segs|] eqn:Hsegs; [|discriminate].
  intros [= <-]. destruct (0 <? length segs)%nat; repeat constructor.
  cbn [planSegments]. apply merge_Forall; [exact P_format|].
  by apply (P_walk b).
Qed.

End PlanInvariant.

(** The plan of a document is the plans of its top-level blocks, one after
    the other. *)
Lemma documentToRenderPlan_split pre b post plan :
  documentToRenderPlan (makeDoc (pre ++ b :: post)) = Some plan →
  ∃ before out after,
    documentToRenderPlan (makeDoc pre) = Some before
    ∧ renderTopBlock b = Some out
    ∧ documentToRenderPlan (makeDoc post) = Some after
    ∧ blocks plan = blocks before ++ out ++ blocks after.
Proof.
  unfold documentToRenderPlan, makeDoc. cbn [doc_content].
  rewrite forEachPush_app, forEachPush_cons.
  destruct (forEachPush renderTopBlock pre) as [bs1|]; [|discriminate].
  destruct (renderTopBlock b) as [out|]; [|discriminate].
  destruct (forEachPush renderTopBlock post) as [bs2|]; [|discriminate].
  intros [= <-]. by eexists _, _, _.
Qed.

Lemma documentToRenderPlan_single b :
  documentToRenderPlan (makeDoc [b])
  = out ← renderTopBlock b; Some {| blocks := out |}.
Proof.
  unfold documentToRenderPlan, makeDoc. cbn [doc_content].
  by rewrite forEachPush_single.
Qed.

Lemma documentToRenderPlan_Forall (Q : RenderBlock → Prop) doc plan :
  Forall (λ b, ∀ out, renderTopBlock b = Some out → Forall Q out)
    (doc_content doc) →
  documentToRenderPlan doc = Some plan → Forall Q (blocks plan).
Proof.
  intros Hall. unfold documentToRenderPlan.
  destruct (forEachPush renderTopBlock (doc_content doc)) as [bs|] eqn:Hbs;
    [|discriminate].
  intros [= <-]. cbn [blocks]. by eapply forEachPush_Forall.
Qed.

(** * A child among its siblings *)

(** Every arm of the walker loops over the children without state: the walk
    of a block is the walk of the children before a child, of that child,
    and of the children after it, each in the same block and context. *)
Lemma processBlock_around (ty : string) (d : Data) (l r : list Node)
    (h : Node) (c : BlockContext) :
  processBlock (Elem ty d (l ++ h :: r)) c
  = (xs ← processBlock (Elem ty d l) c;
     hs ← processBlock (Elem ty d [h]) c;
     ys ← processBlock (Elem ty d r) c;
     Some (xs ++ hs ++ ys)).
Proof.
  change (l ++ h :: r) with (l ++ [h] ++ r).
  rewrite !processBlock_Elem. unfold collectSegmentsWith.
  repeat match goal with
         | |- context [if ?x then _ else _] => destruct x
         end;
    rewrite !forEachPush_app;
    (destruct (forEachPush _ l); [|reflexivity]); cbn [mbind option_bind];
    (destruct (forEachPush _ [h]); [|reflexivity]); cbn [mbind option_bind];
    by destruct (forEachPush _ r).
Qed.

Lemma collects_processBlock (ty : string) (d : Data) (content : list Node)
    (c : BlockContext) :
  collects ty = true →
  processBlock (Elem ty d content) c
  = collectSegmentsFromBlock (Elem ty d content) (collectContext ty c).
Proof.
  unfold collects, collectContext. rewrite processBlock_Elem.
  cbn [collectSegmentsFromBlock].
  destruct (String.prefix "heading-" ty); [done|].
  destruct (String.eqb ty "paragraph"); [done|].
  destruct (String.eqb ty "blockquote"); [done|].
  destruct (String.eqb ty "unordered-list"); [done|].
  destruct (String.eqb ty "ordered-list"); [done|].
  destruct (String.eqb ty "table"); [done|].
  destruct (String.eqb ty "table-cell"); [done|].
  by destruct (String.eqb ty "table-header-cell").
Qed.

Lemma walksChildren_processBlock (ty : string) (d : Data)
    (content : list Node) (c : BlockContext) :
  walksChildren ty = true →
  processBlock (Elem ty d content) c
  = forEachPush (λ child,
        processBlock child
          (if String.eqb ty "blockquote" then withBlockquote c else c))
      content.
Proof.
  unfold walksChildren. rewrite processBlock_Elem.
  destruct (String.eqb_spec ty "blockquote") as [->|_]; [done|].
  destruct (String.eqb_spec ty "table-cell") as [->|_]; [done|].
  destruct (String.eqb_spec ty "table-header-cell") as [->|_]; done.
Qed.

(** A hyperlink node walked as a block is taken by the fallback. *)
Lemma isHyperlink_collects (ty : string) :
  isHyperlink ty = true →
  collects ty = true ∧ String.prefix "heading-" ty = false.
Proof. intros [->|[->| ->]]%isHyperlink_cases; by split. Qed.

Lemma processBlock_hyperlink (ty : string) (d : Data) (content : list Node)
    (c : BlockContext) :
  isHyperlink ty = true →
  processBlock (Elem ty d content) c
  = collectSegmentsFromBlock (Elem ty d content) c.
Proof.
  intros [Hc Hh]%isHyperlink_collects.
  rewrite (collects_processBlock _ _ _ _ Hc). unfold collectContext.
  by rewrite Hh.
Qed.

Lemma processBlock_hyperlink_texts (ty : string) (d : Data)
    (texts : list (string * list Mark)) (c : BlockContext) :
  isHyperlink ty = true →
  processBlock (Elem ty d (textLeaf <$> texts)) c
  = Some (leafSegment c <$> texts).
Proof.
  intros Hty. rewrite (processBlock_hyperlink _ _ _ _ Hty).
  apply collectSegmentsWith_textLeaves.
Qed.

Lemma leafSegment_blockquote (c : BlockContext) (t : string * list Mark) :
  leafSegment (withBlockquote c) t = leafSegment c t.
Proof. reflexivity. Qed.

(** ** Heading levels *)

Lemma headingLevels_child (ty : string) (d : Data) (content : list Node)
    (child : Node) :
  child ∈ content → headingLevels child ⊆ headingLevels (Elem ty d content).
Proof.
  intros Hchild k Hk. cbn [headingLevels]. apply elem_of_app. right.
  apply list_elem_of_In, in_flat_map. exists child.
  split; by apply list_elem_of_In.
Qed.

Lemma headingsWithin_allTags (levels : list nat) (n : Node) :
  headingLevels n ⊆ levels → allTags (headingsWithin levels) n = true.
Proof.
  induction n as [v m | ty d content IH _] using Node_ind2; [reflexivity|].
  intros Hsub. cbn [allTags]. apply andb_true_iff. split.
  - unfold headingsWithin.
    destruct (String.prefix "heading-" ty) eqn:Hprefix; [|reflexivity].
    cbn [negb orb]. apply bool_decide_eq_true, Hsub.
    cbn [headingLevels]. rewrite Hprefix. apply elem_of_app. left.
    apply list_elem_of_here.
  - apply forallb_forall. intros child Hin%list_elem_of_In.
    rewrite Forall_forall in IH. apply (IH child Hin).
    intros k Hk. by apply Hsub, (headingLevels_child ty d content child).
Qed.

Lemma processBlock_headingsWithin (levels : list nat) (n : Node)
    (c : BlockContext) (segs : list Segment) :
  allTags (headingsWithin levels) n = true →
  processBlock n c = Some segs →
  Forall (λ s, headingLevel s = ctx_headingLevel c ∨ headingLevel s = 0
               ∨ headingLevel s ∈ levels) segs.
Proof.
  intros Htags H.
  refine (processBlock_invariant (headingsWithin levels)
            (λ c s, headingLevel s = ctx_headingLevel c ∨ headingLevel s = 0
                    ∨ headingLevel s ∈ levels)
            _ _ _ _ _ _ _ n Htags c segs H); cbn; auto.
  intros ty ctx s Hty Hprefix. unfold headingsWithin in Hty.
  rewrite Hprefix in Hty. cbn [negb orb] in Hty.
  apply bool_decide_eq_true in Hty.
  intros [->|[?|?]]; auto.
Qed.

Lemma processBlock_headingLevels (n : Node) (c : BlockContext)
    (segs : list Segment) :
  processBlock n c = Some segs →
  Forall (λ s, headingLevel s = ctx_headingLevel c ∨ headingLevel s = 0
               ∨ headingLevel s ∈ headingLevels n) segs.
Proof.
  apply processBlock_headingsWithin, headingsWithin_allTags. done.
Qed.

Lemma renderTopBlock_headingLevels (b : Node) (out : list RenderBlock) :
  renderTopBlock b = Some out →
  Forall (λ rb,
      Forall (λ s, headingLevel s = 0 ∨ headingLevel s ∈ headingLevels b)
        (planSegments rb)) out.
Proof.
  intros H.
  refine (renderTopBlock_invariant (headingsWithin (headingLevels b))
            (λ s, headingLevel s = 0 ∨ headingLevel s ∈ headingLevels b)
            _ _ _ b out (headingsWithin_allTags _ b _) H).
  - unfold format. intros x y [= _ _ _ _ Heq _ _ _]. by rewrite <- Heq.
  - intros m segs Hm Hsegs.
    eapply Forall_impl; [exact (processBlock_headingsWithin _ _ _ _ Hm Hsegs)|].
    cbn. intros s [?|[?|?]]; auto.
  - intros t. by left.
  - done.
Qed.

Lemma headingFree_levels (n : Node) :
  headingFree n = true → headingLevels n = [].
Proof.
  unfold headingFree.
  induction n as [v m | ty d content IH _] using Node_ind2; [reflexivity|].
  intros [Hty Hcontent]%allTags_Elem. cbn [headingLevels].
  apply negb_true_iff in Hty. rewrite Hty. cbn [app].
  assert (Forall (λ child, headingLevels child = []) content) as Hnone.
  { rewrite Forall_forall in IH, Hcontent |- *.
    intros child Hin. by apply IH, Hcontent. }
  clear IH Hcontent. induction Hnone as [|child content Hchild _ IHc];
    [reflexivity|].
  cbn [flat_map]. by rewrite Hchild, IHc.
Qed.

(** ** List fields *)

(** Outside lists the walker leaves the list fields of the context alone,
    but for the flattened rows of a table. *)
Lemma processBlock_listFree_rows (b : Node) (ctx : BlockContext)
    (segs : list Segment) :
  allTags outsideLists b = true → processBlock b ctx = Some segs →
  Forall (λ s, (listIndent s = ctx_listIndent ctx
                ∧ listType s = ctx_listType ctx)
               ∨ ∃ cellTexts, s = rowSegment cellTexts) segs.
Proof.
  intros Hfree H.
  refine (processBlock_invariant outsideLists
            (λ c s, (listIndent s = ctx_listIndent c
                     ∧ listType s = ctx_listType c)
                    ∨ ∃ cellTexts, s = rowSegment cellTexts)
            _ _ _ _ _ _ _ b Hfree ctx segs H); cbn; auto.
  - intros c cellTexts _. right. by exists cellTexts.
  - unfold outsideLists. intros ty c lt s Hno Hyes.
    rewrite Hyes in Hno. discriminate.
Qed.

(** No walk lowers the list indent of its context, but for the flattened
    rows of a table. *)
Lemma processBlock_indent_least (b : Node) (ctx : BlockContext)
    (segs : list Segment) :
  processBlock b ctx = Some segs →
  Forall (λ s, (ctx_listIndent ctx ≤ listIndent s)%nat
               ∨ ∃ cellTexts, s = rowSegment cellTexts) segs.
Proof.
  intros H.
  refine (processBlock_invariant (λ _, true)
            (λ c s, (ctx_listIndent c ≤ listIndent s)%nat
                    ∨ ∃ cellTexts, s = rowSegment cellTexts)
            _ _ _ _ _ _ _ b (allTags_any b) ctx segs H); cbn; auto.
  - intros c cellTexts _. right. by exists cellTexts.
  - intros ty c lt s _ _ [Hle|Hrow]; [left; lia | by right].
Qed.

(** * The claims *)

(** C1, at the inputs where the code departs from it.  The walker has no arm
    for a Text leaf and its fallback iterates the leaf's missing content: a
    Text leaf walked as a block throws, and so do both entry points on a
    document whose blockquote, list item or table cell holds a Text leaf. *)
Theorem text_leaf_as_block_throws
    (v : string) (m : list Mark) (ctx : BlockContext) :
  processBlock (Text v m) ctx = None
  ∧ collectSegmentsFromBlock (Text v m) ctx = None
  ∧ documentToRenderPlan (makeDoc [Block "blockquote" noData [Text v m]]) = None
  ∧ richTextToPlainString
      (Some (makeDoc [Block "blockquote" noData [Text v m]])) = None
  ∧ documentToRenderPlan
      (makeDoc [Block "unordered-list" noData
                  [Block "list-item" noData [Text v m]]]) = None
  ∧ documentToRenderPlan
      (makeDoc [Block "table" noData
                  [Block "table-row" noData
                     [Block "table-cell" noData [Text v m]]]]) = None
  ∧ documentToRenderPlan (makeDoc [quoteOfText]) = None
  ∧ richTextToPlainString (Some (makeDoc [quoteOfText])) = None.
Proof. by repeat split. Qed.

(** C2, at the input where the code departs from it.  The line of a
    top-level embedded-asset-block is the resolved title in brackets; with no
    title the code takes the bracketed fallback and brackets it again, so the
    line is [[image]] in double brackets and not in single ones. *)
Theorem plain_asset_line (d : Data) (content : list Node) :
  plainLines (Block "embedded-asset-block" d content)
    = Some ["[" +:+ default "[image]" (truthy (localizedTitle (target d))) +:+ "]"]
  ∧ richTextToPlainString (Some (makeDoc [untitledAsset])) = Some "[[image]]"
  ∧ richTextToPlainString (Some (makeDoc [untitledAsset])) ≠ Some "[image]".
Proof. by repeat split. Qed.

(** C3, as the code has it.  In the plan of every document, every segment
    of a text block and of a table cell that carries a hyperlink is
    underlined.  When an inline hyperlink node resolves to a URL [u], the
    resolver emits exactly one segment per Text child, in order, each with
    [hyperlink = u] and [underline = true] whatever the marks of the leaf.
    The walker hands the node to the resolver wherever it is a child of a
    block whose content it collects (a heading, a paragraph, a block that
    the fallback takes), whatever its siblings.  Where the node is walked as
    a block (a child of a blockquote, of a cell, of a list item of a list,
    or a top-level block) the fallback takes it for an unknown block: its
    Text children give the segments of plain Text leaves, with no
    hyperlink.  A table walked as a block keeps the texts of its cells only:
    its row segments carry no hyperlink. *)
Theorem hyperlink_forces_underline
    (doc : RichTextDocument) (plan : RenderPlan)
    (ty : string) (d : Data) (content : list Node) (ctx : BlockContext)
    (u : string)
    (Hplan : documentToRenderPlan doc = Some plan)
    (Hhref : resolveHref ty d = Some u) :
  Forall (λ b, Forall linked (planSegments b)) (blocks plan)
  ∧ collectSegmentsFromInline ty d content ctx
    = flat_map (λ child,
          match child with
          | Text v m =>
              [{| text := v; bold := hasMarks m "bold";
                  italic := hasMarks m "italic"; underline := true;
                  code := hasMarks m "code";
                  headingLevel := ctx_headingLevel ctx;
                  listType := ctx_listType ctx;
                  listIndent := ctx_listIndent ctx;
                  hyperlink := Some u |}]
          | Elem _ _ _ => []
          end) content
  ∧ Forall (λ s, hyperlink s = Some u ∧ underline s = true)
      (collectSegmentsFromInline ty d content ctx)
  ∧ collectSegmentsFromBlock (paragraph [Inline ty d content]) ctx
    = Some (collectSegmentsFromInline ty d content ctx)
  ∧ (∀ pty pd pre post,
       collects pty = true →
       processBlock (Block pty pd (pre ++ Inline ty d content :: post)) ctx
       = (xs ← processBlock (Block pty pd pre) ctx;
          ys ← processBlock (Block pty pd post) ctx;
          Some (xs
                ++ collectSegmentsFromInline ty d content
                     (collectContext pty ctx)
                ++ ys)))
  ∧ (∀ texts,
       processBlock (Inline ty d (textLeaf <$> texts)) ctx
       = Some (leafSegment ctx <$> texts)
       ∧ Forall (λ s, hyperlink s = None) (leafSegment ctx <$> texts))
  ∧ (∀ pty pd pre post texts,
       walksChildren pty = true →
       processBlock
         (Block pty pd (pre ++ Inline ty d (textLeaf <$> texts) :: post)) ctx
       = (xs ← processBlock (Block pty pd pre) ctx;
          ys ← processBlock (Block pty pd post) ctx;
          Some (xs ++ (leafSegment ctx <$> texts) ++ ys)))
  ∧ (∀ lt pd pd' pre post texts,
       processBlock
         (Block (listTag lt) pd
            [Block "list-item" pd'
               (pre ++ Inline ty d (textLeaf <$> texts) :: post)]) ctx
       = (xs ← forEachPush (λ b, processBlock b (withList ctx lt)) pre;
          ys ← forEachPush (λ b, processBlock b (withList ctx lt)) post;
          Some (xs ++ (leafSegment (withList ctx lt) <$> texts) ++ ys)))
  ∧ (∀ texts,
       renderTopBlock (Inline ty d (textLeaf <$> texts))
       = Some match texts with
              | [] => []
              | _ :: _ =>
                  [TextBlock
                     (mergeAdjacentSegments
                        (leafSegment DEFAULT_CONTEXT <$> texts))]
              end)
  ∧ (∀ tty pd rd cty cd texts,
       processTableToRows
         (Block tty pd
            [Block "table-row" rd
               [Block cty cd [Inline ty d (textLeaf <$> texts)]]])
       = Some [{| cells :=
                    [mergeAdjacentSegments
                       (leafSegment DEFAULT_CONTEXT <$> texts)];
                  isHeader := String.eqb cty "table-header-cell" |}])
  ∧ (∀ pd rows segs,
       processBlock (Block "table" pd rows) ctx = Some segs →
       Forall (λ s, hyperlink s = None ∧ underline s = false) segs).
Proof.
  pose proof (resolveHref_isHyperlink _ _ _ Hhref) as Hty.
  pose proof Hty as [Hblock Hentry]%isHyperlink_inline.
  assert (collectSegmentsFromInline ty d content ctx
          = flat_map (λ child,
                match child with
                | Text v m => [linkSegment (Some u) (textNodeToSegment v m ctx)]
                | Elem _ _ _ => []
                end) content) as Heq.
  { unfold collectSegmentsFromInline. rewrite Hhref, Hentry. apply app_nil_r. }
  split; [|split; [exact Heq|split; [|split; [|split; [|split; [|split;
    [|split; [|split; [|split]]]]]]]]].
  - eapply documentToRenderPlan_Forall; [|exact Hplan].
    apply Forall_forall. intros b _ out.
    apply (renderTopBlock_invariant (λ _, true) linked).
    + exact linked_format.
    + intros n segs _. apply processBlock_linked.
    + intros t. by intros ?.
    + apply allTags_any.
  - rewrite Heq. apply Forall_flat_map, Forall_forall.
    intros [v m | ty' d' c'] _; by repeat constructor.
  - unfold paragraph, Block, Inline. cbn [collectSegmentsFromBlock].
    unfold collectSegmentsWith. rewrite forEachPush_single, Hblock. reflexivity.
  - intros pty pd pre post Hpty. unfold Block, Inline.
    rewrite processBlock_around.
    rewrite (collects_processBlock pty pd [_] ctx Hpty).
    cbn [collectSegmentsFromBlock]. unfold collectSegmentsWith.
    rewrite forEachPush_single, Hblock. reflexivity.
  - intros texts. unfold Inline.
    rewrite (processBlock_hyperlink_texts ty d texts ctx Hty).
    split; [reflexivity|]. apply Forall_fmap, Forall_forall. by intros t _.
  - intros pty pd pre post texts Hpty. unfold Block, Inline.
    rewrite processBlock_around.
    rewrite (walksChildren_processBlock pty pd [_] ctx Hpty).
    rewrite forEachPush_single, (processBlock_hyperlink_texts ty d texts _ Hty).
    by destruct (String.eqb pty "blockquote").
  - intros lt pd pd' pre post texts. unfold Block, Inline.
    rewrite processBlock_list. unfold listItemBlocks.
    cbn [flat_map nodeTypeOf contentOf].
    change (String.eqb "list-item" "list-item") with true. cbn iota.
    rewrite app_nil_r, forEachPush_app, forEachPush_cons.
    rewrite (processBlock_hyperlink_texts ty d texts _ Hty).
    destruct (forEachPush _ pre) as [xs|]; [|reflexivity].
    cbn [mbind option_bind].
    by destruct (forEachPush _ post).
  - intros texts. unfold renderTopBlock, Inline. cbn [nodeTypeOf].
    assert (String.eqb ty "table" = false) as ->
      by by destruct (isHyperlink_cases ty Hty) as [->|[->| ->]].
    assert (String.eqb ty "embedded-asset-block" = false) as ->
      by by destruct (isHyperlink_cases ty Hty) as [->|[->| ->]].
    assert (String.eqb ty "embedded-entry-block" = false) as ->
      by by destruct (isHyperlink_cases ty Hty) as [->|[->| ->]].
    assert (String.eqb ty "hr" = false) as ->
      by by destruct (isHyperlink_cases ty Hty) as [->|[->| ->]].
    rewrite (processBlock_hyperlink_texts ty d texts _ Hty).
    cbn [mbind option_bind]. by destruct texts.
  - intros tty pd rd cty cd texts. unfold Block, Inline.
    rewrite processTableToRows_spec, tableRows_cons.
    change (isTableRow (Elem "table-row" rd
              [Elem cty cd [Elem ty d (textLeaf <$> texts)]])) with true.
    cbn iota. unfold tableRow. cbn [contentOf mapM tableCell].
    rewrite forEachPush_single, (processBlock_hyperlink_texts ty d texts _ Hty).
    cbn [mbind option_bind fmap option_fmap option_map existsb isHeaderCell
         nodeTypeOf tableRows List.filter mapM mret option_ret].
    by rewrite orb_false_r.
  - intros pd rows segs. unfold Block. rewrite processBlock_Elem.
    change (String.prefix "heading-" "table") with false.
    change (String.eqb "table" "paragraph") with false.
    change (String.eqb "table" "blockquote") with false.
    change (String.eqb "table" "unordered-list") with false.
    change (String.eqb "table" "ordered-list") with false.
    change (String.eqb "table" "table") with true.
    cbn [orb]. cbn iota.
    apply forEachPush_Forall, Forall_forall. intros row _ out.
    destruct (String.eqb (nodeTypeOf row) "table-row").
    + destruct (mapM _ _) as [cellTexts|]; [|discriminate].
      intros [= <-]. by repeat constructor.
    + intros [= <-]. constructor.
Qed.

Lemma hyperlink_forces_underline_witness :
  let doc := makeDoc [paragraph
                [textNode "Visit ";
                 Inline "hyperlink"
                   {| uri := Some "https://example.com"; target := None |}
                   [textNode "this link"]]] in
  let plan := {| blocks :=
      [TextBlock [plainSegment "Visit ";
                  linkSegment (Some "https://example.com")
                    (plainSegment "this link")]] |} in
  documentToRenderPlan doc = Some plan
  ∧ Forall (λ b, Forall linked (planSegments b)) (blocks plan).
Proof.
  intros doc plan. split; [reflexivity|].
  exact (proj1 (hyperlink_forces_underline doc plan "hyperlink"
           {| uri := Some "https://example.com"; target := None |}
           [textNode "this link"] DEFAULT_CONTEXT "https://example.com"
           eq_refl eq_refl)).
Defined.

(** C3, as the spec states it, fails: a hyperlink node that resolves and is
    held by a blockquote directly gives a segment for its Text child that
    carries no hyperlink and is not underlined. *)
Lemma hyperlink_in_blockquote_counterexample :
  ∃ plan ty d v m segs s,
    documentToRenderPlan (makeDoc [quotedLink]) = Some plan
    ∧ quotedLink = Block "blockquote" noData [Inline ty d [Text v m]]
    ∧ resolveHref ty d = Some "https://example.com"
    ∧ blocks plan = [TextBlock segs]
    ∧ s ∈ segs
    ∧ text s = v
    ∧ hyperlink s = None
    ∧ underline s = false.
Proof.
  eexists _, _, _, _, _, _, _. split; [reflexivity|]. split; [reflexivity|].
  split; [reflexivity|]. split; [reflexivity|].
  split; [apply list_elem_of_here|]. by repeat split.
Qed.

(** C4. For every segment sequence the merger equals the reference linear
    scan, which compares each segment with the last accumulated one on the
    eight formatting fields and not on the text, concatenates the text on a
    match and starts a new accumulated segment otherwise.  The output keeps
    the order of the formattings (it is the input's sequence of formattings
    with each run collapsed), is no longer than the input, carries the same
    concatenated text, and is empty for the empty input. *)
Theorem merge_is_linear_scan (segs : list Segment) :
  mergeAdjacentSegments segs = mergeReference segs
  ∧ (∀ a b : Segment, sameFormat a b = true ↔ format a = format b)
  ∧ format <$> mergeAdjacentSegments segs = collapse (format <$> segs)
  ∧ (length (mergeAdjacentSegments segs) ≤ length segs)%nat
  ∧ allText (mergeAdjacentSegments segs) = allText segs
  ∧ mergeAdjacentSegments [] = [].
Proof.
  split; [apply merge_eq_reference|].
  split; [apply sameFormat_true|].
  rewrite merge_eq_reference.
  destruct segs as [|first rest]; [by repeat split|].
  cbn [mergeReference]. repeat split.
  - apply mergeScan_formats.
  - cbn [length]. apply mergeScan_length.
  - apply mergeScan_allText.
Qed.

(** C5. The merger is idempotent: merging a merged sequence changes nothing.
    Equivalently, no two consecutive segments of a merged sequence agree on
    the eight formatting fields, and the sequences the merger leaves alone
    are exactly those. *)
Theorem merge_idempotent (segs : list Segment) :
  mergeAdjacentSegments (mergeAdjacentSegments segs) = mergeAdjacentSegments segs
  ∧ noAdjacentSame (mergeAdjacentSegments segs)
  ∧ (noAdjacentSame segs ↔ mergeAdjacentSegments segs = segs).
Proof.
  assert (∀ l, noAdjacentSame (mergeAdjacentSegments l)) as Hno.
  { intros l. rewrite merge_eq_reference.
    destruct l as [|first rest]; [exact I | apply mergeScan_noAdjacentSame]. }
  assert (∀ l, noAdjacentSame l → mergeAdjacentSegments l = l) as Hfix.
  { intros l Hl. rewrite merge_eq_reference.
    destruct l as [|first rest]; [reflexivity | by apply mergeScan_fixed]. }
  split; [apply Hfix, Hno|]. split; [apply Hno|].
  split; [apply Hfix|]. intros <-. apply Hno.
Qed.

(** C6, as the code has it.  A heading-N block (N from 1 to 6) walks its
    content with the parent context in which only [headingLevel] is replaced,
    by N.  No segment outside the heading takes that level from it: in every
    block the segments of the children before and after a child are those
    the block gives without that child, under the same context, and every
    segment of a walk has the heading level of the context of the walk,
    zero, or the level of a heading node of the walked subtree.  So the
    siblings of a heading that hold no heading node give, in a block that is
    no heading, segments of the level of the context or zero, and a
    top-level block yields, whatever blocks precede it, render blocks whose
    segments have level zero or the level of a heading node of its own
    subtree. *)
Theorem heading_level_local
    (n : nat) (d : Data) (content : list Node) (c : BlockContext)
    (pre post : list Node) (b : Node) (plan : RenderPlan)
    (Hn : (1 ≤ n ≤ 6)%nat)
    (Hplan : documentToRenderPlan (makeDoc (pre ++ b :: post)) = Some plan) :
  processBlock (Block (headingTag n) d content) c
    = collectSegmentsFromBlock (Block (headingTag n) d content)
        {| ctx_headingLevel := n; ctx_listType := ctx_listType c;
           ctx_listIndent := ctx_listIndent c;
           ctx_isBlockquote := ctx_isBlockquote c |}
  ∧ (∀ m c' segs, processBlock m c' = Some segs →
       Forall (λ s, headingLevel s = ctx_headingLevel c' ∨ headingLevel s = 0
                    ∨ headingLevel s ∈ headingLevels m) segs)
  ∧ (∀ m, headingFree m = true → headingLevels m = [])
  ∧ (∀ m c' segs, headingFree m = true → processBlock m c' = Some segs →
       Forall (λ s, headingLevel s = ctx_headingLevel c' ∨ headingLevel s = 0)
         segs)
  ∧ (∀ pty pd l h r c',
       processBlock (Block pty pd (l ++ h :: r)) c'
       = (xs ← processBlock (Block pty pd l) c';
          hs ← processBlock (Block pty pd [h]) c';
          ys ← processBlock (Block pty pd r) c';
          Some (xs ++ hs ++ ys)))
  ∧ (∀ pty pd siblings c' segs,
       String.prefix "heading-" pty = false →
       forallb headingFree siblings = true →
       processBlock (Block pty pd siblings) c' = Some segs →
       Forall (λ s, headingLevel s = ctx_headingLevel c' ∨ headingLevel s = 0)
         segs)
  ∧ (∃ before out after,
      documentToRenderPlan (makeDoc pre) = Some before
      ∧ renderTopBlock b = Some out
      ∧ documentToRenderPlan (makeDoc post) = Some after
      ∧ blocks plan = blocks before ++ out ++ blocks after
      ∧ Forall (λ rb,
            Forall (λ s, headingLevel s = 0 ∨ headingLevel s ∈ headingLevels b)
              (planSegments rb)) out
      ∧ (headingFree b = true →
         Forall (λ rb, Forall (λ s, headingLevel s = 0) (planSegments rb)) out))
  ∧ processBlock quoteWithHeading c
    = Some [textNodeToSegment "Head" [] (withHeading c 2);
            textNodeToSegment "Body" [] c].
Proof.
  split; [|split; [|split; [|split; [|split; [|split; [|split]]]]]].
  - destruct (headingTag_level n Hn) as [Hprefix Hlevel].
    unfold Block. rewrite processBlock_Elem, Hprefix, Hlevel. reflexivity.
  - intros m c' segs. apply processBlock_headingLevels.
  - exact headingFree_levels.
  - intros m c' segs. by apply processBlock_headingFree.
  - intros pty pd l h r c'. apply processBlock_around.
  - intros pty pd siblings c' segs Hpty Hsiblings.
    apply processBlock_headingFree. unfold headingFree, Block.
    cbn [allTags]. by rewrite Hpty.
  - destruct (documentToRenderPlan_split _ _ _ _ Hplan)
      as (before & out & after & H1 & H2 & H3 & H4).
    exists before, out, after. repeat (split; [done|]).
    split; [by apply renderTopBlock_headingLevels|].
    intros Hfree.
    refine (renderTopBlock_invariant
              (λ ty, negb (String.prefix "heading-" ty))
              (λ s, headingLevel s = 0) _ _ _ b out Hfree H2).
    + unfold format. intros x y [= _ _ _ _ Heq _ _ _]. congruence.
    + intros m segs Hm Hsegs.
      eapply Forall_impl; [exact (processBlock_headingFree _ _ _ Hm Hsegs)|].
      cbn. by intros s [?|?].
    + done.
  - reflexivity.
Qed.

Lemma heading_level_local_witness :
  let pre := [Block "heading-2" noData [textNode "Title"]] in
  let b := paragraph [textNode "Body"] in
  ∃ plan,
    documentToRenderPlan (makeDoc (pre ++ [b])) = Some plan
    ∧ headingFree b = true
    ∧ ∃ before out after,
        documentToRenderPlan (makeDoc pre) = Some before
        ∧ renderTopBlock b = Some out
        ∧ documentToRenderPlan (makeDoc []) = Some after
        ∧ blocks plan = blocks before ++ out ++ blocks after
        ∧ Forall (λ rb,
              Forall (λ s, headingLevel s = 0 ∨ headingLevel s ∈ headingLevels b)
                (planSegments rb)) out
        ∧ (headingFree b = true →
           Forall (λ rb, Forall (λ s, headingLevel s = 0) (planSegments rb))
             out).
Proof.
  intros pre b. eexists. split; [reflexivity|]. split; [reflexivity|].
  assert (1 ≤ 2 ≤ 6)%nat as Hn by lia.
  exact (proj1 (proj2 (proj2 (proj2 (proj2 (proj2 (proj2
           (heading_level_local 2 noData [] DEFAULT_CONTEXT
              pre [] b _ Hn eq_refl)))))))).
Defined.

(** C6, as the spec states it, fails: a list that follows a heading and is
    not itself a heading yields a segment of heading level 2, from the
    heading inside its list item. *)
Lemma heading_inside_list_counterexample :
  ∃ plan h b segs s,
    documentToRenderPlan headingThenList = Some plan
    ∧ doc_content headingThenList = [h; b]
    ∧ String.prefix "heading-" (nodeTypeOf h) = true
    ∧ String.prefix "heading-" (nodeTypeOf b) = false
    ∧ blocks plan !! 1%nat = Some (TextBlock segs)
    ∧ s ∈ segs
    ∧ headingLevel s = 2%nat.
Proof.
  eexists _, _, _, _, _. split; [reflexivity|]. split; [reflexivity|].
  split; [reflexivity|]. split; [reflexivity|]. split; [reflexivity|].
  split; [apply list_elem_of_here | reflexivity].
Qed.

(** C7, as the code has it.  A list block walked under [c] walks the
    content blocks of its list-item children, in order, under the context of
    [c] with [listType] set to the kind of the list and [listIndent] one
    more than in [c]; its other children contribute nothing.  A body nested
    under [length kinds] lists, each inside an item of the one above, is
    walked under the context with [listIndent] raised by [length kinds],
    whatever the kinds, and with the [listType] of the innermost list.  The
    segments of a body that holds no further list have that indent and list
    type, but for the flattened rows of a table in it, which have
    [listIndent = 0] and no list type; the segments of any body have at
    least that indent, but for such rows. *)
Theorem list_indent_accumulates
    (lt : ListType) (d : Data) (content : list Node) (c : BlockContext)
    (kinds : list ListType) (texts : list (string * list Mark)) :
  processBlock (Block (listTag lt) d content) c
    = forEachPush (λ b,
          processBlock b
            {| ctx_headingLevel := ctx_headingLevel c; ctx_listType := Some lt;
               ctx_listIndent := ctx_listIndent c + 1;
               ctx_isBlockquote := ctx_isBlockquote c |})
        (listItemBlocks content)
  ∧ processBlock (Block (listTag lt) d content) c
    = processBlock (Block (listTag lt) d (List.filter isListItem content)) c
  ∧ (∀ body, processBlock (nestedList kinds body) c
             = processBlock body (nestedContext c kinds))
  ∧ ctx_listIndent (nestedContext c kinds) = (ctx_listIndent c + length kinds)%nat
  ∧ ctx_listType (nestedContext c kinds)
    = match last kinds with Some inner => Some inner | None => ctx_listType c end
  ∧ processBlock (nestedList kinds (paragraph (textLeaf <$> texts))) c
    = Some ((λ t, textNodeToSegment t.1 t.2 (nestedContext c kinds)) <$> texts)
  ∧ (∀ body segs,
       allTags outsideListsAndTables body = true →
       processBlock (nestedList kinds body) DEFAULT_CONTEXT = Some segs →
       Forall (λ s, listIndent s = length kinds) segs)
  ∧ (∀ body segs,
       allTags outsideLists body = true →
       processBlock (nestedList kinds body) c = Some segs →
       Forall (λ s, (listIndent s = (ctx_listIndent c + length kinds)%nat
                     ∧ listType s = ctx_listType (nestedContext c kinds))
                    ∨ ∃ cellTexts, s = rowSegment cellTexts) segs)
  ∧ (∀ body segs,
       processBlock (nestedList kinds body) c = Some segs →
       Forall (λ s, (ctx_listIndent c + length kinds ≤ listIndent s)%nat
                    ∨ ∃ cellTexts, s = rowSegment cellTexts) segs)
  ∧ (∀ cellTexts,
       listIndent (rowSegment cellTexts) = 0
       ∧ listType (rowSegment cellTexts) = None)
  ∧ processBlock tableInNestedList c
    = Some [rowSegment ["Name"; "Age"]; rowSegment ["Alice"; "30"]].
Proof.
  destruct (nestedContext_fields kinds c) as (Hindent & Htype & _).
  split; [apply processBlock_list|].
  split; [unfold Block; by rewrite !processBlock_list, listItemBlocks_filter|].
  split; [intros body; apply processBlock_nestedList|].
  split; [exact Hindent|]. split; [exact Htype|].
  split; [by rewrite processBlock_nestedList, processBlock_paragraph|].
  split; [|split; [|split; [|split; [done|reflexivity]]]].
  - intros body segs Hbody. rewrite processBlock_nestedList. intros Hsegs.
    eapply Forall_impl; [exact (processBlock_listFree _ _ _ Hbody Hsegs)|].
    intros s [-> _].
    by destruct (nestedContext_fields kinds DEFAULT_CONTEXT) as (-> & _ & _).
  - intros body segs Hbody. rewrite processBlock_nestedList. intros Hsegs.
    eapply Forall_impl; [exact (processBlock_listFree_rows _ _ _ Hbody Hsegs)|].
    cbn. intros s [[Hi Ht]|Hrow]; [left | by right].
    by rewrite Hi, Hindent.
  - intros body segs. rewrite processBlock_nestedList. intros Hsegs.
    eapply Forall_impl; [exact (processBlock_indent_least _ _ _ Hsegs)|].
    cbn. intros s [Hle|Hrow]; [left | by right].
    by rewrite <- Hindent.
Qed.

(** C7, as the spec states it, fails: a table inside the item of a list
    inside the item of a list, two levels deep, yields segments whose list
    indent is 0 and not 2. *)
Lemma table_in_list_counterexample :
  ∃ plan segs s,
    documentToRenderPlan
      (makeDoc [nestedList [unordered; ordered] sampleTable]) = Some plan
    ∧ blocks plan = [TextBlock segs]
    ∧ s ∈ segs
    ∧ listIndent s = 0
    ∧ listIndent s ≠ length [unordered; ordered].
Proof.
  eexists _, _, _. split; [reflexivity|]. split; [reflexivity|].
  split; [apply list_elem_of_here|]. by split.
Qed.

(** C8. For every table block the table extractor computes what the spec
    describes: one row per [table-row] child of the table, in source order;
    a row is a header row iff one of its direct cell children is a
    [table-header-cell]; its cells are the row's children in source order,
    each the walk of that cell's content under the root context, whatever
    surrounds the table, merged on its own.  It returns on exactly the tables
    whose rows hold cells that can be walked, and the table of the scenario
    gives a header row and a data row whose first cell reads [Alice]. *)
Theorem table_extractor (ty : string) (d : Data) (content : list Node) :
  processTableToRows (Block ty d content) = tableRows content
  ∧ (is_Some (processTableToRows (Block ty d content))
     ↔ forallb (λ row,
           if isTableRow row then forallb cellWalks (contentOf row) else true)
         content = true)
  ∧ (∀ rows,
       processTableToRows (Block ty d content) = Some rows →
       length rows = length (List.filter isTableRow content)
       ∧ Forall2 (λ row r,
             isHeader r = existsb isHeaderCell (contentOf row)
             ∧ Forall2 (λ cell segs,
                   ∃ raw,
                     forEachPush (λ child, processBlock child DEFAULT_CONTEXT)
                       (contentOf cell) = Some raw
                     ∧ segs = mergeAdjacentSegments raw)
                 (contentOf row) (cells r))
           (List.filter isTableRow content) rows)
  ∧ processTableToRows sampleTable
    = Some [{| cells := [[plainSegment "Name"]; [plainSegment "Age"]];
               isHeader := true |};
            {| cells := [[plainSegment "Alice"]; [plainSegment "30"]];
               isHeader := false |}].
Proof.
  unfold Block. rewrite processTableToRows_spec.
  split; [reflexivity|]. split; [apply tableRows_returns|].
  split; [|reflexivity].
  intros rows Hrows. unfold tableRows in Hrows. apply mapM_Some_1 in Hrows.
  split; [symmetry; by eapply Forall2_length|].
  eapply Forall2_impl; [exact Hrows|]. intros row r. unfold tableRow.
  destruct (mapM tableCell (contentOf row)) as [cs|] eqn:Hcs; [|discriminate].
  intros [= <-]. cbn [isHeader cells]. split; [reflexivity|].
  apply mapM_Some_1 in Hcs.
  eapply Forall2_impl; [exact Hcs|]. intros [v m | cty cd cc] segs; [discriminate|].
  cbn [tableCell contentOf].
  destruct (forEachPush _ cc) as [raw|]; [|discriminate].
  intros [= <-]. by exists raw.
Qed.

(** C9. A top-level embedded-asset-block contributes exactly one image block
    when the file URL of its asset resolves, and nothing otherwise; the URL
    of the image is the resolved URL prefixed with [https:], its title is the
    resolved title or else the literal [image]; the asset of the scenario
    gives the image block of the scenario. *)
Theorem embedded_asset_block
    (d : Data) (content pre post : list Node) :
  renderTopBlock (Block "embedded-asset-block" d content)
    = Some (match resolvedFileUrl (target d) with
            | Some u =>
                [ImageBlock ("https:" +:+ u)
                   (default "image" (truthy (localizedTitle (target d))))]
            | None => []
            end)
  ∧ documentToRenderPlan
      (makeDoc (pre ++ Block "embedded-asset-block" d content :: post))
    = (before ← documentToRenderPlan (makeDoc pre);
       after ← documentToRenderPlan (makeDoc post);
       Some {| blocks := blocks before ++ assetImage (target d) ++ blocks after |})
  ∧ (assetImage (target d) ≠ [] ↔ is_Some (resolvedFileUrl (target d)))
  ∧ (localizedTitle (target d) = None →
     ∀ u ttl, ImageBlock u ttl ∈ assetImage (target d) → ttl = "image")
  ∧ documentToRenderPlan (makeDoc [photoAsset])
    = Some {| blocks :=
        [ImageBlock "https://images.example.net/photo.jpg" "My Photo"] |}.
Proof.
  assert (renderTopBlock (Block "embedded-asset-block" d content)
          = Some (assetImage (target d))) as Hblock.
  { unfold renderTopBlock, Block, assetImage, assetUrl, js_or.
    cbn [nodeTypeOf targetOf]. cbn [String.eqb Ascii.eqb Bool.eqb].
    by destruct (truthy _). }
  split; [exact Hblock|]. split; [|split; [|split; [|reflexivity]]].
  - unfold documentToRenderPlan, makeDoc. cbn [doc_content].
    rewrite forEachPush_app, forEachPush_cons, Hblock.
    destruct (forEachPush renderTopBlock pre) as [bs1|]; [|reflexivity].
    cbn. by destruct (forEachPush renderTopBlock post).
  - unfold assetImage, resolvedFileUrl. destruct (truthy _).
    + split; [by eexists | done].
    + split; [done | by intros [? ?]].
  - intros Hnone u ttl. unfold assetImage. rewrite Hnone.
    destruct (truthy _); [|by intros ?%elem_of_nil].
    intros Hin%list_elem_of_singleton. by injection Hin as _ ->.
Qed.



(** * Further properties of the renderer *)

(** ** The merger *)

Lemma appendText_assoc (a : Segment) (s t : string) :
  appendText (appendText a s) t = appendText a (s +:+ t).
Proof. unfold appendText. cbn. by rewrite string_app_assoc. Qed.

Lemma appendText_empty (a : Segment) : appendText a "" = a.
Proof. destruct a. unfold appendText. cbn. by rewrite string_app_nil_r. Qed.

(** Scanning on from [acc] over a merged sequence is scanning on over the
    sequence itself. *)
Lemma mergeScan_cons (acc curr : Segment) (rest : list Segment) :
  mergeScan acc (curr :: rest)
  = if sameFormat acc curr
    then mergeScan (appendText acc (text curr)) rest
    else acc :: mergeScan curr rest.
Proof. reflexivity. Qed.

Lemma mergeScan_merged (rest : list Segment) (acc first : Segment) :
  mergeScan acc (mergeScan first rest) = mergeScan acc (first :: rest).
Proof.
  revert acc first. induction rest as [|curr rest IH]; intros acc first.
  { reflexivity. }
  rewrite (mergeScan_cons first curr).
  destruct (sameFormat first curr) eqn:Hfc.
  - rewrite IH, !mergeScan_cons.
    rewrite sameFormat_format, format_appendText, <- sameFormat_format.
    destruct (sameFormat acc first) eqn:Haf.
    + assert (sameFormat (appendText acc (text first)) curr = true) as ->.
      { apply sameFormat_true. rewrite format_appendText.
        apply sameFormat_true in Haf, Hfc. congruence. }
      cbn [text appendText]. by rewrite !appendText_assoc.
    + by rewrite Hfc.
  - rewrite !(mergeScan_cons acc first).
    destruct (sameFormat acc first).
    + by rewrite IH.
    + by rewrite IH, (mergeScan_cons first curr), Hfc.
Qed.

Lemma fold_mergeStep_merged (b merged : list Segment) :
  merged ≠ [] →
  fold_left mergeStep (mergeAdjacentSegments b) merged
  = fold_left mergeStep b merged.
Proof.
  destruct merged as [|acc front _] using rev_ind; [done|]. intros _.
  rewrite !fold_mergeStep_scan. f_equal.
  rewrite merge_eq_reference. destruct b as [|first rest]; [reflexivity|].
  apply mergeScan_merged.
Qed.

Lemma merge_nonempty (segs : list Segment) :
  segs ≠ [] → mergeAdjacentSegments segs ≠ [].
Proof.
  rewrite merge_eq_reference. destruct segs as [|first rest]; [done|].
  intros _. cbn [mergeReference].
  by destruct (mergeScan_head rest first) as (hd & tl & -> & _).
Qed.

Lemma merge_fixed (segs : list Segment) :
  mergeAdjacentSegments (mergeAdjacentSegments segs) = mergeAdjacentSegments segs.
Proof.
  rewrite !merge_eq_reference.
  destruct segs as [|first rest]; [reflexivity|]. cbn [mergeReference].
  destruct (mergeScan_head rest first) as (hd & tl & Heq & _).
  pose proof (mergeScan_noAdjacentSame rest first) as Hno.
  rewrite Heq in Hno |- *. by apply mergeScan_fixed.
Qed.

Lemma merge_app_l (a b : list Segment) :
  a ≠ [] →
  mergeAdjacentSegments (a ++ b) = fold_left mergeStep b (mergeAdjacentSegments a).
Proof.
  destruct a as [|first rest]; [done|]. intros _.
  cbn [mergeAdjacentSegments app]. apply fold_left_app.
Qed.

(** X1. Merging is compositional: merging two sequences each on its own and
    then their concatenation gives what merging the concatenation gives. *)
Theorem merge_of_merged_parts (a b : list Segment) :
  mergeAdjacentSegments (mergeAdjacentSegments a ++ mergeAdjacentSegments b)
  = mergeAdjacentSegments (a ++ b).
Proof.
  destruct a as [|first rest].
  { cbn [mergeAdjacentSegments app]. apply merge_fixed. }
  rewrite !merge_app_l by (try apply merge_nonempty; done).
  rewrite merge_fixed. apply fold_mergeStep_merged. by apply merge_nonempty.
Qed.

Lemma mergeScan_uniform (rest : list Segment) (acc : Segment) :
  Forall (λ s, format s = format acc) rest →
  mergeScan acc rest = [appendText acc (allText rest)].
Proof.
  revert acc. induction rest as [|curr rest IH]; intros acc Hall.
  { cbn. by rewrite appendText_empty. }
  apply Forall_cons in Hall as [Hcurr Hrest]. cbn [mergeScan].
  assert (sameFormat acc curr = true) as -> by by apply sameFormat_true.
  rewrite IH.
  - by rewrite appendText_assoc.
  - eapply Forall_impl; [exact Hrest|]. intros s Hs.
    by rewrite format_appendText.
Qed.

(** X2. A run of segments that all carry the formatting of the first merges
    into one segment: the first one, with the texts of the run
    concatenated. *)
Theorem merge_uniform_run (first : Segment) (rest : list Segment)
    (Hrun : Forall (λ s, format s = format first) rest) :
  mergeAdjacentSegments (first :: rest)
  = [{| text := allText (first :: rest); bold := bold first;
        italic := italic first; underline := underline first;
        code := code first; headingLevel := headingLevel first;
        listType := listType first; listIndent := listIndent first;
        hyperlink := hyperlink first |}].
Proof.
  rewrite merge_eq_reference. cbn [mergeReference].
  by rewrite mergeScan_uniform.
Qed.

Lemma merge_uniform_run_witness :
  Forall (λ s, format s = format (plainSegment "hello"))
    [plainSegment " "; plainSegment "world"]
  ∧ mergeAdjacentSegments
      [plainSegment "hello"; plainSegment " "; plainSegment "world"]
    = [plainSegment "hello world"].
Proof.
  assert (Forall (λ s, format s = format (plainSegment "hello"))
            [plainSegment " "; plainSegment "world"]) as Hrun
    by (repeat constructor).
  split; [exact Hrun|].
  exact (merge_uniform_run (plainSegment "hello")
           [plainSegment " "; plainSegment "world"] Hrun).
Defined.

(** ** The walker and its context *)

Lemma forEachPush_Forall2 {A B C : Type} (R : B → C → Prop)
    (f : A → option (list B)) (g : A → option (list C)) (l : list A) :
  Forall (λ x, option_Forall2 (Forall2 R) (f x) (g x)) l →
  option_Forall2 (Forall2 R) (forEachPush f l) (forEachPush g l).
Proof.
  induction 1 as [|x l Hx Hl IH]; [by repeat constructor|].
  rewrite !forEachPush_cons.
  destruct Hx as [xs ys Hxy|]; [|constructor]. cbn.
  destruct IH as [xs' ys' Hxy'|]; constructor. by apply Forall2_app.
Qed.

(** Two walks of one node under related contexts give related segments,
    when the relations pass through the arms of the walker. *)
Section WalkerRelation.
Variable Rc : BlockContext → BlockContext → Prop.
Variable Rs : Segment → Segment → Prop.
Hypothesis Rs_text : ∀ s s', Rs s s' → text s = text s'.
Hypothesis R_text : ∀ v m c c',
  Rc c c' → Rs (textNodeToSegment v m c) (textNodeToSegment v m c').
Hypothesis R_link : ∀ u v m c c',
  Rc c c' →
  Rs (linkSegment (Some u) (textNodeToSegment v m c))
     (linkSegment (Some u) (textNodeToSegment v m c')).
Hypothesis R_placeholder : ∀ t c c',
  Rc c c' → Rs (entryPlaceholder c t) (entryPlaceholder c' t).
Hypothesis R_row : ∀ texts, Rs (rowSegment texts) (rowSegment texts).
Hypothesis Rc_heading : ∀ n c c',
  Rc c c' → Rc (withHeading c n) (withHeading c' n).
Hypothesis Rc_blockquote : ∀ c c',
  Rc c c' → Rc (withBlockquote c) (withBlockquote c').
Hypothesis Rc_list : ∀ lt c c', Rc c c' → Rc (withList c lt) (withList c' lt).

Lemma collectSegmentsFromInline_related ty d content c c' :
  Rc c c' →
  Forall2 Rs (collectSegmentsFromInline ty d content c)
    (collectSegmentsFromInline ty d content c').
Proof.
  intros Hc. unfold collectSegmentsFromInline. apply Forall2_app.
  - induction content as [|[v m | ty' d' c''] content IH]; cbn [flat_map].
    + constructor.
    + apply Forall2_app; [|exact IH]. repeat constructor.
      destruct (resolveHref ty d); [by apply R_link | by apply R_text].
    + exact IH.
  - destruct (String.eqb ty "embedded-entry-inline"); repeat constructor.
    by apply R_placeholder.
Qed.

Lemma segmentsText_related (segs segs' : list Segment) :
  Forall2 Rs segs segs' → segmentsText segs = segmentsText segs'.
Proof.
  intros H. unfold segmentsText. f_equal.
  induction H as [|s s' segs segs' Hs _ IH]; [reflexivity|].
  cbn. by rewrite IH, (Rs_text _ _ Hs).
Qed.

Lemma collectSegmentsWith_related content c c' :
  Forall (λ n, ∀ c c', Rc c c' →
            option_Forall2 (Forall2 Rs) (processBlock n c) (processBlock n c'))
    content →
  Rc c c' →
  option_Forall2 (Forall2 Rs)
    (collectSegmentsWith processBlock content c)
    (collectSegmentsWith processBlock content c').
Proof.
  intros IH Hc. unfold collectSegmentsWith. apply forEachPush_Forall2.
  eapply Forall_impl; [exact IH|]. intros [v m | ty d cc] Hn; cbn beta iota.
  - repeat constructor. by apply R_text.
  - destruct (isBlockNode ty); cbn [negb]; [by apply Hn|].
    constructor. by apply collectSegmentsFromInline_related.
Qed.

Lemma processBlock_related (n : Node) :
  ∀ c c', Rc c c' →
    option_Forall2 (Forall2 Rs) (processBlock n c) (processBlock n c').
Proof.
  induction n as [v m | ty d content IH IH2] using Node_ind2; intros c c' Hc.
  { constructor. }
  rewrite !processBlock_Elem.
  destruct (String.prefix "heading-" ty).
  { apply collectSegmentsWith_related; [exact IH | by apply Rc_heading]. }
  destruct (String.eqb ty "paragraph").
  { by apply collectSegmentsWith_related. }
  destruct (String.eqb ty "blockquote").
  { apply forEachPush_Forall2.
    eapply Forall_impl; [exact IH|]. intros n Hn. by apply Hn, Rc_blockquote. }
  destruct (String.eqb ty "unordered-list" || String.eqb ty "ordered-list").
  { apply forEachPush_Forall2.
    eapply Forall_impl; [exact IH2|]. intros child Hchild; cbn beta.
    destruct (String.eqb (nodeTypeOf child) "list-item");
      [|by repeat constructor].
    apply forEachPush_Forall2.
    eapply Forall_impl; [exact Hchild|]. intros n Hn. by apply Hn, Rc_list. }
  destruct (String.eqb ty "table").
  { apply forEachPush_Forall2.
    eapply Forall_impl; [exact IH2|]. intros row Hrow; cbn beta.
    destruct (String.eqb (nodeTypeOf row) "table-row");
      [|by repeat constructor].
    assert (mapM (λ cell, segmentsText <$> processBlock cell c) (contentOf row)
            = mapM (λ cell, segmentsText <$> processBlock cell c') (contentOf row))
      as ->.
    { apply Forall_mapM_ext. eapply Forall_impl; [exact Hrow|].
      intros cell Hcell; cbn beta.
      destruct (Hcell c c' Hc) as [segs segs' Hsegs|]; [|reflexivity].
      cbn. f_equal. by apply segmentsText_related. }
    destruct (mapM _ _) as [texts|]; repeat constructor. apply R_row. }
  destruct (String.eqb ty "table-cell" || String.eqb ty "table-header-cell").
  { apply forEachPush_Forall2.
    eapply Forall_impl; [exact IH|]. intros n Hn. by apply Hn. }
  by apply collectSegmentsWith_related.
Qed.

End WalkerRelation.

(** X3. The formatting context never alters what a walk collects: under any
    two contexts the walker fails or returns alike, and returns the same
    number of segments with, position by position, the same text, marks and
    link.  Only heading level and list fields depend on the context. *)
Theorem context_keeps_content (n : Node) (c c' : BlockContext) :
  option_Forall2 (Forall2 sameContent) (processBlock n c) (processBlock n c').
Proof.
  apply (processBlock_related (λ _ _, True) sameContent);
    unfold sameContent; cbn; try done.
  by intros s s' [? _].
Qed.

(** X4. The blockquote flag of the context is never read: contexts that
    agree on heading level, list type and list indent give the same walk,
    and a blockquote adds nothing to the walk of its children. *)
Theorem blockquote_flag_unused
    (n : Node) (c c' : BlockContext) (d : Data) (content : list Node)
    (Hsame : sameButBlockquote c c') :
  processBlock n c = processBlock n c'
  ∧ processBlock (Block "blockquote" d content) c
    = forEachPush (λ child, processBlock child c) content.
Proof.
  assert (∀ m a b, sameButBlockquote a b → processBlock m a = processBlock m b)
    as Hwalk.
  { intros m a b Hab.
    assert (option_Forall2 (Forall2 eq) (processBlock m a) (processBlock m b))
      as Hrel.
    { apply (processBlock_related sameButBlockquote eq);
        unfold sameButBlockquote, textNodeToSegment, linkSegment,
          entryPlaceholder in *;
        cbn; intros; destruct_and?; repeat split; congruence. }
    destruct Hrel as [xs ys Hxy|]; [|reflexivity].
    f_equal. by apply list_eq_Forall2. }
  split; [by apply Hwalk|].
  unfold Block. rewrite processBlock_Elem.
  cbn [String.prefix String.eqb Ascii.eqb Bool.eqb].
  apply forEachPush_ext, Forall_forall. intros child _.
  apply Hwalk. by unfold sameButBlockquote.
Qed.

Lemma blockquote_flag_unused_witness :
  sameButBlockquote DEFAULT_CONTEXT (withBlockquote DEFAULT_CONTEXT)
  ∧ processBlock (paragraph [textNode "Quoted text"]) DEFAULT_CONTEXT
    = processBlock (paragraph [textNode "Quoted text"])
        (withBlockquote DEFAULT_CONTEXT).
Proof.
  assert (sameButBlockquote DEFAULT_CONTEXT (withBlockquote DEFAULT_CONTEXT))
    as Hsame by (by unfold sameButBlockquote).
  split; [exact Hsame|].
  exact (proj1 (blockquote_flag_unused (paragraph [textNode "Quoted text"])
                  DEFAULT_CONTEXT (withBlockquote DEFAULT_CONTEXT)
                  noData [] Hsame)).
Defined.

(** ** Invariants of the plan *)

(** The invariant of the walker, with the inline resolver taken whole. *)
Section WalkerInvariantInline.
Variable I : BlockContext → Segment → Prop.
Hypothesis I_text : ∀ v m c, I c (textNodeToSegment v m c).
Hypothesis I_inline : ∀ ty d content c,
  Forall (I c) (collectSegmentsFromInline ty d content c).
Hypothesis I_row : ∀ c texts, I c (rowSegment texts).
Hypothesis I_heading : ∀ ty c s,
  I (withHeading c (headingLevelFromNodeType ty)) s → I c s.
Hypothesis I_blockquote : ∀ c s, I (withBlockquote c) s → I c s.
Hypothesis I_list : ∀ c lt s, I (withList c lt) s → I c s.

Lemma collectSegmentsWith_inv content c segs :
  Forall (λ n, ∀ c' out, processBlock n c' = Some out → Forall (I c') out)
    content →
  collectSegmentsWith processBlock content c = Some segs →
  Forall (I c) segs.
Proof.
  intros Hc. unfold collectSegmentsWith. apply forEachPush_Forall.
  eapply Forall_impl; [exact Hc|]. intros [v m | ty d cc] IH ys; cbn beta iota.
  - intros [= <-]. repeat constructor. apply I_text.
  - destruct (isBlockNode ty); cbn [negb]; [apply IH|].
    intros [= <-]. apply I_inline.
Qed.

Lemma processBlock_inv (n : Node) :
  ∀ c segs, processBlock n c = Some segs → Forall (I c) segs.
Proof.
  induction n as [v m | ty d content IH IH2] using Node_ind2;
    intros c segs; [discriminate|].
  rewrite processBlock_Elem.
  destruct (String.prefix "heading-" ty).
  { intros H. eapply Forall_impl; [|exact (I_heading ty c)].
    by eapply collectSegmentsWith_inv. }
  destruct (String.eqb ty "paragraph").
  { by apply collectSegmentsWith_inv. }
  destruct (String.eqb ty "blockquote").
  { intros H. eapply Forall_impl; [|exact (I_blockquote c)].
    revert H. apply forEachPush_Forall.
    eapply Forall_impl; [exact IH|]. intros m Hm ys. apply Hm. }
  destruct (String.eqb ty "unordered-list" || String.eqb ty "ordered-list").
  { set (lt := if String.eqb ty "unordered-list" then unordered else ordered).
    intros H. eapply Forall_impl; [|exact (I_list c lt)].
    revert H. apply forEachPush_Forall.
    eapply Forall_impl; [exact IH2|]. intros child Hchild ys; cbn beta.
    destruct (String.eqb (nodeTypeOf child) "list-item").
    - apply forEachPush_Forall.
      eapply Forall_impl; [exact Hchild|]. intros g Hg zs. apply Hg.
    - intros [= <-]. constructor. }
  destruct (String.eqb ty "table").
  { apply forEachPush_Forall, Forall_forall. intros row _ ys.
    destruct (String.eqb (nodeTypeOf row) "table-row").
    - destruct (mapM _ _) as [cellTexts|]; [|discriminate].
      intros [= <-]. repeat constructor. apply I_row.
    - intros [= <-]. constructor. }
  destruct (String.eqb ty "table-cell" || String.eqb ty "table-header-cell").
  { apply forEachPush_Forall.
    eapply Forall_impl; [exact IH|]. intros m Hm ys. apply Hm. }
  by apply collectSegmentsWith_inv.
Qed.

End WalkerInvariantInline.

Lemma truthy_nonempty (s : option string) (v : string) :
  truthy s = Some v → v ≠ "".
Proof.
  destruct s as [w|]; [|discriminate]. cbn.
  destruct (String.eqb w "") eqn:Hw; [discriminate|].
  intros [= <-]. by apply String.eqb_neq.
Qed.

Lemma js_or_nonempty (s : option string) (fallback : string) :
  fallback ≠ "" → js_or s fallback ≠ "".
Proof.
  intros Hf. unfold js_or. destruct (truthy s) as [v|] eqn:Hs; [|exact Hf].
  cbn. by eapply truthy_nonempty.
Qed.

Lemma resolveHref_nonempty ty d u : resolveHref ty d = Some u → u ≠ "".
Proof.
  unfold resolveHref. destruct (isHyperlink ty); [|discriminate].
  destruct (truthy (uri d)) as [v|] eqn:Huri.
  - intros [= <-]. by eapply truthy_nonempty.
  - apply truthy_nonempty.
Qed.

Lemma headingLevelFromNodeType_le (ty : string) :
  (headingLevelFromNodeType ty ≤ 9)%nat.
Proof.
  unfold headingLevelFromNodeType.
  destruct (String.prefix "heading-" ty); [|lia].
  destruct (substring _ _ _) as [|ch [|? ?]]; try lia.
  unfold isDigit. destruct (48 <=? nat_of_ascii ch)%nat eqn:Hlo; [|cbn; lia].
  destruct (nat_of_ascii ch <=? 57)%nat eqn:Hhi; [|cbn; lia].
  apply Nat.leb_le in Hlo, Hhi. cbn [andb]. lia.
Qed.

Lemma processBlock_segmentOK (n : Node) (c : BlockContext)
    (segs : list Segment) :
  contextOK c → processBlock n c = Some segs → Forall segmentOK segs.
Proof.
  intros Hc H.
  assert (Forall (λ s, contextOK c → segmentOK s) segs) as Hall.
  { refine (processBlock_inv (λ c s, contextOK c → segmentOK s)
              _ _ _ _ _ _ n c segs H).
    - intros v m x [Hl Hh]. by repeat split; cbn; try apply Hl.
    - intros ty d content x. unfold collectSegmentsFromInline.
      apply Forall_app. split.
      + apply Forall_flat_map, Forall_forall. intros [v m | ? ? ?] _;
          [|constructor]. apply Forall_singleton.
        intros [Hl Hh]. destruct (resolveHref ty d) as [u|] eqn:Hu; cbn.
        * repeat split; cbn; try apply Hl; try done.
          intros [= ->]. by apply resolveHref_nonempty in Hu.
        * by repeat split; cbn; try apply Hl.
      + destruct (String.eqb ty "embedded-entry-inline"); [|constructor].
        apply Forall_singleton.
        intros [Hl Hh]. by repeat split; cbn; try apply Hl.
    - intros x texts _. by repeat split; cbn; try lia.
    - intros ty x s Hs [Hl Hh]. apply Hs. split; [exact Hl|].
      apply headingLevelFromNodeType_le.
    - intros x s Hs Hx. by apply Hs.
    - intros x lt s Hs [Hl Hh]. apply Hs. split; [|exact Hh].
      cbn. split; [done | lia]. }
  eapply Forall_impl; [exact Hall|]. auto.
Qed.

Lemma segmentOK_format (a b : Segment) :
  format a = format b → segmentOK a → segmentOK b.
Proof.
  unfold format, segmentOK. intros [= _ _ _ _ -> -> -> ->]. done.
Qed.

(** X5. In every plan the fields of a segment are consistent: it has a list
    type exactly when its list indent is not zero, its heading level is at
    most 9, and its link is never the empty string. *)
Theorem plan_segments_consistent
    (doc : RichTextDocument) (plan : RenderPlan)
    (Hplan : documentToRenderPlan doc = Some plan) :
  Forall (λ b, Forall segmentOK (planSegments b)) (blocks plan).
Proof.
  eapply documentToRenderPlan_Forall; [|exact Hplan].
  apply Forall_forall. intros b _ out.
  apply (renderTopBlock_invariant (λ _, true) segmentOK).
  - exact segmentOK_format.
  - intros n segs _. apply processBlock_segmentOK.
    split; [done | cbn; lia].
  - intros t. by repeat split; cbn; try lia.
  - apply allTags_any.
Qed.

Lemma plan_segments_consistent_witness :
  ∃ plan,
    documentToRenderPlan headingThenList = Some plan
    ∧ Forall (λ b, Forall segmentOK (planSegments b)) (blocks plan).
Proof.
  eexists. split; [reflexivity|].
  exact (plan_segments_consistent headingThenList _ eq_refl).
Defined.

Lemma merge_noAdjacentSame (segs : list Segment) :
  noAdjacentSame (mergeAdjacentSegments segs).
Proof.
  rewrite merge_eq_reference.
  destruct segs as [|first rest]; [exact I | apply mergeScan_noAdjacentSame].
Qed.

Lemma renderTopBlock_OK (b : Node) (out : list RenderBlock) :
  renderTopBlock b = Some out → Forall renderBlockOK out.
Proof.
  unfold renderTopBlock.
  destruct (String.eqb (nodeTypeOf b) "table").
  { destruct b as [v m | ty d content]; [discriminate|].
    rewrite processTableToRows_spec.
    destruct (tableRows content) as [rows|] eqn:Hrows; [|discriminate].
    intros [= <-]. destruct rows as [|r rows]; [constructor|].
    change (0 <? length (r :: rows))%nat with true. cbn iota.
    apply Forall_singleton. split; [done|].
    unfold tableRows in Hrows. apply mapM_Some_1 in Hrows.
    eapply Forall2_Forall_r; [exact Hrows|].
    apply Forall_forall. intros row _ r'. unfold tableRow.
    destruct (mapM tableCell (contentOf row)) as [cs|] eqn:Hcs; [|discriminate].
    intros [= <-]. cbn [cells]. apply mapM_Some_1 in Hcs.
    eapply Forall2_Forall_r; [exact Hcs|].
    apply Forall_forall. intros [v m | cty cd cc] _ segs; [discriminate|].
    cbn [tableCell]. destruct (forEachPush _ cc); [|discriminate].
    intros [= <-]. apply merge_noAdjacentSame. }
  destruct (String.eqb (nodeTypeOf b) "embedded-asset-block").
  { unfold assetUrl. destruct (truthy _) as [u|]; intros [= <-];
      [|constructor].
    apply Forall_singleton. split; [|by apply js_or_nonempty].
    cbv [String.append]. cbn. by destruct u. }
  destruct (String.eqb (nodeTypeOf b) "embedded-entry-block").
  { intros [= <-]. apply Forall_singleton. by split. }
  destruct (String.eqb (nodeTypeOf b) "hr").
  { intros [= <-]. by apply Forall_singleton. }
  destruct (processBlock b DEFAULT_CONTEXT) as [segs|]; [|discriminate].
  intros [= <-]. destruct segs as [|s segs]; [constructor|].
  change (0 <? length (s :: segs))%nat with true. cbn iota.
  apply Forall_singleton. split.
  - by apply merge_nonempty.
  - apply merge_noAdjacentSame.
Qed.

(** X6. Every block of a plan is well formed: a text block holds at least
    one segment and no two neighbours of equal formatting; a table holds at
    least one row and each of its cells is merged; an image has a URL that
    starts with [https:] and a title that is not empty. *)
Theorem plan_blocks_well_formed
    (doc : RichTextDocument) (plan : RenderPlan)
    (Hplan : documentToRenderPlan doc = Some plan) :
  Forall renderBlockOK (blocks plan).
Proof.
  eapply documentToRenderPlan_Forall; [|exact Hplan].
  apply Forall_forall. intros b _ out. apply renderTopBlock_OK.
Qed.

Lemma plan_blocks_well_formed_witness :
  ∃ plan,
    documentToRenderPlan (makeDoc [sampleTable; photoAsset; emptyParagraph])
      = Some plan
    ∧ Forall renderBlockOK (blocks plan).
Proof.
  eexists. split; [reflexivity|].
  exact (plan_blocks_well_formed
           (makeDoc [sampleTable; photoAsset; emptyParagraph]) _ eq_refl).
Defined.

Lemma renderTopBlock_length (b : Node) (out : list RenderBlock) :
  renderTopBlock b = Some out → (length out ≤ 1)%nat.
Proof.
  unfold renderTopBlock.
  destruct (String.eqb (nodeTypeOf b) "table").
  { destruct (processTableToRows b) as [rows|]; [|discriminate].
    intros [= <-]. destruct (0 <? length rows)%nat; cbn; lia. }
  destruct (String.eqb (nodeTypeOf b) "embedded-asset-block").
  { destruct (assetUrl _); intros [= <-]; cbn; lia. }
  destruct (String.eqb (nodeTypeOf b) "embedded-entry-block").
  { intros [= <-]. cbn. lia. }
  destruct (String.eqb (nodeTypeOf b) "hr").
  { intros [= <-]. cbn. lia. }
  destruct (processBlock b DEFAULT_CONTEXT) as [segs|]; [|discriminate].
  intros [= <-]. destruct (0 <? length segs)%nat; cbn; lia.
Qed.

(** X7. The plan follows the document: the plan of two runs of top-level
    blocks, one after the other, is the plan of the first followed by the
    plan of the second (and fails when either fails); each top-level block
    gives at most one render block, so a plan is no longer than its
    document. *)
Theorem plan_follows_document (a b : list Node) :
  documentToRenderPlan (makeDoc (a ++ b))
    = (p ← documentToRenderPlan (makeDoc a);
       q ← documentToRenderPlan (makeDoc b);
       Some {| blocks := blocks p ++ blocks q |})
  ∧ (∀ plan, documentToRenderPlan (makeDoc a) = Some plan →
       (length (blocks plan) ≤ length a)%nat).
Proof.
  split.
  - unfold documentToRenderPlan, makeDoc. cbn [doc_content].
    rewrite forEachPush_app.
    destruct (forEachPush renderTopBlock a) as [xs|]; [|reflexivity]. cbn.
    by destruct (forEachPush renderTopBlock b).
  - unfold documentToRenderPlan, makeDoc. cbn [doc_content].
    induction a as [|x a IH]; intros plan.
    + intros [= <-]. cbn. lia.
    + rewrite forEachPush_cons.
      destruct (renderTopBlock x) as [out|] eqn:Hout; [|discriminate].
      destruct (forEachPush renderTopBlock a) as [outs|]; [|discriminate].
      intros [= <-]. cbn [blocks length]. rewrite length_app.
      apply renderTopBlock_length in Hout.
      specialize (IH _ eq_refl). cbn [blocks] in IH. lia.
Qed.

(** ** The two modes side by side *)

Lemma merge_allText (segs : list Segment) :
  allText (mergeAdjacentSegments segs) = allText segs.
Proof.
  rewrite merge_eq_reference. destruct segs as [|first rest]; [reflexivity|].
  apply mergeScan_allText.
Qed.

Lemma plainLines_of_rendered (b : Node) (out : list RenderBlock) :
  walkedAtTopLevel b = true → renderTopBlock b = Some out →
  plainLines b
  = Some (List.filter nonEmpty (map (λ rb, allText (planSegments rb)) out)).
Proof.
  unfold walkedAtTopLevel.
  intros [[[Ht Ha]%andb_true_iff He]%andb_true_iff Hh]%andb_true_iff.
  apply negb_true_iff in Ht, Ha, He, Hh.
  unfold renderTopBlock, plainLines. rewrite Ht, Ha, He, Hh.
  destruct (processBlock b DEFAULT_CONTEXT) as [segs|]; [|discriminate].
  intros [= <-]. cbn [mbind option_bind]. f_equal.
  destruct segs as [|s segs]; [reflexivity|].
  change (0 <? length (s :: segs))%nat with true. cbn iota.
  cbn [map List.filter planSegments].
  rewrite merge_allText, <- segmentsText_allText. unfold nonEmpty.
  by destruct (String.eqb (segmentsText (s :: segs)) "").
Qed.

Lemma plainLines_of_plan (content : list Node) (bs : list RenderBlock) :
  forallb walkedAtTopLevel content = true →
  forEachPush renderTopBlock content = Some bs →
  forEachPush plainLines content
  = Some (List.filter nonEmpty (map (λ rb, allText (planSegments rb)) bs)).
Proof.
  revert bs. induction content as [|b content IH]; intros bs Hwalked Hbs.
  { by injection Hbs as <-. }
  apply forEachPush_cons_inv in Hbs as (out & outs & Hout & Houts & ->).
  cbn [forallb] in Hwalked. apply andb_true_iff in Hwalked as [Hb Hrest].
  rewrite forEachPush_cons, (plainLines_of_rendered b out Hb Hout).
  rewrite (IH outs Hrest Houts). cbn.
  by rewrite map_app, List.filter_app.
Qed.

(** X8. For a document whose top-level blocks are all handed to the walker
    (no table, asset, entry or rule at top level), the plain string is read
    off the plan: the concatenated texts of the plan's text blocks, the
    empty ones left out, joined by newlines. *)
Theorem plain_string_from_plan
    (doc : RichTextDocument) (plan : RenderPlan)
    (Hwalked : forallb walkedAtTopLevel (doc_content doc) = true)
    (Hplan : documentToRenderPlan doc = Some plan) :
  richTextToPlainString (Some doc)
  = Some (join newline
            (List.filter nonEmpty
               (map (λ rb, allText (planSegments rb)) (blocks plan)))).
Proof.
  unfold documentToRenderPlan in Hplan. unfold richTextToPlainString.
  destruct (forEachPush renderTopBlock (doc_content doc)) as [bs|] eqn:Hbs;
    [|discriminate].
  injection Hplan as <-. cbn [blocks].
  by rewrite (plainLines_of_plan _ bs Hwalked Hbs).
Qed.

Lemma plain_string_from_plan_witness :
  let doc := makeDoc [paragraph [textNode "Hello"]; emptyParagraph;
                      paragraph [textNode "World"]] in
  ∃ plan,
    forallb walkedAtTopLevel (doc_content doc) = true
    ∧ documentToRenderPlan doc = Some plan
    ∧ richTextToPlainString (Some doc)
      = Some (join newline
                (List.filter nonEmpty
                   (map (λ rb, allText (planSegments rb)) (blocks plan)))).
Proof.
  intros doc. eexists. split; [reflexivity|]. split; [reflexivity|].
  exact (plain_string_from_plan doc _ eq_refl eq_refl).
Defined.

Lemma join_cons_cons (sep s t : string) (l : list string) :
  join sep (s :: t :: l) = s +:+ sep +:+ join sep (t :: l).
Proof. reflexivity. Qed.

Lemma string_app_nonempty (a b : string) : a ≠ "" → a +:+ b ≠ "".
Proof. by destruct a. Qed.

Lemma join_nonempty (sep s : string) (l : list string) :
  s ≠ "" → join sep (s :: l) ≠ "".
Proof.
  intros Hs. destruct l as [|t l]; [exact Hs|].
  rewrite join_cons_cons. by apply string_app_nonempty.
Qed.

Lemma glueLines_empty_r (a : string) : glueLines a "" = a.
Proof.
  unfold glueLines. destruct (String.eqb a "") eqn:Ha; [|reflexivity].
  by apply String.eqb_eq in Ha.
Qed.

Lemma glueLines_nonempty (a b : string) :
  a ≠ "" → b ≠ "" → glueLines a b = a +:+ newline +:+ b.
Proof.
  intros Ha%String.eqb_neq Hb%String.eqb_neq. unfold glueLines.
  by rewrite Ha, Hb.
Qed.

Lemma join_app_glue (la lb : list string) :
  Forall (λ s, s ≠ "") la → Forall (λ s, s ≠ "") lb →
  join newline (la ++ lb) = glueLines (join newline la) (join newline lb).
Proof.
  intros Hla Hlb. induction Hla as [|s la Hs Hla IH]; [reflexivity|].
  destruct lb as [|t lb].
  { by rewrite app_nil_r, glueLines_empty_r. }
  apply Forall_cons in Hlb as Htl. destruct Htl as [Ht _].
  rewrite glueLines_nonempty by by apply join_nonempty.
  destruct la as [|s' la]; [reflexivity|].
  apply Forall_cons in Hla as Hsl. destruct Hsl as [Hs' _].
  rewrite <- app_comm_cons, <- app_comm_cons, !join_cons_cons.
  rewrite app_comm_cons, IH.
  rewrite glueLines_nonempty by by apply join_nonempty.
  by rewrite !string_app_assoc.
Qed.

Lemma plainLines_nonempty (b : Node) (lines : list string) :
  plainLines b = Some lines → Forall (λ s, s ≠ "") lines.
Proof.
  unfold plainLines.
  destruct (String.eqb (nodeTypeOf b) "hr").
  { intros [= <-]. by apply Forall_singleton. }
  destruct (String.eqb (nodeTypeOf b) "embedded-asset-block").
  { intros [= <-]. by apply Forall_singleton. }
  destruct (String.eqb (nodeTypeOf b) "embedded-entry-block").
  { intros [= <-]. by apply Forall_singleton. }
  destruct (processBlock b DEFAULT_CONTEXT) as [segs|]; [|discriminate].
  cbn. destruct (String.eqb (segmentsText segs) "") eqn:Hempty;
    intros [= <-]; [constructor|].
  apply Forall_singleton. by apply String.eqb_neq.
Qed.

(** X9. The plain string follows the document, and joining never adds an
    empty line: every line a top-level block contributes is non-empty, and
    the plain string of two runs of top-level blocks, one after the other,
    is the two plain strings with one newline between them, or the other
    one when one of them is empty. *)
Theorem plain_string_follows_document (a b : list Node) :
  richTextToPlainString (Some (makeDoc (a ++ b)))
    = (sa ← richTextToPlainString (Some (makeDoc a));
       sb ← richTextToPlainString (Some (makeDoc b));
       Some (glueLines sa sb))
  ∧ (∀ n lines, plainLines n = Some lines → Forall (λ s, s ≠ "") lines).
Proof.
  split; [|exact plainLines_nonempty].
  unfold richTextToPlainString, makeDoc. cbn [doc_content].
  rewrite forEachPush_app.
  destruct (forEachPush plainLines a) as [la|] eqn:Hla; [|reflexivity].
  destruct (forEachPush plainLines b) as [lb|] eqn:Hlb; [|reflexivity].
  cbn. f_equal. apply join_app_glue.
  - eapply forEachPush_Forall; [|exact Hla].
    apply Forall_forall. intros n _. apply plainLines_nonempty.
  - eapply forEachPush_Forall; [|exact Hlb].
    apply Forall_forall. intros n _. apply plainLines_nonempty.
Qed.

(** ** Marks, heading tags, nested tables, embedded entries *)

Lemma hasMarks_elem (m : list Mark) (t : string) :
  hasMarks m t = true ↔ t ∈ type <$> m.
Proof.
  unfold hasMarks. induction m as [|mk m IH]; cbn.
  - split; [discriminate | by intros ?%elem_of_nil].
  - rewrite orb_true_iff, IH, elem_of_cons, String.eqb_eq.
    split; (intros [?|?]; [by left | by right]).
Qed.

Lemma hasMarks_same (m1 m2 : list Mark) (t : string) :
  (t ∈ type <$> m1 ↔ t ∈ type <$> m2) → hasMarks m1 t = hasMarks m2 t.
Proof.
  rewrite <- !hasMarks_elem.
  destruct (hasMarks m1 t), (hasMarks m2 t); intros [H12 H21]; try done.
  - symmetry. by apply H12.
  - by apply H21.
Qed.

(** X10. A segment records its marks as a set of the four known types: two
    Text leaves whose marks hold the same known types give the same segment,
    whatever the order of the marks, their repetitions and the marks of
    other types. *)
Theorem marks_read_as_set
    (v : string) (m1 m2 : list Mark) (c : BlockContext)
    (Hsame : sameKnownMarks m1 m2) :
  textNodeToSegment v m1 c = textNodeToSegment v m2 c.
Proof.
  unfold sameKnownMarks, knownMarks in Hsame.
  apply Forall_cons in Hsame as [Hb Hsame].
  apply Forall_cons in Hsame as [Hi Hsame].
  apply Forall_cons in Hsame as [Hu Hsame].
  apply Forall_cons in Hsame as [Hc _].
  unfold textNodeToSegment.
  by rewrite (hasMarks_same _ _ _ Hb), (hasMarks_same _ _ _ Hi),
    (hasMarks_same _ _ _ Hu), (hasMarks_same _ _ _ Hc).
Qed.

Lemma marks_read_as_set_witness :
  let m1 := [{| type := "italic" |}; {| type := "highlight" |};
             {| type := "bold" |}; {| type := "italic" |}] in
  let m2 := [{| type := "bold" |}; {| type := "italic" |}] in
  sameKnownMarks m1 m2
  ∧ textNodeToSegment "both" m1 DEFAULT_CONTEXT
    = textNodeToSegment "both" m2 DEFAULT_CONTEXT.
Proof.
  intros m1 m2.
  assert (sameKnownMarks m1 m2) as Hsame.
  { unfold sameKnownMarks. apply (bool_decide_unpack _). reflexivity. }
  split; [exact Hsame|].
  exact (marks_read_as_set "both" m1 m2 DEFAULT_CONTEXT Hsame).
Defined.

Lemma substring_all (s : string) : substring 0 (String.length s) s = s.
Proof. induction s as [|a s IH]; [reflexivity|]. cbn. by rewrite IH. Qed.

Lemma prefix_split (p s : string) :
  String.prefix p s = true →
  s = p +:+ substring (String.length p) (String.length s - String.length p) s.
Proof.
  revert s. induction p as [|a p IH]; intros s.
  - intros _. cbn. rewrite Nat.sub_0_r. symmetry. apply substring_all.
  - destruct s as [|b s]; [discriminate|]. cbn [String.prefix].
    destruct (ascii_dec a b) as [->|]; [|discriminate].
    intros Hp. apply IH in Hp.
    change (String b s = String b (p +:+ substring (String.length p)
              (String.length s - String.length p) s)).
    by rewrite <- Hp.
Qed.

(** X11. The heading level is read off the tag exactly: it is at most 9, it
    is not zero only for the tag [heading-] followed by that one digit, and
    every such tag gives its digit. *)
Theorem heading_level_parse (ty : string) (n : nat) :
  (headingLevelFromNodeType ty ≤ 9)%nat
  ∧ (headingLevelFromNodeType ty ≠ 0 →
     ty = headingTag (headingLevelFromNodeType ty))
  ∧ ((n ≤ 9)%nat → headingLevelFromNodeType (headingTag n) = n).
Proof.
  split; [apply headingLevelFromNodeType_le|]. split.
  - unfold headingLevelFromNodeType, headingTag.
    destruct (String.prefix "heading-" ty) eqn:Hp; [|done].
    apply prefix_split in Hp.
    change (String.length "heading-") with 8 in Hp.
    destruct (substring 8 (String.length ty - 8) ty) as [|ch [|? ?]];
      try done.
    unfold isDigit.
    destruct (48 <=? nat_of_ascii ch)%nat eqn:Hlo; [|done].
    destruct (nat_of_ascii ch <=? 57)%nat; [|done]. cbn [andb].
    intros _. apply Nat.leb_le in Hlo.
    replace (48 + (nat_of_ascii ch - 48))%nat with (nat_of_ascii ch) by lia.
    by rewrite ascii_nat_embedding.
  - intros Hn. do 10 (destruct n as [|n]; [reflexivity|]). lia.
Qed.

Lemma segmentsText_walk_any (cell : Node) (c c' : BlockContext) :
  segmentsText <$> processBlock cell c = segmentsText <$> processBlock cell c'.
Proof.
  assert (option_Forall2 (Forall2 sameContent)
            (processBlock cell c) (processBlock cell c')) as Hrel.
  { apply (processBlock_related (λ _ _, True) sameContent);
      unfold sameContent; cbn; try done.
    by intros s s' [? _]. }
  destruct Hrel as [segs segs' Hsegs|]; [|reflexivity]. cbn. f_equal.
  unfold segmentsText. f_equal.
  induction Hsegs as [|s s' segs segs' [Hs _] _ IH]; [reflexivity|].
  cbn. by rewrite Hs, IH.
Qed.

Lemma flatRow_any (row : Node) (c c' : BlockContext) :
  flatRow c row = flatRow c' row.
Proof.
  unfold flatRow. f_equal. apply mapM_ext. intros cell.
  apply segmentsText_walk_any.
Qed.

Lemma tableLoop_flatRows (content : list Node) (c : BlockContext) :
  forEachPush (λ row,
      if String.eqb (nodeTypeOf row) "table-row" then
        cellTexts ← mapM (λ cell, segmentsText <$> processBlock cell c)
                       (contentOf row);
        Some [rowSegment cellTexts]
      else Some []) content
  = mapM (flatRow c) (List.filter isTableRow content).
Proof.
  induction content as [|row content IH]; [reflexivity|].
  rewrite forEachPush_cons, IH. cbn [List.filter]. unfold isTableRow at 2.
  destruct (String.eqb (nodeTypeOf row) "table-row").
  - cbn [mapM]. unfold flatRow.
    destruct (mapM _ (contentOf row)) as [texts|]; [|reflexivity]. cbn.
    by destruct (mapM _ (List.filter isTableRow content)).
  - cbn. by destruct (mapM (flatRow c) _).
Qed.

Lemma processBlock_table (d : Data) (content : list Node) (c : BlockContext) :
  processBlock (Elem "table" d content) c
  = mapM (flatRow c) (List.filter isTableRow content).
Proof.
  rewrite processBlock_Elem. apply tableLoop_flatRows.
Qed.

(** X12. A table that is walked as a block (inside a list item or a
    blockquote, or at top level in plain-text mode) is flattened: it gives,
    under every context alike, one segment per [table-row] child, in order,
    whose text is the texts of the row's cells joined by tabs and whose
    formatting is empty, whatever marks, links, headings or lists the cells
    hold or surround the table. *)
Theorem nested_table_flattened
    (d : Data) (content : list Node) (c c' : BlockContext) :
  processBlock (Block "table" d content) c
    = mapM (flatRow DEFAULT_CONTEXT) (List.filter isTableRow content)
  ∧ processBlock (Block "table" d content) c
    = processBlock (Block "table" d content) c'
  ∧ (∀ segs, processBlock (Block "table" d content) c = Some segs →
       length segs = length (List.filter isTableRow content)
       ∧ Forall (λ s, format s = noFormat) segs)
  ∧ processBlock tableInList DEFAULT_CONTEXT
    = Some [rowSegment ["Name"; "Age"]; rowSegment ["Alice"; "30"]].
Proof.
  assert (∀ x, processBlock (Block "table" d content) x
               = mapM (flatRow DEFAULT_CONTEXT) (List.filter isTableRow content))
    as Hany.
  { intros x. unfold Block. rewrite processBlock_table.
    apply mapM_ext. intros row. apply flatRow_any. }
  split; [apply Hany|]. split; [by rewrite !Hany|]. split; [|reflexivity].
  intros segs. rewrite Hany. intros Hsegs. apply mapM_Some_1 in Hsegs.
  split; [symmetry; by eapply Forall2_length|].
  eapply Forall2_Forall_r; [exact Hsegs|].
  apply Forall_forall. intros row _ s. unfold flatRow.
  destruct (mapM _ (contentOf row)); [|discriminate]. by intros [= <-].
Qed.

(** X14. The renderer throws wherever a node that it walks as a block is
    a Text leaf: the walker throws, under every context, on every node on
    which [walks] fails, and each entry point throws on every document one
    of whose top-level blocks fails the matching condition.  A missing
    document gives the empty plain string. *)
Theorem leaf_in_block_position_throws
    (n : Node) (c : BlockContext) (doc : RichTextDocument) :
  (walks n = false → processBlock n c = None)
  ∧ (forallb renders (doc_content doc) = false →
     documentToRenderPlan doc = None)
  ∧ (forallb flattens (doc_content doc) = false →
     richTextToPlainString (Some doc) = None)
  ∧ richTextToPlainString None = Some "".
Proof.
  assert (∀ {X} (o : option X) (b : bool),
            (is_Some o ↔ b = true) → b = false → o = None) as Hnone.
  { intros X [x|] b Hiff Hb; [|reflexivity].
    destruct Hiff as [Hiff _]. rewrite Hb in Hiff.
    discriminate Hiff. by eexists. }
  split; [apply Hnone, processBlock_returns|].
  split; [apply Hnone, documentToRenderPlan_returns|].
  split; [apply Hnone, richTextToPlainString_returns | reflexivity].
Qed.

(** X15. In plain-text mode a top-level table gives at most one line: the
    texts of its rows, each the cell texts joined by tabs, one after the
    other with nothing between two rows; no line when that text is empty. *)
Theorem plain_table_single_line (d : Data) (content : list Node) :
  plainLines (Block "table" d content)
    = (rows ← mapM (flatRow DEFAULT_CONTEXT) (List.filter isTableRow content);
       Some (if String.eqb (allText rows) "" then [] else [allText rows]))
  ∧ richTextToPlainString (Some (makeDoc [sampleTable]))
    = Some ("Name" +:+ String (ascii_of_nat 9) "Age"
            +:+ "Alice" +:+ String (ascii_of_nat 9) "30").
Proof.
  split; [|reflexivity].
  unfold plainLines, Block. cbn [nodeTypeOf String.eqb Ascii.eqb Bool.eqb].
  rewrite processBlock_table.
  destruct (mapM _ _) as [rows|]; [|reflexivity]. cbn.
  by rewrite segmentsText_allText.
Qed.

(** X16. A block is walked child by child, in document order: the walk of a
    block whose content is two runs of children, one after the other, is the
    walk of the block with the first run followed by the walk of the block
    with the second, whatever the tag, and fails when either fails. *)
Theorem walk_follows_children
    (ty : string) (d : Data) (a b : list Node) (c : BlockContext) :
  processBlock (Elem ty d (a ++ b)) c
  = (xs ← processBlock (Elem ty d a) c;
     ys ← processBlock (Elem ty d b) c;
     Some (xs ++ ys)).
Proof.
  rewrite !processBlock_Elem. unfold collectSegmentsWith.
  repeat match goal with
         | |- context [if ?x then _ else _] => destruct x
         end; apply forEachPush_app.
Qed.

Lemma processBlock_paragraph_collect (content : list Node) (c : BlockContext) :
  processBlock (paragraph content) c
  = collectSegmentsWith processBlock content c.
Proof. unfold paragraph, Block. by rewrite processBlock_Elem. Qed.

Lemma flat_map_textLeaves (texts : list (string * list Mark))
    (f : string → list Mark → Segment) :
  flat_map (λ child,
      match child with
      | Text v m => [f v m]
      | Elem _ _ _ => []
      end) (textLeaf <$> texts)
  = (λ t, f t.1 t.2) <$> texts.
Proof.
  induction texts as [|t texts IH]; [reflexivity|].
  rewrite fmap_cons. cbn [flat_map textLeaf]. by rewrite IH.
Qed.

(** X17. A link that does not resolve is rendered as its bare text: a
    paragraph that holds a hyperlink node with Text leaves and neither a
    [uri] nor a file URL walks to what the paragraph of those leaves walks
    to.  A non-empty [uri] always resolves, before the target is looked at,
    and a node with another tag never links. *)
Theorem unresolved_link_is_bare_text
    (ty : string) (d : Data) (texts : list (string * list Mark))
    (c : BlockContext)
    (Hty : isHyperlink ty = true)
    (Hnone : resolveHref ty d = None) :
  processBlock (paragraph [Inline ty d (textLeaf <$> texts)]) c
    = processBlock (paragraph (textLeaf <$> texts)) c
  ∧ (∀ d' u, uri d' = Some u → u ≠ "" → resolveHref ty d' = Some u)
  ∧ (∀ ty' d', isHyperlink ty' = false → resolveHref ty' d' = None).
Proof.
  split; [|split].
  - rewrite processBlock_paragraph, processBlock_paragraph_collect.
    unfold Inline, collectSegmentsWith. rewrite forEachPush_single.
    destruct (isHyperlink_inline ty Hty) as [-> Hentry]. cbn [negb].
    unfold collectSegmentsFromInline. rewrite Hnone, Hentry, app_nil_r.
    f_equal. apply (flat_map_textLeaves texts (λ v m, textNodeToSegment v m c)).
  - intros d' u Hu Hne. unfold resolveHref. rewrite Hty, Hu. cbn.
    apply String.eqb_neq in Hne. by rewrite Hne.
  - intros ty' d' Hno. unfold resolveHref. by rewrite Hno.
Qed.

Lemma unresolved_link_is_bare_text_witness :
  isHyperlink "asset-hyperlink" = true
  ∧ resolveHref "asset-hyperlink" noData = None
  ∧ processBlock
      (paragraph [Inline "asset-hyperlink" noData (textLeaf <$> [("file", [])])])
      DEFAULT_CONTEXT
    = processBlock (paragraph (textLeaf <$> [("file", [])])) DEFAULT_CONTEXT.
Proof.
  split; [reflexivity|]. split; [reflexivity|].
  exact (proj1 (unresolved_link_is_bare_text "asset-hyperlink" noData
                  [("file", [])] DEFAULT_CONTEXT eq_refl eq_refl)).
Defined.

Lemma walkEach_text_any (content : list Node) (c c' : BlockContext) :
  segmentsText <$> forEachPush (λ child, processBlock child c) content
  = segmentsText <$> forEachPush (λ child, processBlock child c') content.
Proof.
  assert (option_Forall2 (Forall2 sameContent)
            (forEachPush (λ child, processBlock child c) content)
            (forEachPush (λ child, processBlock child c') content)) as Hrel.
  { apply forEachPush_Forall2, Forall_forall. intros n _.
    apply (processBlock_related (λ _ _, True) sameContent);
      unfold sameContent; cbn; try done.
    by intros s s' [? _]. }
  destruct Hrel as [segs segs' Hsegs|]; [|reflexivity]. cbn. f_equal.
  unfold segmentsText. f_equal.
  induction Hsegs as [|s s' segs segs' [Hs _] _ IH]; [reflexivity|].
  cbn. by rewrite Hs, IH.
Qed.

Lemma flatRow_of_tableRow (row : Node) (r : TableRow) (c : BlockContext) :
  forallb isCell (contentOf row) = true → tableRow row = Some r →
  flatRow c row = Some (rowSegment (allText <$> cells r)).
Proof.
  intros Hcells. unfold tableRow, flatRow.
  destruct (mapM tableCell (contentOf row)) as [cs|] eqn:Hcs; [|discriminate].
  intros [= <-]. cbn [cells].
  assert (mapM (λ cell, segmentsText <$> processBlock cell c) (contentOf row)
          = Some (allText <$> cs)) as ->; [|reflexivity].
  apply mapM_Some_1 in Hcs. apply forallb_Forall in Hcells.
  apply mapM_Some_2.
  induction Hcs as [|cell segs cells' cs' Hcell _ IH]; [constructor|].
  apply Forall_cons in Hcells as [Htag Hcells].
  rewrite fmap_cons. constructor; [|by apply IH].
  destruct cell as [v m | cty cd cc]; [discriminate|].
  cbn [tableCell] in Hcell. unfold isCell in Htag. cbn [nodeTypeOf] in Htag.
  assert (processBlock (Elem cty cd cc) c
          = forEachPush (λ child, processBlock child c) cc) as ->.
  { rewrite processBlock_Elem.
    apply orb_true_iff in Htag as [->%String.eqb_eq | ->%String.eqb_eq];
      reflexivity. }
  rewrite (walkEach_text_any cc c DEFAULT_CONTEXT).
  destruct (forEachPush _ cc) as [raw|]; [|discriminate].
  injection Hcell as <-. cbn.
  by rewrite merge_allText, segmentsText_allText.
Qed.

(** X18. The two renderings of a table agree on its texts: for a table whose
    rows hold cells only, the table walked as a block gives, row by row, the
    segment whose text is the tab-joined concatenated texts of the cells
    that the table extractor returns for that row. *)
Theorem table_paths_agree
    (d : Data) (content : list Node) (rows : list TableRow) (c : BlockContext)
    (Hcells : cellsOnly content = true)
    (Hrows : processTableToRows (Block "table" d content) = Some rows) :
  processBlock (Block "table" d content) c
  = Some ((λ r, rowSegment (allText <$> cells r)) <$> rows).
Proof.
  unfold Block in *. rewrite processTableToRows_spec in Hrows.
  rewrite processBlock_table. unfold tableRows in Hrows.
  apply mapM_Some_1 in Hrows. apply mapM_Some_2.
  unfold cellsOnly in Hcells. apply forallb_Forall in Hcells.
  assert (Forall (λ row, forallb isCell (contentOf row) = true)
            (List.filter isTableRow content)) as Hfiltered.
  { apply Forall_forall. intros row [Hin Hrow]%list_elem_of_In%filter_In.
    rewrite Forall_forall in Hcells.
    specialize (Hcells row (proj2 (list_elem_of_In _ _) Hin)).
    by rewrite Hrow in Hcells. }
  revert Hfiltered.
  induction Hrows as [|row r rows' rs Hr _ IH]; intros Hfiltered;
    [constructor|].
  apply Forall_cons in Hfiltered as [Hrow Hfiltered].
  rewrite fmap_cons. constructor; [|by apply IH].
  by apply flatRow_of_tableRow.
Qed.

Lemma table_paths_agree_witness :
  ∃ rows,
    cellsOnly (contentOf sampleTable) = true
    ∧ processTableToRows sampleTable = Some rows
    ∧ processBlock sampleTable DEFAULT_CONTEXT
      = Some ((λ r, rowSegment (allText <$> cells r)) <$> rows).
Proof.
  eexists. split; [reflexivity|]. split; [reflexivity|].
  exact (table_paths_agree noData (contentOf sampleTable) _ DEFAULT_CONTEXT
           eq_refl eq_refl).
Defined.

Lemma paragraph_of_textNodes (texts : list string) (c : BlockContext) :
  processBlock (paragraph (textNode <$> texts)) c
  = Some ((λ t, textNodeToSegment t [] c) <$> texts).
Proof.
  rewrite processBlock_paragraph_collect. unfold collectSegmentsWith.
  induction texts as [|t texts IH]; [reflexivity|].
  rewrite !fmap_cons, forEachPush_cons, IH. reflexivity.
Qed.

Lemma plainItems_walk (items : list (list string)) (c : BlockContext) :
  forEachPush (λ b, processBlock b c)
    (listItemBlocks (plainItem <$> items))
  = Some ((λ t, textNodeToSegment t [] c) <$> concat items).
Proof.
  induction items as [|texts items IH]; [reflexivity|].
  rewrite fmap_cons. unfold listItemBlocks in *. cbn [flat_map].
  unfold plainItem at 1 2, Block at 1 2. cbn [nodeTypeOf contentOf].
  change (String.eqb "list-item" "list-item") with true. cbn iota.
  rewrite forEachPush_app, forEachPush_single, paragraph_of_textNodes, IH.
  cbn. by rewrite fmap_app.
Qed.

Lemma allText_plain (texts : list string) (c : BlockContext) :
  allText ((λ t, textNodeToSegment t [] c) <$> texts) = join "" texts.
Proof.
  induction texts as [|t texts IH]; [reflexivity|].
  rewrite fmap_cons, join_empty_cons, <- IH. reflexivity.
Qed.

Lemma renderTopBlock_plainList (lt : ListType) (items : list (list string)) :
  renderTopBlock (Block (listTag lt) noData (plainItem <$> items))
  = Some match concat items with
         | [] => []
         | _ :: _ => [TextBlock [listRun lt (join "" (concat items))]]
         end.
Proof.
  unfold renderTopBlock, Block. cbn [nodeTypeOf].
  assert (String.eqb (listTag lt) "table" = false) as -> by by destruct lt.
  assert (String.eqb (listTag lt) "embedded-asset-block" = false) as ->
    by by destruct lt.
  assert (String.eqb (listTag lt) "embedded-entry-block" = false) as ->
    by by destruct lt.
  assert (String.eqb (listTag lt) "hr" = false) as -> by by destruct lt.
  rewrite processBlock_list, plainItems_walk.
  cbn [mbind option_bind]. f_equal.
  destruct (concat items) as [|t texts] eqn:Hitems; [reflexivity|].
  rewrite fmap_cons. cbn [length]. change (0 <? S _)%nat with true. cbn iota.
  f_equal. f_equal.
  rewrite merge_eq_reference. cbn [mergeReference].
  rewrite mergeScan_uniform.
  - by rewrite (allText_plain texts), join_empty_cons.
  - apply Forall_fmap, Forall_forall. by intros s _.
Qed.

(** X19. The items of a list are not kept apart: a list whose items are
    paragraphs of unmarked text gives one text block with one segment, whose
    text is the texts of all the items one after the other, with the list
    type of the list and indent 1; a list with no text gives no block. *)
Theorem list_items_merge
    (lt : ListType) (items : list (list string)) :
  documentToRenderPlan
    (makeDoc [Block (listTag lt) noData (plainItem <$> items)])
  = Some {| blocks :=
      match concat items with
      | [] => []
      | _ :: _ =>
          [TextBlock
             [{| text := join "" (concat items);
                 bold := false; italic := false; underline := false;
                 code := false; headingLevel := 0; listType := Some lt;
                 listIndent := 1; hyperlink := None |}]]
      end |}.
Proof.
  by rewrite documentToRenderPlan_single, renderTopBlock_plainList.
Qed.

(** * The text and the ranges of applyTextBlocksToNode *)

Section StringsByLength.

Lemma string_length_app (a b : string) :
  String.length (a +:+ b) = (String.length a + String.length b)%nat.
Proof.
  induction a as [|ch a IH]; [reflexivity|].
  change (S (String.length (a +:+ b))
          = S (String.length a + String.length b)). by rewrite IH.
Qed.

Lemma substring_app_skip (a b : string) (n m : nat) :
  substring (String.length a + n) m (a +:+ b) = substring n m b.
Proof.
  induction a as [|ch a IH]; [reflexivity|]. exact IH.
Qed.

Lemma substring_app_take (t r : string) :
  substring 0 (String.length t) (t +:+ r) = t.
Proof.
  induction t as [|ch t IH]; [by destruct r|].
  change (String ch (substring 0 (String.length t) (t +:+ r)) = String ch t).
  by rewrite IH.
Qed.

End StringsByLength.

Section FigmaTextFacts.
Variable bullet dash : ascii.

Lemma listPrefixLen_listPrefix (seg : Segment) (n : nat) :
  listPrefixLen seg n
  = (String.length (listPrefix bullet seg n).1, (listPrefix bullet seg n).2).
Proof.
  unfold listPrefixLen, listPrefix.
  destruct (listType seg) as [[|]|]; [| |reflexivity];
    destruct (negb (String.eqb (text seg) newline)); try reflexivity; cbn [fst snd].
  - rewrite string_length_app. reflexivity.
  - rewrite !string_length_app. reflexivity.
Qed.

Lemma buildFullText_from (segs : list Segment) (acc : string) (n : nat) :
  buildFullText bullet segs acc n = acc +:+ buildFullText bullet segs "" n.
Proof.
  revert acc n. induction segs as [|seg segs IH]; intros acc n.
  { cbn. by rewrite string_app_nil_r. }
  cbn [buildFullText]. destruct (listPrefix bullet seg n) as [p n'].
  rewrite (IH ((acc +:+ p) +:+ text seg)), (IH (("" +:+ p) +:+ text seg)).
  by rewrite !string_app_assoc.
Qed.

Lemma formatRanges_cover (segs : list Segment) (acc : string) (n : nat) :
  Forall2 (λ seg r,
      (r.1 ≤ r.2)%nat
      ∧ (r.2 ≤ String.length (acc +:+ buildFullText bullet segs "" n))%nat
      ∧ substring r.1 (r.2 - r.1) (acc +:+ buildFullText bullet segs "" n)
        = text seg)
    segs (formatRanges segs (String.length acc) n).
Proof.
  revert acc n. induction segs as [|seg segs IH]; intros acc n; [constructor|].
  cbn [formatRanges buildFullText]. rewrite listPrefixLen_listPrefix.
  destruct (listPrefix bullet seg n) as [p n']. cbn [fst snd].
  rewrite (buildFullText_from segs (("" +:+ p) +:+ text seg)).
  change ("" +:+ p) with p.
  assert (acc +:+ (p +:+ text seg) +:+ buildFullText bullet segs "" n'
          = ((acc +:+ p) +:+ text seg) +:+ buildFullText bullet segs "" n')
    as Hfull by by rewrite !string_app_assoc.
  constructor.
  - cbn [fst snd]. split; [lia|]. split.
    + rewrite Hfull, !string_length_app. lia.
    + replace (String.length acc + String.length p + String.length (text seg)
               - (String.length acc + String.length p))%nat
        with (String.length (text seg)) by lia.
      rewrite Hfull, string_app_assoc, <- string_length_app.
      rewrite <- (Nat.add_0_r (String.length (acc +:+ p))).
      rewrite substring_app_skip. apply substring_app_take.
  - rewrite Hfull.
    replace (String.length acc + String.length p + String.length (text seg))%nat
      with (String.length ((acc +:+ p) +:+ text seg))
      by (rewrite !string_length_app; lia).
    apply IH.
Qed.

Lemma formatRanges_from (segs : list Segment) (off n : nat) :
  Forall (λ r, (off ≤ r.1)%nat ∧ (r.1 ≤ r.2)%nat) (formatRanges segs off n).
Proof.
  revert off n. induction segs as [|seg segs IH]; intros off n; [constructor|].
  cbn [formatRanges]. destruct (listPrefixLen seg n) as [pl n'].
  constructor; [cbn; lia|].
  eapply Forall_impl; [apply IH|]. cbn. intros r [? ?]. lia.
Qed.

Lemma formatRanges_sorted (segs : list Segment) (off n : nat) :
  StronglySorted (λ r r', (r.2 ≤ r'.1)%nat) (formatRanges segs off n).
Proof.
  revert off n. induction segs as [|seg segs IH]; intros off n; [constructor|].
  cbn [formatRanges]. destruct (listPrefixLen seg n) as [pl n'].
  constructor; [apply IH|].
  eapply Forall_impl; [apply formatRanges_from|]. cbn. by intros r [? _].
Qed.

Lemma formatRanges_end (segs : list Segment) (acc : string) (n : nat)
    (r : nat * nat) :
  last (formatRanges segs (String.length acc) n) = Some r →
  r.2 = String.length (acc +:+ buildFullText bullet segs "" n).
Proof.
  revert acc n. induction segs as [|seg segs IH]; intros acc n; [discriminate|].
  cbn [formatRanges buildFullText]. rewrite listPrefixLen_listPrefix.
  destruct (listPrefix bullet seg n) as [p n']. cbn [fst snd].
  rewrite (buildFullText_from segs (("" +:+ p) +:+ text seg)).
  change ("" +:+ p) with p.
  replace (String.length acc + String.length p + String.length (text seg))%nat
    with (String.length ((acc +:+ p) +:+ text seg))
    by (rewrite !string_length_app; lia).
  rewrite last_cons.
  destruct (last (formatRanges segs _ n')) as [r'|] eqn:Hlast; intros [= <-].
  - apply IH in Hlast. by rewrite Hlast, !string_app_assoc.
  - apply last_None in Hlast. destruct segs as [|seg' segs].
    + cbn. by rewrite string_app_nil_r, !string_app_assoc.
    + cbn [formatRanges] in Hlast.
      by destruct (listPrefixLen seg' n') in Hlast.
Qed.

End FigmaTextFacts.

(** X20. Every range that the formatting loop computes lies inside the
    characters set on the node and holds exactly the text of its segment,
    so the list prefixes are left unformatted and the test
    [segEnd <= fullText.length] never fails; the ranges are in order and do
    not overlap, and the last one ends where the characters end. *)
Theorem ranges_cover_segments (bullet : ascii) (segs : list Segment) :
  Forall2 (λ seg r,
      (r.1 ≤ r.2)%nat
      ∧ (r.2 ≤ String.length (buildFullText bullet segs "" 0))%nat
      ∧ substring r.1 (r.2 - r.1) (buildFullText bullet segs "" 0) = text seg)
    segs (formatRanges segs 0 0)
  ∧ StronglySorted (λ r r', (r.2 ≤ r'.1)%nat) (formatRanges segs 0 0)
  ∧ ∀ r, last (formatRanges segs 0 0) = Some r →
         r.2 = String.length (buildFullText bullet segs "" 0).
Proof.
  split; [|split].
  - exact (formatRanges_cover bullet segs "" 0).
  - apply formatRanges_sorted.
  - intros r Hlast. exact (formatRanges_end bullet segs "" 0 r Hlast).
Qed.

Lemma allText_app (a b : list Segment) :
  allText (a ++ b) = allText a +:+ allText b.
Proof.
  induction a as [|s a IH]; [reflexivity|].
  change (text s +:+ allText (a ++ b) = (text s +:+ allText a) +:+ allText b).
  by rewrite IH, string_app_assoc.
Qed.

Lemma buildFullText_listFree (bullet : ascii) (segs : list Segment)
    (acc : string) (n : nat) :
  Forall (λ s, listType s = None) segs →
  buildFullText bullet segs acc n = acc +:+ allText segs.
Proof.
  revert acc n. induction segs as [|s segs IH]; intros acc n Hfree.
  { cbn. by rewrite string_app_nil_r. }
  apply Forall_cons in Hfree as [Hs Hsegs].
  cbn [buildFullText]. unfold listPrefix. rewrite Hs, (IH _ _ Hsegs).
  rewrite string_app_nil_r, string_app_assoc. reflexivity.
Qed.

Lemma flat_map_joinRuns (dash : ascii) (runs : list (list Segment)) :
  runs ≠ [] →
  flat_map (blockSegments dash) (TextBlock <$> runs)
  = joinRuns runs ++ [unformatted newline].
Proof.
  induction runs as [|run runs IH]; [done|]. intros _.
  destruct runs as [|run' runs].
  { cbn. by rewrite app_nil_r. }
  rewrite fmap_cons. cbn [flat_map]. rewrite IH by done.
  change (joinRuns (run :: run' :: runs))
    with (run ++ unformatted newline :: joinRuns (run' :: runs)).
  cbn [blockSegments]. by rewrite <- !app_assoc.
Qed.

Lemma collectAllSegments_runs (dash : ascii) (runs : list (list Segment)) :
  collectAllSegments dash (TextBlock <$> runs) = joinRuns runs.
Proof.
  destruct runs as [|run runs]; [reflexivity|].
  unfold collectAllSegments. rewrite flat_map_joinRuns by done.
  rewrite last_snoc. cbn [text unformatted].
  rewrite String.eqb_refl. apply removelast_last.
Qed.

Lemma allText_joinRuns (runs : list (list Segment)) :
  allText (joinRuns runs) = join newline (allText <$> runs).
Proof.
  induction runs as [|run runs IH]; [reflexivity|].
  destruct runs as [|run' runs]; [reflexivity|].
  change (joinRuns (run :: run' :: runs))
    with (run ++ unformatted newline :: joinRuns (run' :: runs)).
  rewrite allText_app.
  change (allText (unformatted newline :: joinRuns (run' :: runs)))
    with (newline +:+ allText (joinRuns (run' :: runs))).
  rewrite IH. reflexivity.
Qed.

Lemma joinRuns_listFree (runs : list (list Segment)) :
  Forall (Forall (λ s, listType s = None)) runs →
  Forall (λ s, listType s = None) (joinRuns runs).
Proof.
  induction 1 as [|run runs Hrun Hruns IH]; [constructor|].
  destruct runs as [|run' runs]; [exact Hrun|].
  change (joinRuns (run :: run' :: runs))
    with (run ++ unformatted newline :: joinRuns (run' :: runs)).
  apply Forall_app. split; [exact Hrun|].
  by constructor.
Qed.

Lemma joinRuns_nil (runs : list (list Segment)) :
  Forall (λ run, run ≠ []) runs → joinRuns runs = [] → runs = [].
Proof.
  destruct 1 as [|run runs Hrun Hruns]; [done|].
  destruct runs as [|run' runs]; [done|].
  cbn [joinRuns]. by destruct run.
Qed.

Lemma buildFullText_break (bullet : ascii) (a rest : list Segment)
    (s : Segment) (acc : string) (n : nat) :
  listType s = None →
  buildFullText bullet (a ++ s :: rest) acc n
  = buildFullText bullet rest (buildFullText bullet a acc n +:+ text s) 0.
Proof.
  intros Hs. revert acc n. induction a as [|seg a IH]; intros acc n.
  - cbn [app buildFullText]. unfold listPrefix. rewrite Hs.
    by rewrite string_app_nil_r.
  - cbn [app buildFullText]. destruct (listPrefix bullet seg n) as [p n'].
    apply IH.
Qed.

Lemma omap_cons_eq {A B} (f : A → option B) (x : A) (l : list A) :
  omap f (x :: l)
  = match f x with Some y => y :: omap f l | None => omap f l end.
Proof. reflexivity. Qed.

Lemma omap_nil_eq {A B} (f : A → option B) : omap f [] = [].
Proof. reflexivity. Qed.

Lemma string_app_nil_l (a : string) : "" +:+ a = a.
Proof. reflexivity. Qed.

Lemma buildFullText_blocks (bullet dash : ascii) (bs : list RenderBlock)
    (rest : list Segment) (acc : string) :
  buildFullText bullet (flat_map (blockSegments dash) bs ++ rest) acc 0
  = buildFullText bullet rest
      (acc +:+ join "" ((λ l, l +:+ newline) <$> omap (blockLine bullet dash) bs))
      0.
Proof.
  revert acc. induction bs as [|b bs IH]; intros acc.
  { cbn. by rewrite string_app_nil_r. }
  cbn [flat_map]. rewrite <- app_assoc.
  rewrite omap_cons_eq.
  destruct b as [segs| | |]; cbn [blockSegments blockLine].
  - rewrite <- app_assoc. cbn [app].
    rewrite buildFullText_break by reflexivity. rewrite IH.
    cbn [text unformatted]. rewrite fmap_cons, join_empty_cons.
    rewrite (buildFullText_from bullet segs acc).
    by rewrite !string_app_assoc.
  - cbn [app]. by rewrite IH.
  - cbn [app buildFullText]. unfold listPrefix at 1.
    cbn [listType text unformatted]. rewrite IH.
    rewrite fmap_cons, join_empty_cons. unfold ruleText.
    by rewrite string_app_nil_r, !string_app_assoc.
  - cbn [app]. by rewrite IH.
Qed.

Lemma join_lines_snoc (lines : list string) (l : string) :
  join newline (lines ++ [l])
  = join "" ((λ l, l +:+ newline) <$> lines) +:+ l.
Proof.
  induction lines as [|x lines IH]; [reflexivity|].
  rewrite fmap_cons, join_empty_cons, !string_app_assoc, <- IH.
  by destruct lines.
Qed.

Lemma ruleText_not_newline (dash : ascii) :
  String.eqb (ruleText dash) newline = false.
Proof.
  unfold ruleText, newline. cbv [repeatString String.append String.eqb].
  by destruct (Ascii.eqb dash _).
Qed.

Lemma nodeCharacters_segments (bullet dash : ascii) (bs : list RenderBlock)
    (segs : list Segment) :
  collectAllSegments dash bs = segs → segs ≠ [] →
  nodeCharacters bullet dash bs = Some (buildFullText bullet segs "" 0).
Proof.
  intros Hsegs Hne. unfold nodeCharacters. rewrite Hsegs. by destruct segs.
Qed.

Lemma endsWithRule_snoc (bs : list RenderBlock) (b : RenderBlock) :
  endsWithRule (bs ++ [b])
  = match b with
    | TextBlock _ => false
    | HrBlock => true
    | ImageBlock _ _ | TableBlock _ => endsWithRule bs
    end.
Proof. unfold endsWithRule. by rewrite foldl_app. Qed.

(** X21. The characters set on the node are the lines of the blocks joined
    by newlines: a text block shows its text with its list prefixes, the
    numbering starting again in every block, a rule shows fifteen dashes,
    an image or a table shows nothing.  No newline follows the last line
    unless the last block that shows a line is a rule.  With no line the
    node is left as it is. *)
Theorem characters_of_blocks
    (bullet dash : ascii) (textBlocks : list RenderBlock)
    (Hruns : Forall (λ b, b ≠ TextBlock []) textBlocks) :
  nodeCharacters bullet dash textBlocks
  = match omap (blockLine bullet dash) textBlocks with
    | [] => None
    | _ :: _ =>
        Some (join newline (omap (blockLine bullet dash) textBlocks)
              +:+ (if endsWithRule textBlocks then newline else ""))
    end.
Proof.
  induction textBlocks as [|b bs IH] using rev_ind; [reflexivity|].
  apply Forall_app in Hruns as [Hbs Hb]. apply Forall_inv in Hb.
  specialize (IH Hbs).
  rewrite omap_app, endsWithRule_snoc, omap_cons_eq, omap_nil_eq.
  destruct b as [segs| | |]; cbn [blockLine].
  - assert (collectAllSegments dash (bs ++ [TextBlock segs])
            = flat_map (blockSegments dash) bs ++ segs) as Hsegs.
    { unfold collectAllSegments. rewrite flat_map_app. cbn [flat_map].
      rewrite app_nil_r. cbn [blockSegments]. rewrite app_assoc, last_snoc.
      cbn [text unformatted]. rewrite String.eqb_refl.
      apply removelast_last. }
    rewrite (nodeCharacters_segments bullet dash _ _ Hsegs).
    + rewrite buildFullText_blocks.
      rewrite (buildFullText_from bullet segs).
      rewrite string_app_nil_l, string_app_nil_r, join_lines_snoc.
      by destruct (omap (blockLine bullet dash) bs).
    + intros [_ ->]%app_eq_nil. done.
  - rewrite app_nil_r, <- IH. unfold nodeCharacters, collectAllSegments.
    rewrite flat_map_app. cbn [flat_map blockSegments].
    by rewrite !app_nil_r.
  - assert (collectAllSegments dash (bs ++ [HrBlock])
            = flat_map (blockSegments dash) bs ++ [unformatted (ruleText dash)])
      as Hsegs.
    { unfold collectAllSegments. rewrite flat_map_app. cbn [flat_map].
      rewrite app_nil_r. cbn [blockSegments]. rewrite last_snoc.
      cbn [text unformatted]. by rewrite ruleText_not_newline. }
    rewrite (nodeCharacters_segments bullet dash _ _ Hsegs).
    + rewrite buildFullText_blocks. cbn [buildFullText].
      unfold listPrefix. cbn [listType unformatted text].
      rewrite string_app_nil_l, string_app_nil_r, join_lines_snoc.
      unfold ruleText. rewrite string_app_assoc.
      by destruct (omap (blockLine bullet dash) bs).
    + intros [_ [=]]%app_eq_nil.
  - rewrite app_nil_r, <- IH. unfold nodeCharacters, collectAllSegments.
    rewrite flat_map_app. cbn [flat_map blockSegments].
    by rewrite !app_nil_r.
Qed.

Lemma characters_of_blocks_witness :
  nodeCharacters "*" "-"
    [TextBlock [listRun ordered "one"]; HrBlock;
     TextBlock [listRun ordered "two"]; HrBlock]
  = Some ("1. one" +:+ newline +:+ "---------------" +:+ newline
          +:+ "1. two" +:+ newline +:+ "---------------" +:+ newline).
Proof.
  apply (characters_of_blocks "*" "-"
           [TextBlock [listRun ordered "one"]; HrBlock;
            TextBlock [listRun ordered "two"]; HrBlock]).
  repeat constructor; discriminate.
Defined.

Lemma renderTopBlock_walked (b : Node) (out : list RenderBlock) :
  walkedAtTopLevel b = true → renderTopBlock b = Some out →
  Forall (λ rb, rb = TextBlock (planSegments rb)) out.
Proof.
  unfold walkedAtTopLevel.
  intros [[[Ht Ha]%andb_true_iff He]%andb_true_iff Hh]%andb_true_iff.
  apply negb_true_iff in Ht, Ha, He, Hh.
  unfold renderTopBlock. rewrite Ht, Ha, He, Hh.
  destruct (processBlock b DEFAULT_CONTEXT) as [segs|]; [|discriminate].
  intros [= <-]. destruct (0 <? length segs)%nat; by repeat constructor.
Qed.

Lemma textBlocks_runs (bs : list RenderBlock) :
  Forall (λ rb, rb = TextBlock (planSegments rb)) bs →
  bs = TextBlock <$> (planSegments <$> bs).
Proof.
  induction 1 as [|rb bs Hrb Hbs IH]; [reflexivity|].
  rewrite !fmap_cons, <- IH, <- Hrb. reflexivity.
Qed.

Lemma filter_nonEmpty_all (l : list string) :
  Forall (λ s, s ≠ "") l → List.filter nonEmpty l = l.
Proof.
  induction 1 as [|s l Hs Hl IH]; [reflexivity|].
  cbn [List.filter]. unfold nonEmpty at 1.
  destruct (String.eqb_spec s ""); [done|]. cbn. by rewrite IH.
Qed.

(** X22. The two renderings agree on plain documents: when every top-level
    block is handed to the walker, no segment of the plan is a list segment
    and no text block of the plan has an empty text, the characters that
    [applyTextBlocksToNode] sets on the node for the plan are the plain
    string of the document; the node is left as it is only when the plan has
    no block. *)
Theorem figma_text_is_plain_string
    (bullet dash : ascii) (doc : RichTextDocument) (plan : RenderPlan)
    (Hwalked : forallb walkedAtTopLevel (doc_content doc) = true)
    (Hplan : documentToRenderPlan doc = Some plan)
    (Hfree : Forall (λ b, Forall (λ s, listType s = None) (planSegments b))
               (blocks plan))
    (Htext : Forall (λ b, allText (planSegments b) ≠ "") (blocks plan)) :
  match nodeCharacters bullet dash (blocks plan) with
  | Some chars => richTextToPlainString (Some doc) = Some chars
  | None => blocks plan = []
  end.
Proof.
  assert (blocks plan = TextBlock <$> (planSegments <$> blocks plan)) as Hruns.
  { apply textBlocks_runs.
    apply (documentToRenderPlan_Forall _ doc plan); [|exact Hplan].
    apply Forall_forall. intros b Hb out Hout.
    apply (renderTopBlock_walked b out); [|exact Hout].
    rewrite forallb_forall in Hwalked. apply Hwalked.
    by apply list_elem_of_In. }
  assert (richTextToPlainString (Some doc)
          = Some (join newline (allText <$> (planSegments <$> blocks plan))))
    as Hplain.
  { unfold documentToRenderPlan in Hplan. unfold richTextToPlainString.
    destruct (forEachPush renderTopBlock (doc_content doc)) as [bs|] eqn:Hbs;
      [|discriminate].
    injection Hplan as <-. cbn [blocks] in *.
    rewrite (plainLines_of_plan _ bs Hwalked Hbs). cbn [mbind option_bind].
    rewrite filter_nonEmpty_all.
    - by rewrite <- list_fmap_compose.
    - apply Forall_fmap. exact Htext. }
  assert (nodeCharacters bullet dash (blocks plan)
          = nodeCharacters bullet dash
              (TextBlock <$> (planSegments <$> blocks plan))) as ->
    by (f_equal; exact Hruns).
  unfold nodeCharacters. rewrite collectAllSegments_runs.
  destruct (joinRuns (planSegments <$> blocks plan)) as [|s segs] eqn:Hjoin.
  - apply joinRuns_nil in Hjoin.
    + by apply fmap_nil_inv in Hjoin.
    + apply Forall_fmap. eapply Forall_impl; [exact Htext|].
      cbn. intros b Hb Hnil. by rewrite Hnil in Hb.
  - rewrite Hplain. f_equal. rewrite <- Hjoin.
    rewrite buildFullText_listFree.
    + by rewrite allText_joinRuns.
    + apply joinRuns_listFree, Forall_fmap. exact Hfree.
Qed.

Lemma figma_text_is_plain_string_witness :
  match nodeCharacters "*" "-"
          [TextBlock [plainSegment "Hello"]; TextBlock [plainSegment "World"]]
  with
  | Some chars =>
      richTextToPlainString
        (Some (makeDoc [paragraph [textNode "Hello"];
                        paragraph [textNode "World"]]))
      = Some chars
  | None => True
  end.
Proof.
  pose proof (figma_text_is_plain_string "*" "-"
    (makeDoc [paragraph [textNode "Hello"]; paragraph [textNode "World"]])
    {| blocks := [TextBlock [plainSegment "Hello"];
                  TextBlock [plainSegment "World"]] |}
    eq_refl eq_refl) as H.
  cbn [blocks] in H.
  destruct (nodeCharacters "*" "-"
              [TextBlock [plainSegment "Hello"];
               TextBlock [plainSegment "World"]]); [|exact I].
  apply H; repeat constructor; discriminate.
Defined.

(** X23. A list of unmarked items gets one prefix: its plan holds one
    segment, so the node shows the first marker of the list (the bullet, or
    [1. ]) and then the texts of all the items one after the other; a list
    whose whole text is one newline gets no marker, and a list with no text
    leaves the node as it is. *)
Theorem list_gets_one_prefix
    (bullet dash : ascii) (lt : ListType) (items : list (list string)) :
  (plan ← documentToRenderPlan
            (makeDoc [Block (listTag lt) noData (plainItem <$> items)]);
   nodeCharacters bullet dash (blocks plan))
  = match concat items with
    | [] => None
    | _ :: _ =>
        Some ((if String.eqb (join "" (concat items)) newline then ""
               else firstMarker bullet lt)
              +:+ join "" (concat items))
    end.
Proof.
  rewrite documentToRenderPlan_single, renderTopBlock_plainList.
  cbn [mbind option_bind blocks].
  destruct (concat items) as [|t texts]; [reflexivity|].
  change [TextBlock [listRun lt (join "" (t :: texts))]]
    with (TextBlock <$> [[listRun lt (join "" (t :: texts))]]).
  unfold nodeCharacters. rewrite collectAllSegments_runs.
  cbn [joinRuns buildFullText]. unfold listPrefix. cbn [listType listRun text listIndent].
  destruct (String.eqb (join "" (t :: texts)) newline); [reflexivity|].
  by destruct lt.
Qed.
